(** * dcrdtest: the dcrd node supervisor (node.go)

    A shallow embedding of [nodeConfig], [node], [node.start], [node.stop],
    [node.shutdown] and [genCertPair], with
    - Go errors as an inductive type with [errors.Is],
    - the main goroutine as a program in a small free monad whose
      operations are the calls that leave the goroutine (os/exec, pipes,
      channels, the wait group, the logger),
    - the three goroutines spawned by [start] as step functions on a
      program counter, and
    - an interleaving semantics driven by a schedule. *)

From Stdlib Require Import String Ascii List Bool Arith NArith ZArith DecimalString Lia.
From Stdlib.Strings Require Import Byte.
Import ListNotations.
Open Scope string_scope.
Open Scope list_scope.

(** ** Go errors *)

(** A non-nil [error] value.  [nil] is [None] of [option error].  The
    sentinels are compared by identity in Go, so each has a constructor of
    its own; [osError] stands for any other error value handed back by the
    operating system or a library. *)
Inductive error : Type :=
| errDcrdCmdExec                       (* errors.New("unable to exec dcrd binary") *)
| ioEOF                                (* io.EOF *)
| contextCanceled                      (* context.Canceled *)
| contextDeadlineExceeded              (* context.DeadlineExceeded *)
| osError (msg : string)
| fmtError (msg : string)              (* fmt.Errorf without a %w verb *)
| wrapError (msg : string) (err : error). (* fmt.Errorf with one %w operand *)

(** [err.Error()] *)
Definition error_string (e : error) : string :=
  match e with
  | errDcrdCmdExec => "unable to exec dcrd binary"
  | ioEOF => "EOF"
  | contextCanceled => "context canceled"
  | contextDeadlineExceeded => "context deadline exceeded"
  | osError m => m
  | fmtError m => m
  | wrapError m _ => m
  end.

Definition error_eq_dec (a b : error) : {a = b} + {a <> b}.
Proof. decide equality; apply string_dec. Defined.

(** [errors.Is(err, target)] for a non-nil [err]: identity, or identity of
    something reached through [Unwrap]. *)
Fixpoint errors_Is_nn (e target : error) : bool :=
  if error_eq_dec e target then true
  else match e with
       | wrapError _ inner => errors_Is_nn inner target
       | _ => false
       end.

(** [errors.Is(err, target)]; a nil [err] matches nothing. *)
Definition errors_Is (e : option error) (target : error) : bool :=
  match e with
  | None => false
  | Some e => errors_Is_nn e target
  end.

(** [fmt.Errorf("%w: %v", w, v)] *)
Definition Errorf_w_v (w v : error) : error :=
  wrapError (error_string w ++ ": " ++ error_string v)%string w.

(** [%v] of an error operand that may be nil. *)
Definition error_string_opt (e : option error) : string :=
  match e with
  | None => "<nil>"
  | Some e => error_string e
  end.

(** [fmt.Errorf(prefix + "%v", v)] *)
Definition Errorf_v (prefix : string) (v : option error) : error :=
  fmtError (prefix ++ error_string_opt v)%string.

(** ** nodeConfig *)

(** Modelled from the spec: [ipcPipePair] is declared in a file that is not
    among the sources; the spec describes it as a pair with a readable end
    and a writable end that supports an explicit close.  The ends are kept
    as descriptor numbers; whether the pair is open is part of the shared
    state of the running system (see [shared]). *)
Record ipcPipePair : Type := { r : nat; w : nat }.

Record nodeConfig : Type := {
  rpcUser : string;
  rpcPass : string;
  listen : string;
  rpcListen : string;
  rpcConnect : string;
  dataDir : string;
  logDir : string;
  profile : string;
  debugLevel : string;
  extra : list string;
  prefix : string;
  pathToDCRD : string;
  endpoint : string;
  certFile : string;
  keyFile : string;
  certificates : string;
  pipeTX : ipcPipePair;   (* used with the --pipetx dcrd arg *)
  pipeRX : ipcPipePair    (* used with the --piperx dcrd arg *)
}.

(** [exec.Cmd], as far as node.go touches it. *)
Record Cmd : Type := {
  Path : string;
  Args : list string;
  ExtraFiles : list nat;
  Process : option nat      (* nil until Start succeeds; then the pid *)
}.

(** What differs from one operating system to the next. *)
Record platform : Type := {
  GOOS : string;                              (* runtime.GOOS *)
  osNodeArgs : nodeConfig -> list string;
  osExtraFiles : nodeConfig -> list nat;
  filepath_Base : string -> string;           (* filepath.Base *)
  exec_LookPath : string -> string            (* exec.LookPath; "" when nothing is found *)
}.

Section Config.

Context (os : platform).

(** Modelled from the spec: [appendOSNodeArgs] lives in an OS-specific file
    that is not among the sources.  The spec calls it "append OS-specific
    IPC args": the encoding of the two pipe descriptors is appended to the
    arguments built so far. *)
Definition appendOSNodeArgs (n : nodeConfig) (args : list string) : list string :=
  args ++ osNodeArgs os n.

(** Modelled from the spec: [setOSNodeCmdOptions] lives in the same missing
    file ("set OS-specific process spawn options"). *)
Definition setOSNodeCmdOptions (n : nodeConfig) (cmd : Cmd) : Cmd :=
  {| Path := Path cmd; Args := Args cmd;
     ExtraFiles := osExtraFiles os n; Process := Process cmd |}.

(** [append(args, fmt.Sprintf(flag + "%s", v))] when [v != ""]. *)
Definition appendIfSet (args : list string) (flag v : string) : list string :=
  if v =? "" then args else args ++ [(flag ++ v)%string].

(** [nodeConfig.arguments] *)
Definition arguments (n : nodeConfig) : list string :=
  let args := [] in
  let args := appendIfSet args "--rpcuser=" (rpcUser n) in
  let args := appendIfSet args "--rpcpass=" (rpcPass n) in
  let args := appendIfSet args "--listen=" (listen n) in
  let args := appendIfSet args "--rpclisten=" (rpcListen n) in
  let args := appendIfSet args "--rpcconnect=" (rpcConnect n) in
  let args := args ++ [("--rpccert=" ++ certFile n)%string] in
  let args := args ++ [("--rpckey=" ++ keyFile n)%string] in
  let args := args ++ ["--txindex"] in
  let args := appendIfSet args "--datadir=" (dataDir n) in
  let args := appendIfSet args "--logdir=" (logDir n) in
  let args := appendIfSet args "--profile=" (profile n) in
  let args := appendIfSet args "--debuglevel=" (debugLevel n) in
  let args := args ++ ["--allowunsyncedmining"] in
  let args := appendOSNodeArgs n args in
  let args := args ++ ["--boundaddrevents"] in
  let args := args ++ extra n in
  args.

(** [exec.Command(name, arg...)] of os/exec: [Args] holds the name and
    then the arguments; [Path] is the name, or, for a name without a
    directory part ([filepath.Base(name) == name]), what [exec.LookPath]
    finds when it finds something.  An error of the lookup stays in the
    command and is returned by [cmd.Start], which may fail for any reason
    here. *)
Definition exec_Command (name : string) (arg : list string) : Cmd :=
  let lp := if (filepath_Base os name =? name)%string
            then exec_LookPath os name else "" in
  {| Path := if (lp =? "")%string then name else lp;
     Args := name :: arg;
     ExtraFiles := []; Process := None |}.

(** [nodeConfig.command] *)
Definition command (n : nodeConfig) : Cmd :=
  let cmd := exec_Command (pathToDCRD n) (arguments n) in
  setOSNodeCmdOptions n cmd.

End Config.

(** [nodeConfig.String] *)
Definition String_ (n : nodeConfig) : string := prefix n.

(** ** node *)

(** [node].  The wait group [wg] is shared with the goroutines and is kept
    in [shared]; the struct's [dataDir] is [nodeDataDir] here, the name
    being taken by the configuration's field. *)
Record node : Type := {
  config : nodeConfig;
  nodeNum : N;                (* uint32 *)
  cmd : option Cmd;           (* *exec.Cmd, nil when absent *)
  stderr : option nat;        (* io.ReadCloser, nil when absent *)
  stdout : option nat;
  p2pAddr : string;
  rpcAddr : string;
  nodeDataDir : string
}.

(** [newNode]; its error result is always nil. *)
Definition newNode (config : nodeConfig) (dataDir : string) (nodeNum : N)
  : node * option error :=
  ({| config := config; nodeNum := nodeNum; cmd := None; stderr := None;
      stdout := None; p2pAddr := ""; rpcAddr := ""; nodeDataDir := dataDir |},
   None).

Definition set_stderr (n : node) (rc : option nat) : node :=
  {| config := config n; nodeNum := nodeNum n; cmd := cmd n; stderr := rc;
     stdout := stdout n; p2pAddr := p2pAddr n; rpcAddr := rpcAddr n;
     nodeDataDir := nodeDataDir n |}.

Definition set_stdout (n : node) (rc : option nat) : node :=
  {| config := config n; nodeNum := nodeNum n; cmd := cmd n; stderr := stderr n;
     stdout := rc; p2pAddr := p2pAddr n; rpcAddr := rpcAddr n;
     nodeDataDir := nodeDataDir n |}.

Definition set_cmd (n : node) (c : option Cmd) : node :=
  {| config := config n; nodeNum := nodeNum n; cmd := c; stderr := stderr n;
     stdout := stdout n; p2pAddr := p2pAddr n; rpcAddr := rpcAddr n;
     nodeDataDir := nodeDataDir n |}.

Definition set_p2pAddr (n : node) (a : string) : node :=
  {| config := config n; nodeNum := nodeNum n; cmd := cmd n; stderr := stderr n;
     stdout := stdout n; p2pAddr := a; rpcAddr := rpcAddr n;
     nodeDataDir := nodeDataDir n |}.

Definition set_rpcAddr (n : node) (a : string) : node :=
  {| config := config n; nodeNum := nodeNum n; cmd := cmd n; stderr := stderr n;
     stdout := stdout n; p2pAddr := p2pAddr n; rpcAddr := a;
     nodeDataDir := nodeDataDir n |}.

(** [cmd.Process] after a successful [cmd.Start]. *)
Definition started (c : Cmd) (pid : nat) : Cmd :=
  {| Path := Path c; Args := Args c; ExtraFiles := ExtraFiles c;
     Process := Some pid |}.

(** ** Logging *)

Inductive logLevel : Type := Trace | Debug.

Inductive logArg : Type :=
| ArgErr (e : option error)
| ArgStr (s : string)
| ArgCmd (c : option Cmd).

(** One call of the logger: the level, the format string as in the source
    and its operands. *)
Record logLine : Type := { level : logLevel; format : string; operands : list logArg }.

(** [fmt.Sprintf("%03d", k)] *)
Definition fmt_03d (k : N) : string :=
  let s := NilZero.string_of_uint (N.to_uint k) in
  (string_of_list_ascii (repeat "0"%char (3 - String.length s)) ++ s)%string.

(** The line [n.logf(format, args...)] hands to [log.Debugf]. *)
Definition logf_line (num : N) (format : string) (args : list logArg) : logLine :=
  {| level := Debug; format := (fmt_03d num ++ " " ++ format)%string;
     operands := args |}.

(** ** The main goroutine's operations *)

Inductive task : Type := TStderr | TStdout | TIpc.
Inductive pipeId : Type := PipeTX | PipeRX.
Inductive signal : Type := Kill | Interrupt.          (* os.Kill, os.Interrupt *)
Inductive branch : Type := CtxDone | GotSubsysAddrs.  (* the select of start *)
Inductive addrVar : Type := VarP2P | VarRPC.          (* start's p2pAddr, rpcAddr *)

(** A program of the goroutine that calls [start] and [stop]: a tree whose
    nodes are the calls that reach outside the goroutine, each with a
    continuation on what the call hands back.
    - [Go TStderr] and [Go TStdout] are [n.wg.Add(1)] followed by the [go]
      statement of the stream reader; [Go TIpc] is the [go] statement of
      the IPC reader (which is not added to the wait group);
    - [Select] is the [select] at the end of [start];
    - [ReadVar] reads one of the variables [p2pAddr] and [rpcAddr] that
      [start] shares with the IPC goroutine. *)
Inductive proc (A : Type) : Type :=
| Ret (a : A)
| Log (l : logLine) (k : proc A)
| StderrPipe (k : option nat * option error -> proc A)
| StdoutPipe (k : option nat * option error -> proc A)
| Go (t : task) (k : proc A)
| CmdStart (k : nat + error -> proc A)
| CloseRunning (k : proc A)
| WgWait (k : proc A)
| PipeClose (p : pipeId) (k : option error -> proc A)
| Select (k : branch -> proc A)
| CtxErr (k : option error -> proc A)
| ReadVar (v : addrVar) (k : string -> proc A)
| Signal (s : signal) (pid : nat) (k : option error -> proc A)
| CmdWait (k : option error -> proc A).

Arguments Ret {A} a.
Arguments Log {A} l k.
Arguments StderrPipe {A} k.
Arguments StdoutPipe {A} k.
Arguments Go {A} t k.
Arguments CmdStart {A} k.
Arguments CloseRunning {A} k.
Arguments WgWait {A} k.
Arguments PipeClose {A} p k.
Arguments Select {A} k.
Arguments CtxErr {A} k.
Arguments ReadVar {A} v k.
Arguments Signal {A} s pid k.
Arguments CmdWait {A} k.

Fixpoint bind {A B : Type} (p : proc A) (f : A -> proc B) : proc B :=
  match p with
  | Ret a => f a
  | Log l k => Log l (bind k f)
  | StderrPipe k => StderrPipe (fun x => bind (k x) f)
  | StdoutPipe k => StdoutPipe (fun x => bind (k x) f)
  | Go t k => Go t (bind k f)
  | CmdStart k => CmdStart (fun x => bind (k x) f)
  | CloseRunning k => CloseRunning (bind k f)
  | WgWait k => WgWait (bind k f)
  | PipeClose p k => PipeClose p (fun x => bind (k x) f)
  | Select k => Select (fun x => bind (k x) f)
  | CtxErr k => CtxErr (fun x => bind (k x) f)
  | ReadVar v k => ReadVar v (fun x => bind (k x) f)
  | Signal s pid k => Signal s pid (fun x => bind (k x) f)
  | CmdWait k => CmdWait (fun x => bind (k x) f)
  end.

Declare Scope proc_scope.
Delimit Scope proc_scope with proc.
Notation "x <- m ;; k" := (bind m (fun x => k))
  (at level 61, m at next level, right associativity) : proc_scope.
Notation "' pat <- m ;; k" := (bind m (fun x => match x with pat => k end))
  (at level 61, pat pattern, m at next level, right associativity) : proc_scope.
Notation "m ;; k" := (bind m (fun _ => k))
  (at level 61, right associativity) : proc_scope.

Definition skip : proc unit := Ret tt.
Definition tracef (format : string) (args : list logArg) : proc unit :=
  Log {| level := Trace; format := format; operands := args |} skip.
Definition debugf (format : string) (args : list logArg) : proc unit :=
  Log {| level := Debug; format := format; operands := args |} skip.
Definition logf (n : node) (format : string) (args : list logArg) : proc unit :=
  Log (logf_line (nodeNum n) format args) skip.
Definition stderrPipe : proc (option nat * option error) := StderrPipe Ret.
Definition stdoutPipe : proc (option nat * option error) := StdoutPipe Ret.
Definition go (t : task) : proc unit := Go t skip.
Definition cmdStart : proc (nat + error) := CmdStart Ret.
Definition closeRunning : proc unit := CloseRunning skip.
Definition wgWait : proc unit := WgWait skip.
Definition pipeClose (p : pipeId) : proc (option error) := PipeClose p Ret.
Definition select : proc branch := Select Ret.
Definition ctxErr : proc (option error) := CtxErr Ret.
Definition readVar (v : addrVar) : proc string := ReadVar v Ret.
Definition processSignal (pid : nat) (s : signal) : proc (option error) := Signal s pid Ret.
Definition cmdWait : proc (option error) := CmdWait Ret.

(** ** start, stop, shutdown *)

Definition is_nil {A : Type} (x : option A) : bool :=
  match x with
  | None => true
  | Some _ => false
  end.

Section Supervisor.

Context (os : platform).

Open Scope proc_scope.

(** [node.stop].  The deferred [log.Tracef("stop done")] runs after the
    body, whichever [return] ends it. *)
Definition stop (n : node) : proc (node * option error) :=
  tracef "stop %p" [ArgCmd (cmd n)] ;;
  res <- match cmd n with
         | None => Ret (n, None)
         | Some c =>
           match Process c with
           | None => Ret (n, None)
           | Some pid =>
             (* Attempt a graceful dcrd shutdown by closing the pipeRX files. *)
             err <- pipeClose PipeRX ;;
             match err with
             | Some _ =>
               logf n "Unable to close piperx ends: %v" [ArgErr err] ;;
               tracef "stop send kill" [] ;;
               err <- (if GOOS os =? "windows"
                       then processSignal pid Kill
                       else processSignal pid Interrupt) ;;
               if is_nil err then skip
               else debugf "stop Signal error: %v" [ArgErr err]
             | None => skip
             end ;;
             (* Wait for pipes. *)
             tracef "stop wg" [] ;;
             wgWait ;;
             (* Wait for command to exit. *)
             tracef "stop cmd.Wait" [] ;;
             err <- cmdWait ;;
             (if is_nil err then skip
              else debugf "stop cmd.Wait error: %v" [ArgErr err]) ;;
             (* Close the IPC pipes. *)
             err <- pipeClose PipeTX ;;
             (if is_nil err then skip
              else logf n "Unable to close pipe TX: %v" [ArgErr err]) ;;
             (* Mark command terminated. *)
             Ret (set_cmd n None, None)
           end
         end ;;
  tracef "stop done" [] ;;
  Ret res.

(** [node.shutdown] *)
Definition shutdown (n : node) : proc (node * option error) :=
  tracef "shutdown" [] ;;
  res <- ('(n, err) <- stop n ;;
          if is_nil err then Ret (n, None)
          else debugf "shutdown stop error: %v" [ArgErr err] ;; Ret (n, err)) ;;
  tracef "shutdown done" [] ;;
  Ret res.

(** [node.start].  The channels [running] and [gotSubsysAddrs] and the
    variables [p2pAddr], [rpcAddr] made by the call live in [shared]; the
    bodies of the three goroutines are [stream_step] and [ipc_step]. *)
Definition start (n : node) : proc (node * option error) :=
  let c := command os (config n) in
  (* Redirect stderr. *)
  '(rc, err) <- stderrPipe ;;
  let n := set_stderr n rc in
  if negb (is_nil err) then Ret (n, err) else
  go TStderr ;;
  (* Redirect stdout. *)
  '(rc, err) <- stdoutPipe ;;
  let n := set_stdout n rc in
  if negb (is_nil err) then Ret (n, err) else
  go TStdout ;;
  (* Read the subsystem addresses. *)
  go TIpc ;;
  (* Launch command and signal that it is running. *)
  res <- cmdStart ;;
  closeRunning ;;
  match res with
  | inr e =>
    (* When failing to execute, wait until running goroutines are closed. *)
    wgWait ;;
    pipeClose PipeTX ;;
    pipeClose PipeRX ;;
    Ret (n, Some (Errorf_w_v errDcrdCmdExec e))
  | inl pid =>
    let err : option error := None in
    let n := set_cmd n (Some (started c pid)) in
    (* Read the RPC and P2P addresses. *)
    b <- select ;;
    match b with
    | CtxDone =>
      '(n, closeErr) <- stop n ;;  (* Cleanup what has been done so far. *)
      (if negb (is_nil closeErr) && negb (errors_Is err contextCanceled)
       then logf n "Error sttoping after context was canceled: %v" [ArgErr err]
       else skip) ;;
      ce <- ctxErr ;;
      Ret (n, Some (Errorf_v "context done while waiting for addrs: " ce))
    | GotSubsysAddrs =>
      p <- readVar VarP2P ;;
      let n := set_p2pAddr n p in
      r <- readVar VarRPC ;;
      let n := set_rpcAddr n r in
      Ret (n, None)
    end
  end.

End Supervisor.

(** ** Paths of a program *)

(** What a call handed back. *)
Inductive answer : Type :=
| AUnit
| APipe (rc : option nat) (err : option error)
| AStart (res : nat + error)
| AErr (err : option error)
| ASel (b : branch)
| AStr (s : string).

(** A call together with what it handed back. *)
Inductive event : Type :=
| EvLog (l : logLine)
| EvStderrPipe (rc : option nat) (err : option error)
| EvStdoutPipe (rc : option nat) (err : option error)
| EvGo (t : task)
| EvCmdStart (res : nat + error)
| EvCloseRunning
| EvWgWait
| EvPipeClose (p : pipeId) (err : option error)
| EvSelect (b : branch)
| EvCtxErr (err : option error)
| EvReadVar (v : addrVar) (s : string)
| EvSignal (s : signal) (pid : nat) (err : option error)
| EvCmdWait (err : option error).

(** One call of the program [p], answered by [a]. *)
Definition proc_step {A : Type} (p : proc A) (a : answer) : option (event * proc A) :=
  match p, a with
  | Log l k, AUnit => Some (EvLog l, k)
  | StderrPipe k, APipe rc err => Some (EvStderrPipe rc err, k (rc, err))
  | StdoutPipe k, APipe rc err => Some (EvStdoutPipe rc err, k (rc, err))
  | Go t k, AUnit => Some (EvGo t, k)
  | CmdStart k, AStart res => Some (EvCmdStart res, k res)
  | CloseRunning k, AUnit => Some (EvCloseRunning, k)
  | WgWait k, AUnit => Some (EvWgWait, k)
  | PipeClose p k, AErr err => Some (EvPipeClose p err, k err)
  | Select k, ASel b => Some (EvSelect b, k b)
  | CtxErr k, AErr err => Some (EvCtxErr err, k err)
  | ReadVar v k, AStr s => Some (EvReadVar v s, k s)
  | Signal s pid k, AErr err => Some (EvSignal s pid err, k err)
  | CmdWait k, AErr err => Some (EvCmdWait err, k err)
  | _, _ => None
  end.

(** The calls made along a list of answers, and what is left to run. *)
Fixpoint runs {A : Type} (p : proc A) (ans : list answer) : option (list event * proc A) :=
  match ans with
  | [] => Some ([], p)
  | a :: ans =>
    match proc_step p a with
    | None => None
    | Some (ev, p') =>
      match runs p' ans with
      | None => None
      | Some (evs, q) => Some (ev :: evs, q)
      end
    end
  end.

(** What the world outside the goroutine answers during one call of
    [start], [stop] or [shutdown]. *)
Record env : Type := {
  env_stderrPipe : option nat * option error;
  env_stdoutPipe : option nat * option error;
  env_cmdStart : nat + error;
  env_pipeClose : pipeId -> option error;
  env_select : branch;
  env_ctxErr : option error;
  env_var : addrVar -> string;
  env_signal : option error;
  env_cmdWait : option error
}.

(** A program run to its end against an environment: every program
    returns, provided each of its calls does. *)
Fixpoint exec {A : Type} (e : env) (p : proc A) : list event * A :=
  match p with
  | Ret a => ([], a)
  | Log l k => let '(evs, a) := exec e k in (EvLog l :: evs, a)
  | StderrPipe k =>
    let x := env_stderrPipe e in
    let '(evs, a) := exec e (k x) in (EvStderrPipe (fst x) (snd x) :: evs, a)
  | StdoutPipe k =>
    let x := env_stdoutPipe e in
    let '(evs, a) := exec e (k x) in (EvStdoutPipe (fst x) (snd x) :: evs, a)
  | Go t k => let '(evs, a) := exec e k in (EvGo t :: evs, a)
  | CmdStart k =>
    let x := env_cmdStart e in
    let '(evs, a) := exec e (k x) in (EvCmdStart x :: evs, a)
  | CloseRunning k => let '(evs, a) := exec e k in (EvCloseRunning :: evs, a)
  | WgWait k => let '(evs, a) := exec e k in (EvWgWait :: evs, a)
  | PipeClose p k =>
    let x := env_pipeClose e p in
    let '(evs, a) := exec e (k x) in (EvPipeClose p x :: evs, a)
  | Select k =>
    let x := env_select e in
    let '(evs, a) := exec e (k x) in (EvSelect x :: evs, a)
  | CtxErr k =>
    let x := env_ctxErr e in
    let '(evs, a) := exec e (k x) in (EvCtxErr x :: evs, a)
  | ReadVar v k =>
    let x := env_var e v in
    let '(evs, a) := exec e (k x) in (EvReadVar v x :: evs, a)
  | Signal s pid k =>
    let x := env_signal e in
    let '(evs, a) := exec e (k x) in (EvSignal s pid x :: evs, a)
  | CmdWait k =>
    let x := env_cmdWait e in
    let '(evs, a) := exec e (k x) in (EvCmdWait x :: evs, a)
  end.


(** ** The goroutines of start and the state they share *)

(** Where a stream reader is: at its [select], in its read loop, or
    returned. *)
Inductive streamPc : Type := StSelect | StReading | StDone.

(** Where the IPC reader is: not yet run, in the loop that reads the
    subsystem addresses, in the drain loop, or returned. *)
Inductive ipcPc : Type := IpcBegin | IpcReadAddrs | IpcDrain | IpcDone.

(** Modelled from the spec: [nextIPCMessage] and the event types are in a
    file that is not among the sources.  It "reads one framed message and
    decodes it into one of the known event tags", or fails; the two tags
    the supervisor looks at carry an address string. *)
Inductive ipcMessage : Type :=
| boundP2PListenAddrEvent (addr : string)
| boundRPCListenAddrEvent (addr : string)
| otherIPCMessage.

(** The state shared by the goroutines of one call of [start]:
    - [nodeNo]: n.nodeNum, for the log lines;
    - [wg]: n.wg, the counter of the wait group;
    - [wgOther]: the part of the counter held by goroutines of earlier calls;
    - [running]: the channel running is closed;
    - [gotSubsysAddrs]: the channel gotSubsysAddrs is closed;
    - [ctxDone]: ctx.Err(): nil until ctx is done;
    - [txOpen]: n.config.pipeTX has not been closed;
    - [rxOpen]: n.config.pipeRX has not been closed;
    - [varP2P]: start's variable p2pAddr;
    - [varRPC]: start's variable rpcAddr;
    - [tStderr]: the stderr reader, once spawned;
    - [tStdout]: the stdout reader, once spawned;
    - [tIpc]: the IPC reader, once spawned;
    - [logged]: lines logged, newest first;
    - [ipcReads]: pipes nextIPCMessage was called on, newest first. *)
Record shared : Type := {
  nodeNo : N;
  wg : nat;
  wgOther : nat;
  running : bool;
  gotSubsysAddrs : bool;
  ctxDone : option error;
  txOpen : bool;
  rxOpen : bool;
  varP2P : string;
  varRPC : string;
  tStderr : option streamPc;
  tStdout : option streamPc;
  tIpc : option ipcPc;
  logged : list logLine;
  ipcReads : list pipeId
}.

Definition set_wg (s : shared) (x : nat) : shared :=
  {| nodeNo := nodeNo s; wg := x; wgOther := wgOther s; running := running s;
     gotSubsysAddrs := gotSubsysAddrs s; ctxDone := ctxDone s;
     txOpen := txOpen s; rxOpen := rxOpen s; varP2P := varP2P s;
     varRPC := varRPC s; tStderr := tStderr s; tStdout := tStdout s;
     tIpc := tIpc s; logged := logged s; ipcReads := ipcReads s |}.

Definition set_wgOther (s : shared) (x : nat) : shared :=
  {| nodeNo := nodeNo s; wg := wg s; wgOther := x; running := running s;
     gotSubsysAddrs := gotSubsysAddrs s; ctxDone := ctxDone s;
     txOpen := txOpen s; rxOpen := rxOpen s; varP2P := varP2P s;
     varRPC := varRPC s; tStderr := tStderr s; tStdout := tStdout s;
     tIpc := tIpc s; logged := logged s; ipcReads := ipcReads s |}.

Definition set_running (s : shared) (x : bool) : shared :=
  {| nodeNo := nodeNo s; wg := wg s; wgOther := wgOther s; running := x;
     gotSubsysAddrs := gotSubsysAddrs s; ctxDone := ctxDone s;
     txOpen := txOpen s; rxOpen := rxOpen s; varP2P := varP2P s;
     varRPC := varRPC s; tStderr := tStderr s; tStdout := tStdout s;
     tIpc := tIpc s; logged := logged s; ipcReads := ipcReads s |}.

Definition set_gotSubsysAddrs (s : shared) (x : bool) : shared :=
  {| nodeNo := nodeNo s; wg := wg s; wgOther := wgOther s; running := running s;
     gotSubsysAddrs := x; ctxDone := ctxDone s; txOpen := txOpen s;
     rxOpen := rxOpen s; varP2P := varP2P s; varRPC := varRPC s;
     tStderr := tStderr s; tStdout := tStdout s; tIpc := tIpc s;
     logged := logged s; ipcReads := ipcReads s |}.

Definition set_ctxDone (s : shared) (x : option error) : shared :=
  {| nodeNo := nodeNo s; wg := wg s; wgOther := wgOther s; running := running s;
     gotSubsysAddrs := gotSubsysAddrs s; ctxDone := x; txOpen := txOpen s;
     rxOpen := rxOpen s; varP2P := varP2P s; varRPC := varRPC s;
     tStderr := tStderr s; tStdout := tStdout s; tIpc := tIpc s;
     logged := logged s; ipcReads := ipcReads s |}.

Definition set_txOpen (s : shared) (x : bool) : shared :=
  {| nodeNo := nodeNo s; wg := wg s; wgOther := wgOther s; running := running s;
     gotSubsysAddrs := gotSubsysAddrs s; ctxDone := ctxDone s; txOpen := x;
     rxOpen := rxOpen s; varP2P := varP2P s; varRPC := varRPC s;
     tStderr := tStderr s; tStdout := tStdout s; tIpc := tIpc s;
     logged := logged s; ipcReads := ipcReads s |}.

Definition set_rxOpen (s : shared) (x : bool) : shared :=
  {| nodeNo := nodeNo s; wg := wg s; wgOther := wgOther s; running := running s;
     gotSubsysAddrs := gotSubsysAddrs s; ctxDone := ctxDone s;
     txOpen := txOpen s; rxOpen := x; varP2P := varP2P s;
     varRPC := varRPC s; tStderr := tStderr s; tStdout := tStdout s;
     tIpc := tIpc s; logged := logged s; ipcReads := ipcReads s |}.

Definition set_varP2P (s : shared) (x : string) : shared :=
  {| nodeNo := nodeNo s; wg := wg s; wgOther := wgOther s; running := running s;
     gotSubsysAddrs := gotSubsysAddrs s; ctxDone := ctxDone s;
     txOpen := txOpen s; rxOpen := rxOpen s; varP2P := x;
     varRPC := varRPC s; tStderr := tStderr s; tStdout := tStdout s;
     tIpc := tIpc s; logged := logged s; ipcReads := ipcReads s |}.

Definition set_varRPC (s : shared) (x : string) : shared :=
  {| nodeNo := nodeNo s; wg := wg s; wgOther := wgOther s; running := running s;
     gotSubsysAddrs := gotSubsysAddrs s; ctxDone := ctxDone s;
     txOpen := txOpen s; rxOpen := rxOpen s; varP2P := varP2P s;
     varRPC := x; tStderr := tStderr s; tStdout := tStdout s;
     tIpc := tIpc s; logged := logged s; ipcReads := ipcReads s |}.

Definition set_tStderr (s : shared) (x : option streamPc) : shared :=
  {| nodeNo := nodeNo s; wg := wg s; wgOther := wgOther s; running := running s;
     gotSubsysAddrs := gotSubsysAddrs s; ctxDone := ctxDone s;
     txOpen := txOpen s; rxOpen := rxOpen s; varP2P := varP2P s;
     varRPC := varRPC s; tStderr := x; tStdout := tStdout s; tIpc := tIpc s;
     logged := logged s; ipcReads := ipcReads s |}.

Definition set_tStdout (s : shared) (x : option streamPc) : shared :=
  {| nodeNo := nodeNo s; wg := wg s; wgOther := wgOther s; running := running s;
     gotSubsysAddrs := gotSubsysAddrs s; ctxDone := ctxDone s;
     txOpen := txOpen s; rxOpen := rxOpen s; varP2P := varP2P s;
     varRPC := varRPC s; tStderr := tStderr s; tStdout := x; tIpc := tIpc s;
     logged := logged s; ipcReads := ipcReads s |}.

Definition set_tIpc (s : shared) (x : option ipcPc) : shared :=
  {| nodeNo := nodeNo s; wg := wg s; wgOther := wgOther s; running := running s;
     gotSubsysAddrs := gotSubsysAddrs s; ctxDone := ctxDone s;
     txOpen := txOpen s; rxOpen := rxOpen s; varP2P := varP2P s;
     varRPC := varRPC s; tStderr := tStderr s; tStdout := tStdout s;
     tIpc := x; logged := logged s; ipcReads := ipcReads s |}.

Definition set_logged (s : shared) (x : list logLine) : shared :=
  {| nodeNo := nodeNo s; wg := wg s; wgOther := wgOther s; running := running s;
     gotSubsysAddrs := gotSubsysAddrs s; ctxDone := ctxDone s;
     txOpen := txOpen s; rxOpen := rxOpen s; varP2P := varP2P s;
     varRPC := varRPC s; tStderr := tStderr s; tStdout := tStdout s;
     tIpc := tIpc s; logged := x; ipcReads := ipcReads s |}.

Definition set_ipcReads (s : shared) (x : list pipeId) : shared :=
  {| nodeNo := nodeNo s; wg := wg s; wgOther := wgOther s; running := running s;
     gotSubsysAddrs := gotSubsysAddrs s; ctxDone := ctxDone s;
     txOpen := txOpen s; rxOpen := rxOpen s; varP2P := varP2P s;
     varRPC := varRPC s; tStderr := tStderr s; tStdout := tStdout s;
     tIpc := tIpc s; logged := logged s; ipcReads := x |}.

Definition pipeOpen (s : shared) (p : pipeId) : bool :=
  match p with
  | PipeTX => txOpen s
  | PipeRX => rxOpen s
  end.

Definition var (s : shared) (v : addrVar) : string :=
  match v with
  | VarP2P => varP2P s
  | VarRPC => varRPC s
  end.

(** [n.logf(format, args...)] from any goroutine. *)
Definition slogf (s : shared) (format : string) (args : list logArg) : shared :=
  set_logged s (logf_line (nodeNo s) format args :: logged s).

(** [n.wg.Add(1)] and [n.wg.Done()]. *)
Definition wgAdd (s : shared) : shared := set_wg s (S (wg s)).
Definition wgDone (s : shared) : shared := set_wg s (pred (wg s)).

(** What a stream reader meets when it runs: the case of its [select]
    that fires, or the result of [r.ReadBytes('\n')]. *)
Inductive streamAnswer : Type :=
| SelRunning
| SelCtxDone
| ReadBytes (line : string) (err : option error).

(** One step of the goroutine that reads the child's stderr ([name] is
    "stderr") or stdout ("stdout"); the two bodies differ in nothing else.
    The deferred [n.wg.Done()] runs with the step that returns. *)
Definition stream_step (name : string) (s : shared) (pc : streamPc) (a : streamAnswer)
  : option (shared * streamPc) :=
  match pc, a with
  | StSelect, SelRunning =>
    if running s
    then Some (slogf s ("Reading " ++ name)%string [], StReading)
    else None
  | StSelect, SelCtxDone =>
    if is_nil (ctxDone s) then None else Some (wgDone s, StDone)
  | StReading, ReadBytes line err =>
    if errors_Is err ioEOF then
      Some (wgDone (slogf s (name ++ ": EOF")%string []), StDone)
    else if negb (is_nil err) then
      Some (wgDone (slogf s (name ++ ": Unable to read " ++ name ++ ": %v")%string
                          [ArgErr err]), StDone)
    else
      Some (slogf s (name ++ ": %s")%string [ArgStr line], StReading)
  | _, _ => None
  end.

(** What the IPC reader meets when it runs: its first statement, or the
    result of [nextIPCMessage] on the read end of a pipe pair. *)
Inductive ipcAnswer : Type :=
| IpcRun
| NextIPCMessage (p : pipeId) (res : ipcMessage + error).

(** A message can be read only from a pair that has not been closed; a
    read may fail at any time. *)
Definition readable (s : shared) (p : pipeId) (res : ipcMessage + error) : bool :=
  match res with
  | inl _ => pipeOpen s p
  | inr _ => true
  end.

Definition noteRead (s : shared) (p : pipeId) : shared :=
  set_ipcReads s (p :: ipcReads s).

(** One step of the goroutine that reads the subsystem addresses: the
    first loop calls [nextIPCMessage(n.config.pipeTX.r)], the drain loop
    [nextIPCMessage(n.config.pipeRX.r)].  Closing a closed channel panics:
    there is no step. *)
Definition ipc_step (s : shared) (pc : ipcPc) (a : ipcAnswer) : option (shared * ipcPc) :=
  match pc, a with
  | IpcBegin, IpcRun => Some (slogf s "Reading IPC messages." [], IpcReadAddrs)
  | IpcReadAddrs, NextIPCMessage PipeTX res =>
    if readable s PipeTX res then
      let s := noteRead s PipeTX in
      match res with
      | inr e =>
        Some (slogf s "Unable to read next IPC message: %v" [ArgErr (Some e)], IpcDone)
      | inl msg =>
        let s := match msg with
                 | boundP2PListenAddrEvent a =>
                   slogf (set_varP2P s a) "P2P listen addr: %s" [ArgStr a]
                 | boundRPCListenAddrEvent a =>
                   slogf (set_varRPC s a) "RPC listen addr: %s" [ArgStr a]
                 | otherIPCMessage => s
                 end in
        if negb (varP2P s =? "") && negb (varRPC s =? "") then
          if gotSubsysAddrs s then None
          else Some (set_gotSubsysAddrs s true, IpcDrain)
        else Some (s, IpcReadAddrs)
      end
    else None
  | IpcDrain, NextIPCMessage PipeRX res =>
    if readable s PipeRX res then
      let s := noteRead s PipeRX in
      match res with
      | inl _ => Some (s, IpcDrain)
      | inr _ => Some (slogf s "IPC messages drained" [], IpcDone)
      end
    else None
  | _, _ => None
  end.

(** ** The interleaving semantics *)

(** Modelled from the spec: [ipcPipePair.close] is not among the sources
    ("close() -> error, safe to call even if already closed").  After the
    call the pair counts as closed, whatever the call returned. *)
Definition closePipe (s : shared) (p : pipeId) : shared :=
  match p with
  | PipeTX => set_txOpen s false
  | PipeRX => set_rxOpen s false
  end.

Definition option_error_eqb (a b : option error) : bool :=
  match a, b with
  | None, None => true
  | Some x, Some y => if error_eq_dec x y then true else false
  | _, _ => false
  end.

(** The effect on the shared state of a call of the main goroutine, when
    the call can return what the event says:
    - [wg.Wait] returns only when the counter is zero;
    - the [select] takes a case only when its channel is closed;
    - [ctx.Err()] and the reads of [p2pAddr], [rpcAddr] return what the
      state holds;
    - a goroutine is spawned once; the stream readers are added to the
      wait group, the IPC reader is not;
    - closing a closed channel panics: there is no step. *)
Definition on_event (s : shared) (ev : event) : option shared :=
  match ev with
  | EvLog l => Some (set_logged s (l :: logged s))
  | EvStderrPipe _ _ => Some s
  | EvStdoutPipe _ _ => Some s
  | EvGo TStderr =>
    if is_nil (tStderr s) then Some (set_tStderr (wgAdd s) (Some StSelect)) else None
  | EvGo TStdout =>
    if is_nil (tStdout s) then Some (set_tStdout (wgAdd s) (Some StSelect)) else None
  | EvGo TIpc =>
    if is_nil (tIpc s) then Some (set_tIpc s (Some IpcBegin)) else None
  | EvCmdStart _ => Some s
  | EvCloseRunning => if running s then None else Some (set_running s true)
  | EvWgWait => if Nat.eqb (wg s) 0 then Some s else None
  | EvPipeClose p _ => Some (closePipe s p)
  | EvSelect CtxDone => if is_nil (ctxDone s) then None else Some s
  | EvSelect GotSubsysAddrs => if gotSubsysAddrs s then Some s else None
  | EvCtxErr err => if option_error_eqb err (ctxDone s) then Some s else None
  | EvReadVar v x => if (x =? var s v)%string then Some s else None
  | EvSignal _ _ _ => Some s
  | EvCmdWait _ => Some s
  end.

(** The system: the shared state, what the main goroutine has left to run
    and the calls it has made, newest first. *)
Record sys (A : Type) : Type := { sh : shared; pmain : proc A; mtrace : list event }.

Arguments sh {A} s.
Arguments pmain {A} s.
Arguments mtrace {A} s.

(** [ctx.Err()] once [ctx] is done. *)
Definition ctx_error (deadline : bool) : error :=
  if deadline then contextDeadlineExceeded else contextCanceled.

(** Who moves next, and what the world answers. *)
Inductive label : Type :=
| LMain (a : answer)
| LStderr (a : streamAnswer)
| LStdout (a : streamAnswer)
| LIpc (a : ipcAnswer)
| LCtxDone (deadline : bool)    (* ctx is cancelled, or its deadline passes *)
| LOtherDone.                   (* a goroutine of an earlier call returns *)

Definition sys_step {A : Type} (st : sys A) (l : label) : option (sys A) :=
  match l with
  | LMain a =>
    match proc_step (pmain st) a with
    | None => None
    | Some (ev, p') =>
      match on_event (sh st) ev with
      | None => None
      | Some s' => Some {| sh := s'; pmain := p'; mtrace := ev :: mtrace st |}
      end
    end
  | LStderr a =>
    match tStderr (sh st) with
    | None => None
    | Some pc =>
      match stream_step "stderr" (sh st) pc a with
      | None => None
      | Some (s', pc') =>
        Some {| sh := set_tStderr s' (Some pc'); pmain := pmain st; mtrace := mtrace st |}
      end
    end
  | LStdout a =>
    match tStdout (sh st) with
    | None => None
    | Some pc =>
      match stream_step "stdout" (sh st) pc a with
      | None => None
      | Some (s', pc') =>
        Some {| sh := set_tStdout s' (Some pc'); pmain := pmain st; mtrace := mtrace st |}
      end
    end
  | LIpc a =>
    match tIpc (sh st) with
    | None => None
    | Some pc =>
      match ipc_step (sh st) pc a with
      | None => None
      | Some (s', pc') =>
        Some {| sh := set_tIpc s' (Some pc'); pmain := pmain st; mtrace := mtrace st |}
      end
    end
  | LCtxDone deadline =>
    if is_nil (ctxDone (sh st)) then
      Some {| sh := set_ctxDone (sh st) (Some (ctx_error deadline));
              pmain := pmain st; mtrace := mtrace st |}
    else None
  | LOtherDone =>
    match wgOther (sh st) with
    | O => None
    | S k =>
      Some {| sh := set_wgOther (wgDone (sh st)) k;
              pmain := pmain st; mtrace := mtrace st |}
    end
  end.

(** A schedule run from a state; [None] when one of its steps cannot be
    taken. *)
Fixpoint run {A : Type} (sched : list label) (st : sys A) : option (sys A) :=
  match sched with
  | [] => Some st
  | l :: sched =>
    match sys_step st l with
    | None => None
    | Some st' => run sched st'
    end
  end.

(** The shared state when [start] is entered: the channels it makes are
    open, its variables empty, no goroutine of its own yet.  The wait
    group (whose counter is held by goroutines of earlier calls, if any),
    the pipe pairs and the context are as the caller hands them over. *)
Definition entry (num : N) (wg0 : nat) (tx rx : bool) (ctx : option bool) : shared :=
  {| nodeNo := num; wg := wg0; wgOther := wg0; running := false; gotSubsysAddrs := false;
     ctxDone := option_map ctx_error ctx; txOpen := tx; rxOpen := rx; varP2P := ""; varRPC := "";
     tStderr := None; tStdout := None; tIpc := None; logged := [];
     ipcReads := [] |}.

Definition boot {A : Type} (s : shared) (p : proc A) : sys A :=
  {| sh := s; pmain := p; mtrace := [] |}.

(** A goroutine that has been spawned and has not returned. *)
Definition streamLive (t : option streamPc) : bool :=
  match t with
  | Some StSelect | Some StReading => true
  | _ => false
  end.

Definition ipcLive (t : option ipcPc) : bool :=
  match t with
  | Some IpcBegin | Some IpcReadAddrs | Some IpcDrain => true
  | _ => false
  end.

(** ** Sample data *)

Definition cfg0 : nodeConfig :=
  {| rpcUser := "user"; rpcPass := "pass"; listen := "127.0.0.1:0";
     rpcListen := "127.0.0.1:0"; rpcConnect := ""; dataDir := "/tmp/n/data";
     logDir := "/tmp/n/logs"; profile := ""; debugLevel := "";
     extra := ["--simnet"]; prefix := "/tmp/n"; pathToDCRD := "/tmp/dcrd";
     endpoint := "ws"; certFile := "/tmp/n/rpc.cert"; keyFile := "/tmp/n/rpc.key";
     certificates := ""; pipeTX := {| r := 3; w := 4 |};
     pipeRX := {| r := 5; w := 6 |} |}.

(** The last element of a path whose separators are given by [sep], after
    [filepath.Base]: trailing separators are dropped first; "." for the
    empty path, one separator for a path of separators only. *)
Fixpoint drop_seps (sep : ascii -> bool) (l : list ascii) : list ascii :=
  match l with
  | c :: l' => if sep c then drop_seps sep l' else l
  | [] => []
  end.

Fixpoint take_elem (sep : ascii -> bool) (l : list ascii) : list ascii :=
  match l with
  | c :: l' => if sep c then [] else c :: take_elem sep l'
  | [] => []
  end.

Definition path_Base (sep : ascii -> bool) (path : string) : string :=
  match list_ascii_of_string path with
  | [] => "."
  | c :: _ as l =>
    match drop_seps sep (rev l) with
    | [] => String c ""
    | l' => string_of_list_ascii (rev (take_elem sep l'))
    end
  end.

Definition linux : platform :=
  {| GOOS := "linux";
     osNodeArgs := fun n => ["--pipetx=4"; "--piperx=5"];
     osExtraFiles := fun n => [4; 5];
     filepath_Base := path_Base (fun c => Ascii.eqb c "/");
     exec_LookPath := fun name => if name =? "dcrd" then "/usr/local/bin/dcrd" else "" |}.

(** Both "/" and the backslash (character 92) separate; volume names are
    left aside, the sample paths have none. *)
Definition windows : platform :=
  {| GOOS := "windows";
     osNodeArgs := fun n => ["--pipetx=4"; "--piperx=5"];
     osExtraFiles := fun n => [];
     filepath_Base :=
       path_Base (fun c => Ascii.eqb c "/" || Ascii.eqb c (ascii_of_nat 92));
     exec_LookPath := fun name => if name =? "dcrd" then "C:/dcrd/dcrd.exe" else "" |}.

Definition node0 : node := fst (newNode cfg0 "/tmp/n" 7).

(** ** Reasoning about every path of a program *)

(** [wp p Q]: on every path of [p], whatever the calls hand back, the
    calls made and the value returned satisfy [Q]. *)
Fixpoint wp {A : Type} (p : proc A) (Q : list event -> A -> Prop) : Prop :=
  match p with
  | Ret a => Q [] a
  | Log l k => wp k (fun evs => Q (EvLog l :: evs))
  | StderrPipe k => forall rc err, wp (k (rc, err)) (fun evs => Q (EvStderrPipe rc err :: evs))
  | StdoutPipe k => forall rc err, wp (k (rc, err)) (fun evs => Q (EvStdoutPipe rc err :: evs))
  | Go t k => wp k (fun evs => Q (EvGo t :: evs))
  | CmdStart k => forall res, wp (k res) (fun evs => Q (EvCmdStart res :: evs))
  | CloseRunning k => wp k (fun evs => Q (EvCloseRunning :: evs))
  | WgWait k => wp k (fun evs => Q (EvWgWait :: evs))
  | PipeClose p k => forall err, wp (k err) (fun evs => Q (EvPipeClose p err :: evs))
  | Select k => forall b, wp (k b) (fun evs => Q (EvSelect b :: evs))
  | CtxErr k => forall err, wp (k err) (fun evs => Q (EvCtxErr err :: evs))
  | ReadVar v k => forall x, wp (k x) (fun evs => Q (EvReadVar v x :: evs))
  | Signal s pid k => forall err, wp (k err) (fun evs => Q (EvSignal s pid err :: evs))
  | CmdWait k => forall err, wp (k err) (fun evs => Q (EvCmdWait err :: evs))
  end.

(** ** genCertPair *)

Definition bytes : Type := list Byte.byte.

(** A regular file: its contents and its permission bits. *)
Record file : Type := { contents : bytes; mode : N }.

(** The file system, by path. *)
Definition fs : Type := string -> option file.

Definition fs_put (f : fs) (name : string) (x : file) : fs :=
  fun q => if (q =? name)%string then Some x else f q.

Definition fs_del (f : fs) (name : string) : fs :=
  fun q => if (q =? name)%string then None else f q.

(** The literals [0644] and [0600] of the source are octal. *)
Definition perm_0644 : N := 6 * 64 + 4 * 8 + 4.
Definition perm_0600 : N := 6 * 64.

(** The read bit of "others", and the bits of "group" and "others". *)
Definition world_readable (m : N) : bool := N.testbit m 2.
Definition owner_only (m : N) : bool := N.eqb (N.land m (7 * 8 + 7)) 0.

(** How a call of [os.WriteFile] can end: it succeeds; it fails before
    the file is opened; or it fails once the file has been opened (created
    or truncated) and [written] bytes have gone in. *)
Inductive writeOutcome : Type :=
| WriteOk
| WriteFailsOpen (e : error)
| WriteFailsPartial (written : nat) (e : error).

(** [os.WriteFile(name, data, perm)], after its documentation: the file is
    created with mode [perm] (before umask) when it does not exist, and
    truncated, its permissions unchanged, when it does. *)
Definition os_WriteFile (umask : N) (o : writeOutcome) (f : fs)
           (name : string) (data : bytes) (perm : N) : fs * option error :=
  let m := match f name with
           | Some old => mode old
           | None => N.ldiff perm umask
           end in
  match o with
  | WriteOk => (fs_put f name {| contents := data; mode := m |}, None)
  | WriteFailsOpen e => (f, Some e)
  | WriteFailsPartial k e =>
    (fs_put f name {| contents := firstn k data; mode := m |}, Some e)
  end.

(** [os.Remove(name)]: the file is gone unless the call fails. *)
Definition os_Remove (o : option error) (f : fs) (name : string) : fs * option error :=
  match o with
  | None => (fs_del f name, None)
  | Some e => (f, Some e)
  end.

Inductive curve : Type := P521.   (* elliptic.P521() *)

(** What [genCertPair] meets outside: the clock (nanoseconds),
    [certgen.NewTLSCertPair], the process's umask and how each of its
    file-system calls ends. *)
Record certEnv : Type := {
  time_Now : Z;
  NewTLSCertPair : curve -> string -> Z -> list string -> (bytes * bytes) + error;
  umask : N;
  writeCert : writeOutcome;
  writeKey : writeOutcome;
  removeCert : option error
}.

(** The file-system calls [genCertPair] makes. *)
Inductive fsCall : Type :=
| CallWriteFile (name : string) (data : bytes) (perm : N)
| CallRemove (name : string).

Definition time_Hour : Z := 3600 * 1000 * 1000 * 1000.

(** [genCertPair]: the file system it leaves, the calls it made on it and
    its result. *)
Definition genCertPair (e : certEnv) (f : fs) (certFile keyFile : string)
  : fs * list fsCall * option error :=
  let org := "dcrdtest autogenerated cert" in
  let validUntil := (time_Now e + 10 * 365 * 24 * time_Hour)%Z in
  match NewTLSCertPair e P521 org validUntil [] with
  | inr err => (f, [], Some err)
  | inl (cert, key) =>
    (* Write cert and key files. *)
    let '(f, err) := os_WriteFile (umask e) (writeCert e) f certFile cert perm_0644 in
    let calls := [CallWriteFile certFile cert perm_0644] in
    if negb (is_nil err) then (f, calls, err) else
    let '(f, err) := os_WriteFile (umask e) (writeKey e) f keyFile key perm_0600 in
    let calls := calls ++ [CallWriteFile keyFile key perm_0600] in
    if negb (is_nil err) then
      let '(f, _) := os_Remove (removeCert e) f certFile in
      (f, calls ++ [CallRemove certFile], err)
    else (f, calls, None)
  end.

(** ** What the theorems observe *)

Definition is_log (ev : event) : bool :=
  match ev with
  | EvLog _ => true
  | _ => false
  end.

(** The calls of a path other than those of the logger. *)
Definition calls (evs : list event) : list event :=
  filter (fun ev => negb (is_log ev)) evs.

(** The pid when [n.cmd != nil && n.cmd.Process != nil]. *)
Definition running_pid (n : node) : option nat :=
  match cmd n with
  | Some c => Process c
  | None => None
  end.

(** The signal [stop] escalates to. *)
Definition hard_signal (os : platform) : signal :=
  if (GOOS os =? "windows")%string then Kill else Interrupt.

Definition trace_line (format : string) (args : list logArg) : logLine :=
  {| level := Trace; format := format; operands := args |}.

Definition debug_line (format : string) (args : list logArg) : logLine :=
  {| level := Debug; format := format; operands := args |}.

(** What holds of the calls [evs] and the result [r] of [stop] on [n]. *)
Definition stop_post (os : platform) (n : node) (evs : list event)
           (r : node * option error) : Prop :=
  snd r = None /\
  match running_pid n with
  | None => calls evs = [] /\ fst r = n
  | Some pid =>
    fst r = set_cmd n None /\
    exists (e1 e2 e3 : option error) (sig : list event),
      calls evs = EvPipeClose PipeRX e1 :: sig
                    ++ [EvWgWait; EvCmdWait e2; EvPipeClose PipeTX e3] /\
      match e1 with
      | None => sig = []
      | Some _ =>
        In (EvLog (logf_line (nodeNum n) "Unable to close piperx ends: %v" [ArgErr e1])) evs /\
        exists e4, sig = [EvSignal (hard_signal os) pid e4] /\
          (e4 <> None -> In (EvLog (debug_line "stop Signal error: %v" [ArgErr e4])) evs)
      end /\
      (e2 <> None -> In (EvLog (debug_line "stop cmd.Wait error: %v" [ArgErr e2])) evs) /\
      (e3 <> None ->
       In (EvLog (logf_line (nodeNum n) "Unable to close pipe TX: %v" [ArgErr e3])) evs)
  end.

(** ** Invariants of the running system *)

Definition b2n (b : bool) : nat := if b then 1 else 0.

(** The main goroutine has returned from [wg.Wait] and has spawned no
    goroutine since. *)
Fixpoint joined (tr : list event) : bool :=
  match tr with
  | [] => false
  | EvWgWait :: _ => true
  | EvGo _ :: _ => false
  | _ :: tr => joined tr
  end.

(** What a read of shared state returned, when it came after the case of
    the [select] that makes it stable. *)
Definition ev_ok (s : shared) (ev : event) (before : list event) : Prop :=
  match ev with
  | EvReadVar v x => In (EvSelect GotSubsysAddrs) before -> x = var s v
  | EvCtxErr err => In (EvSelect CtxDone) before -> err = ctxDone s
  | _ => True
  end.

Fixpoint all_after (s : shared) (tr : list event) : Prop :=
  match tr with
  | [] => True
  | ev :: before => ev_ok s ev before /\ all_after s before
  end.

(** What holds of the shared state [s] and of the calls [tr] the main
    goroutine has made (newest first), whatever the program of the main
    goroutine and whatever the schedule. *)
Record inv (s : shared) (tr : list event) : Prop := {
  inv_wg :
    wg s = wgOther s + b2n (streamLive (tStderr s)) + b2n (streamLive (tStdout s));
  inv_join :
    joined tr = true ->
    streamLive (tStderr s) = false /\ streamLive (tStdout s) = false;
  inv_go_stderr : In (EvGo TStderr) tr -> tStderr s <> None;
  inv_go_stdout : In (EvGo TStdout) tr -> tStdout s <> None;
  inv_go_ipc : In (EvGo TIpc) tr -> tIpc s <> None;
  inv_pipe : forall p e, In (EvPipeClose p e) tr -> pipeOpen s p = false;
  inv_got :
    gotSubsysAddrs s = true ->
    varP2P s <> "" /\ varRPC s <> "" /\
    (tIpc s = Some IpcDrain \/ tIpc s = Some IpcDone);
  inv_drain : tIpc s = Some IpcDrain -> gotSubsysAddrs s = true;
  inv_sel_got : In (EvSelect GotSubsysAddrs) tr -> gotSubsysAddrs s = true;
  inv_sel_ctx : In (EvSelect CtxDone) tr -> ctxDone s <> None;
  inv_ctx : ctxDone s = None \/ exists d, ctxDone s = Some (ctx_error d);
  inv_after : all_after s tr;
  inv_reads :
    exists m k, ipcReads s = repeat PipeRX m ++ repeat PipeTX k /\
                (gotSubsysAddrs s = false -> m = 0)
}.

(** ** Every path of start *)

(** The calls of [start] up to and including [close(running)], when both
    stream pipes could be made. *)
Definition launch (rc rc' : option nat) (res : nat + error) : list event :=
  [EvStderrPipe rc None; EvGo TStderr; EvStdoutPipe rc' None; EvGo TStdout;
   EvGo TIpc; EvCmdStart res; EvCloseRunning].

(** The node [start] works on once both stream pipes are attached, and
    once the child has been launched. *)
Definition attached (n : node) (rc rc' : option nat) : node :=
  set_stdout (set_stderr n rc) rc'.

Definition launched (os : platform) (n : node) (rc rc' : option nat) (pid : nat) : node :=
  set_cmd (attached n rc rc') (Some (started (command os (config n)) pid)).

(** The five ways through [start]: the calls made and the result. *)
Inductive start_path (os : platform) (n : node) : list event -> node * option error -> Prop :=
| sp_stderr rc e :
    start_path os n [EvStderrPipe rc (Some e)] (set_stderr n rc, Some e)
| sp_stdout rc rc' e :
    start_path os n
      [EvStderrPipe rc None; EvGo TStderr; EvStdoutPipe rc' (Some e)]
      (attached n rc rc', Some e)
| sp_exec rc rc' e x y :
    start_path os n
      (launch rc rc' (inr e) ++ [EvWgWait; EvPipeClose PipeTX x; EvPipeClose PipeRX y])
      (attached n rc rc', Some (Errorf_w_v errDcrdCmdExec e))
| sp_ctx rc rc' pid sevs n2 ce :
    stop_post os (launched os n rc rc' pid) sevs (n2, None) ->
    start_path os n
      (launch rc rc' (inl pid) ++ EvSelect CtxDone :: sevs ++ [EvCtxErr ce])
      (n2, Some (Errorf_v "context done while waiting for addrs: " ce))
| sp_addrs rc rc' pid p q :
    start_path os n
      (launch rc rc' (inl pid)
         ++ [EvSelect GotSubsysAddrs; EvReadVar VarP2P p; EvReadVar VarRPC q])
      (set_rpcAddr (set_p2pAddr (launched os n rc rc' pid) p) q, None).

(** [p] can make the calls [evs] and then return [r]. *)
Definition returns {A : Type} (p : proc A) (evs : list event) (r : A) : Prop :=
  exists ans, runs p ans = Some (evs, Ret r).

(** ** More sample data *)

(** [node0] with a launched child. *)
Definition node1 : node := launched linux node0 (Some 7) (Some 8) 4242.

(** An environment in which every teardown call fails. *)
Definition env_failing : env :=
  {| env_stderrPipe := (Some 7, None);
     env_stdoutPipe := (Some 8, None);
     env_cmdStart := inl 4242;
     env_pipeClose := fun _ => Some (osError "close |1: file already closed");
     env_select := CtxDone;
     env_ctxErr := Some contextDeadlineExceeded;
     env_var := fun _ => "";
     env_signal := Some (osError "os: process already finished");
     env_cmdWait := Some (osError "exit status 1") |}.

(** An environment in which the stderr pipe cannot be made. *)
Definition env_no_pipe : env :=
  {| env_stderrPipe := (None, Some (osError "pipe: too many open files"));
     env_stdoutPipe := (Some 8, None);
     env_cmdStart := inl 4242;
     env_pipeClose := fun _ => None;
     env_select := GotSubsysAddrs;
     env_ctxErr := None;
     env_var := fun _ => "";
     env_signal := None;
     env_cmdWait := None |}.

(** The binary cannot be executed; the stream readers run and return
    before [start] does, the IPC reader is not scheduled. *)
Definition sched_exec_fail : list label :=
  [ LMain (APipe (Some 7) None); LMain AUnit;
    LMain (APipe (Some 8) None); LMain AUnit;
    LMain AUnit;
    LMain (AStart (inr (osError "fork/exec /tmp/dcrd: no such file or directory")));
    LMain AUnit;
    LStderr SelRunning;
    LStderr (ReadBytes "" (Some (osError "read |0: file already closed")));
    LStdout SelRunning;
    LStdout (ReadBytes "" (Some (osError "read |0: file already closed")));
    LMain AUnit; LMain (AErr None); LMain (AErr None) ].

(** The child is launched and reports no address; the deadline of the
    context passes; [stop] closes pipeRX, the child exits and its streams
    end. *)
Definition sched_cancel : list label :=
  [ LMain (APipe (Some 7) None); LMain AUnit;
    LMain (APipe (Some 8) None); LMain AUnit;
    LMain AUnit;
    LMain (AStart (inl 4242));
    LMain AUnit;
    LStderr SelRunning; LStdout SelRunning; LIpc IpcRun;
    LCtxDone true;
    LMain (ASel CtxDone);
    LMain AUnit; LMain (AErr None); LMain AUnit;
    LStderr (ReadBytes "" (Some ioEOF)); LStdout (ReadBytes "" (Some ioEOF));
    LMain AUnit; LMain AUnit; LMain (AErr (Some (osError "exit status 1")));
    LMain AUnit; LMain (AErr None); LMain AUnit;
    LMain (AErr (Some contextDeadlineExceeded)) ].

(** The stdout pipe cannot be made, after the stderr reader has been
    spawned. *)
Definition sched_no_stdout : list label :=
  [ LMain (APipe (Some 7) None); LMain AUnit;
    LMain (APipe None (Some (osError "pipe: too many open files"))) ].

(** The child is launched and reports both addresses. *)
Definition sched_addrs : list label :=
  [ LMain (APipe (Some 7) None); LMain AUnit;
    LMain (APipe (Some 8) None); LMain AUnit;
    LMain AUnit;
    LMain (AStart (inl 4242));
    LMain AUnit;
    LStderr SelRunning; LStdout SelRunning; LIpc IpcRun;
    LIpc (NextIPCMessage PipeTX (inl (boundP2PListenAddrEvent "127.0.0.1:19108")));
    LIpc (NextIPCMessage PipeTX (inl (boundRPCListenAddrEvent "127.0.0.1:19109")));
    LMain (ASel GotSubsysAddrs);
    LMain (AStr "127.0.0.1:19108"); LMain (AStr "127.0.0.1:19109") ].

Definition sys0 : sys (node * option error) :=
  boot (entry (nodeNum node0) 0 true true None) (start linux node0).

(** ** The discovered addresses *)

Definition is_digit (c : ascii) : bool :=
  (48 <=? nat_of_ascii c)%nat && (nat_of_ascii c <=? 57)%nat.

Fixpoint all_digits (s : string) : bool :=
  match s with
  | EmptyString => true
  | String c s' => is_digit c && all_digits s'
  end.

(** [s] reads host:port from some colon on: the host before it is not
    empty ([seen]) and a non-empty run of digits follows it to the end. *)
Fixpoint host_port_from (seen : bool) (s : string) : bool :=
  match s with
  | EmptyString => false
  | String c rest =>
    (Ascii.eqb c ":" && seen && negb (rest =? "")%string && all_digits rest)
    || host_port_from true rest
  end.

(** The form host:port. *)
Definition is_host_port (s : string) : bool := host_port_from false s.

(** The address a step hands to the IPC reader, if any. *)
Definition payload (l : label) : option string :=
  match l with
  | LIpc (NextIPCMessage _ (inl (boundP2PListenAddrEvent a))) => Some a
  | LIpc (NextIPCMessage _ (inl (boundRPCListenAddrEvent a))) => Some a
  | _ => None
  end.

(** Every address the child reports during the schedule is of the form
    host:port. *)
Definition reports_host_port (sched : list label) : Prop :=
  forall l a, In l sched -> payload l = Some a -> is_host_port a = true.

(** Both addresses are empty, or neither is. *)
Definition addrs_paired (n : node) : Prop :=
  (p2pAddr n = "" /\ rpcAddr n = "") \/ (p2pAddr n <> "" /\ rpcAddr n <> "").

(** The nodes that [newNode], [start], [stop] and [shutdown] produce, each
    call of [start] in a system of its own under any schedule. *)
Inductive lifetime (os : platform) : node -> Prop :=
| life_new config dataDir nodeNum :
    lifetime os (fst (newNode config dataDir nodeNum))
| life_start n wg0 tx rx ctx sched st n' err :
    lifetime os n ->
    run sched (boot (entry (nodeNum n) wg0 tx rx ctx) (start os n)) = Some st ->
    pmain st = Ret (n', err) ->
    lifetime os n'
| life_stop n evs n' err :
    lifetime os n -> returns (stop os n) evs (n', err) -> lifetime os n'
| life_shutdown n evs n' err :
    lifetime os n -> returns (shutdown os n) evs (n', err) -> lifetime os n'.

(** A variable of [start] is empty or holds an address of the right
    form. *)
Definition var_form (s : shared) : Prop :=
  (varP2P s = "" \/ is_host_port (varP2P s) = true) /\
  (varRPC s = "" \/ is_host_port (varRPC s) = true).

(** The child reports both addresses; [start] has not yet been scheduled
    past its [select]. *)
Definition sched_discover : list label := firstn 12 sched_addrs.

(** The child reports addresses that are not of the form host:port. *)
Definition sched_bad_addrs : list label :=
  [ LMain (APipe (Some 7) None); LMain AUnit;
    LMain (APipe (Some 8) None); LMain AUnit;
    LMain AUnit;
    LMain (AStart (inl 4242));
    LMain AUnit;
    LStderr SelRunning; LStdout SelRunning; LIpc IpcRun;
    LIpc (NextIPCMessage PipeTX (inl (boundP2PListenAddrEvent "x")));
    LIpc (NextIPCMessage PipeTX (inl (boundRPCListenAddrEvent ":")));
    LMain (ASel GotSubsysAddrs);
    LMain (AStr "x"); LMain (AStr ":") ].

(** [start] has assigned [n.p2pAddr] and not yet [n.rpcAddr]. *)
Definition sched_first_assignment : list label := firstn 14 sched_addrs.

(** ** Sample data for genCertPair *)

(** The error of a write that failed. *)
Definition write_error (o : writeOutcome) : option error :=
  match o with
  | WriteOk => None
  | WriteFailsOpen e => Some e
  | WriteFailsPartial _ e => Some e
  end.

Definition fs_empty : fs := fun _ => None.

(** The disk fills up while the key is written. *)
Definition certEnv_disk_full : certEnv :=
  {| time_Now := 1790000000000000000;
     NewTLSCertPair := fun _ _ _ _ => inl ([x2d; x2d; x43]%byte, [x2d; x2d; x4b]%byte);
     umask := 18;
     writeCert := WriteOk;
     writeKey := WriteFailsPartial 1 (osError "write rpc.key: no space left on device");
     removeCert := None |}.

(** The disk fills up while the key is written, and the certificate cannot
    be removed. *)
Definition certEnv_remove_fails : certEnv :=
  {| time_Now := 1790000000000000000;
     NewTLSCertPair := fun _ _ _ _ => inl ([x2d; x2d; x43]%byte, [x2d; x2d; x4b]%byte);
     umask := 18;
     writeCert := WriteOk;
     writeKey := WriteFailsPartial 1 (osError "write rpc.key: no space left on device");
     removeCert := Some (osError "remove rpc.cert: operation not permitted") |}.

(** The disk fills up while the certificate is written. *)
Definition certEnv_cert_partial : certEnv :=
  {| time_Now := 1790000000000000000;
     NewTLSCertPair := fun _ _ _ _ => inl ([x2d; x2d; x43]%byte, [x2d; x2d; x4b]%byte);
     umask := 18;
     writeCert := WriteFailsPartial 2 (osError "write rpc.cert: no space left on device");
     writeKey := WriteOk;
     removeCert := None |}.

From Stdlib Require Import DecimalPos DecimalN.

(** ** newConfig and setDefaults *)

(** What [newConfig] meets outside.
    Modelled from the spec: [newIPCPipePair] is not among the sources
    ("createPipePair(forReceive, forTransmit) -> (pair, error)"); it is
    taken as it answers for each pair of flags.  [filepath.Join] is taken
    as a function, and [os.ReadFile] may fail on a file that is there. *)
Record configEnv : Type := {
  newIPCPipePair : bool -> bool -> ipcPipePair + error;
  filepath_Join : string -> string -> string;
  readFails : option error
}.

(** The error of opening a file that is not there. *)
Definition errNotExist (name : string) : error :=
  osError ("open " ++ name ++ ": no such file or directory")%string.

(** [os.ReadFile(name)] *)
Definition os_ReadFile (o : option error) (f : fs) (name : string) : bytes + error :=
  match o with
  | Some e => inr e
  | None =>
    match f name with
    | Some x => inl (contents x)
    | None => inr (errNotExist name)
    end
  end.

(** [nodeConfig.setDefaults]: the configuration as the method leaves it,
    and its result.  The certificate bytes are kept as a string. *)
Definition setDefaults (e : configEnv) (f : fs) (n : nodeConfig) : nodeConfig * option error :=
  let dataDir' := filepath_Join e (prefix n) "data" in
  let logDir' := filepath_Join e (prefix n) "logs" in
  let with_dirs (certs : string) :=
      {| rpcUser := rpcUser n; rpcPass := rpcPass n; listen := listen n;
         rpcListen := rpcListen n; rpcConnect := rpcConnect n;
         dataDir := dataDir'; logDir := logDir'; profile := profile n;
         debugLevel := debugLevel n; extra := extra n; prefix := prefix n;
         pathToDCRD := pathToDCRD n; endpoint := endpoint n;
         certFile := certFile n; keyFile := keyFile n; certificates := certs;
         pipeTX := pipeTX n; pipeRX := pipeRX n |} in
  match os_ReadFile (readFails e) f (certFile n) with
  | inr err => (with_dirs (certificates n), Some err)
  | inl cert => (with_dirs (string_of_list_byte cert), None)
  end.

(** [newConfig]: the configuration (nil on failure) and the error. *)
Definition newConfig (e : configEnv) (f : fs) (prefix certFile keyFile : string)
           (extra : list string) : option nodeConfig * option error :=
  match newIPCPipePair e true false with
  | inr err => (None, Some (Errorf_v "unable to create pipe for dcrd IPC: " (Some err)))
  | inl pipeTX =>
    match newIPCPipePair e false true with
    | inr err => (None, Some (Errorf_v "unable to create pipe for dcrd IPC: " (Some err)))
    | inl pipeRX =>
      let a := {| rpcUser := "user"; rpcPass := "pass"; listen := "127.0.0.1:0";
                  rpcListen := "127.0.0.1:0"; rpcConnect := ""; dataDir := "";
                  logDir := ""; profile := ""; debugLevel := ""; extra := extra;
                  prefix := prefix; pathToDCRD := ""; endpoint := "ws";
                  certFile := certFile; keyFile := keyFile; certificates := "";
                  pipeTX := pipeTX; pipeRX := pipeRX |} in
      match setDefaults e f a with
      | (_, Some err) => (None, Some err)
      | (a, None) => (Some a, None)
      end
    end
  end.

(** ** rpcConnConfig *)

(** [rpc.ConnConfig], the fields [rpcConnConfig] fills. *)
Record ConnConfig : Type := {
  Host : string;
  Endpoint : string;
  User : string;
  Pass : string;
  Certificates : string
}.

(** [node.rpcConnConfig] *)
Definition rpcConnConfig (n : node) : ConnConfig :=
  {| Host := rpcAddr n;
     Endpoint := endpoint (config n);
     User := rpcUser (config n);
     Pass := rpcPass (config n);
     Certificates := certificates (config n) |}.

(** ** The addresses the child reports *)

(** The pair ([p2pAddr], [rpcAddr]) after a step: only a bound-address
    event read from pipeTX changes it. *)
Definition addr_update (v : string * string) (l : label) : string * string :=
  match l with
  | LIpc (NextIPCMessage PipeTX (inl (boundP2PListenAddrEvent a))) => (a, snd v)
  | LIpc (NextIPCMessage PipeTX (inl (boundRPCListenAddrEvent a))) => (fst v, a)
  | _ => v
  end.

(** The last P2P address and the last RPC address reported in a
    schedule. *)
Definition reported (sched : list label) : string * string :=
  fold_left addr_update sched ("", "").

(** ** A stream reader on its own *)

Fixpoint stream_run (name : string) (s : shared) (pc : streamPc)
         (answers : list streamAnswer) : option (shared * streamPc) :=
  match answers with
  | [] => Some (s, pc)
  | a :: rest =>
    match stream_step name s pc a with
    | None => None
    | Some (s', pc') => stream_run name s' pc' rest
    end
  end.

(** ** start followed by stop *)

(** A caller that starts the node and then stops it, as the harness does
    on set-up and tear-down; it keeps both results. *)
Definition start_then_stop (os : platform) (n : node)
  : proc (node * option error * option error) :=
  bind (start os n) (fun r1 =>
  bind (stop os (fst r1)) (fun r2 =>
  Ret (fst r2, snd r1, snd r2))).

(** ** The readers and the launch *)

(** The channel [running] is closed only by the main goroutine, and a
    stream reader is in its read loop only once it is. *)
Definition running_inv (s : shared) (tr : list event) : Prop :=
  (running s = true -> In EvCloseRunning tr) /\
  (tStderr s = Some StReading -> running s = true) /\
  (tStdout s = Some StReading -> running s = true).

(** ** The package logger (log.go) *)

(** A [slog.Logger]: [slog.Disabled], or a logger of the caller. *)
Inductive Logger : Type := slog_Disabled | callerLogger (id : nat).

(** The package variables [innerLog] and [mtx]. *)
Record logState : Type := { innerLog : Logger; mtx_locked : bool }.

Definition logState0 : logState := {| innerLog := slog_Disabled; mtx_locked := false |}.

(** [mtx.Lock()]: no result while the mutex is held. *)
Definition mtx_Lock (s : logState) : option logState :=
  if mtx_locked s then None
  else Some {| innerLog := innerLog s; mtx_locked := true |}.

(** [mtx.Unlock()]: unlocking a free mutex is a fatal error. *)
Definition mtx_Unlock (s : logState) : option logState :=
  if mtx_locked s then Some {| innerLog := innerLog s; mtx_locked := false |}
  else None.

(** [log()] *)
Definition log_ (s : logState) : option (logState * Logger) :=
  match mtx_Lock s with
  | None => None
  | Some s1 =>
    let res := innerLog s1 in
    match mtx_Unlock s1 with
    | None => None
    | Some s2 => Some (s2, res)
    end
  end.

(** [UseLogger(logger)] *)
Definition UseLogger (logger : Logger) (s : logState) : option logState :=
  match mtx_Lock s with
  | None => None
  | Some s1 =>
    mtx_Unlock {| innerLog := logger; mtx_locked := mtx_locked s1 |}
  end.

(** A call of the package's logging interface. *)
Inductive logCall : Type := CallLog | CallUseLogger (logger : Logger).

(** A sequence of calls made one after the other: the state it leaves and
    what each [log()] returned. *)
Fixpoint log_calls (cs : list logCall) (s : logState) : option (logState * list Logger) :=
  match cs with
  | [] => Some (s, [])
  | CallLog :: cs =>
    match log_ s with
    | None => None
    | Some (s', l) =>
      match log_calls cs s' with
      | None => None
      | Some (s'', ls) => Some (s'', l :: ls)
      end
    end
  | CallUseLogger l :: cs =>
    match UseLogger l s with
    | None => None
    | Some s' => log_calls cs s'
    end
  end.

(** The logger installed after a sequence of calls that starts with
    [cur]. *)
Fixpoint installed (cur : Logger) (cs : list logCall) : Logger :=
  match cs with
  | [] => cur
  | CallLog :: cs => installed cur cs
  | CallUseLogger l :: cs => installed l cs
  end.

(** What each [log()] of a sequence should return when the logger in
    force is [cur]. *)
Fixpoint expected_logs (cur : Logger) (cs : list logCall) : list Logger :=
  match cs with
  | [] => []
  | CallLog :: cs => cur :: expected_logs cur cs
  | CallUseLogger l :: cs => expected_logs l cs
  end.

(** ** Sample data for the added properties *)

(** The optional flags of [arguments] with the fields that set them. *)
Definition optional_flags (n : nodeConfig) : list (string * string) :=
  [ ("--rpcuser=", rpcUser n); ("--rpcpass=", rpcPass n); ("--listen=", listen n);
    ("--rpclisten=", rpcListen n); ("--rpcconnect=", rpcConnect n);
    ("--datadir=", dataDir n); ("--logdir=", logDir n);
    ("--profile=", profile n); ("--debuglevel=", debugLevel n) ].

Definition configEnv0 : configEnv :=
  {| newIPCPipePair := fun rd wr => if rd then inl {| r := 3; w := 4 |}
                                    else inl {| r := 5; w := 6 |};
     filepath_Join := fun a b => (a ++ "/" ++ b)%string;
     readFails := None |}.

(** Certificate generation and both writes succeed. *)
Definition certEnv_ok : certEnv :=
  {| time_Now := 1790000000000000000;
     NewTLSCertPair := fun _ _ _ _ => inl ([x2d; x2d; x43]%byte, [x2d; x2d; x4b]%byte);
     umask := 18;
     writeCert := WriteOk;
     writeKey := WriteOk;
     removeCert := None |}.

(** A key file left behind by an earlier run, readable by everyone. *)
Definition fs_old_key : fs :=
  fs_put fs_empty "rpc.key" {| contents := []; mode := perm_0644 |}.


(** The child reports a P2P address, an unknown message, a P2P address
    again and then its RPC address. *)
Definition sched_relisten : list label :=
  [ LMain (APipe (Some 7) None); LMain AUnit;
    LMain (APipe (Some 8) None); LMain AUnit;
    LMain AUnit;
    LMain (AStart (inl 4242));
    LMain AUnit;
    LIpc IpcRun;
    LIpc (NextIPCMessage PipeTX (inl (boundP2PListenAddrEvent "127.0.0.1:19108")));
    LIpc (NextIPCMessage PipeTX (inl otherIPCMessage));
    LIpc (NextIPCMessage PipeTX (inl (boundP2PListenAddrEvent "127.0.0.1:19555")));
    LIpc (NextIPCMessage PipeTX (inl (boundRPCListenAddrEvent "127.0.0.1:19109")));
    LMain (ASel GotSubsysAddrs);
    LMain (AStr "127.0.0.1:19555"); LMain (AStr "127.0.0.1:19109") ].

(** A successful start, then stop: the child exits when pipeRX is closed,
    its streams end, and the IPC reader's read on pipeRX fails. *)
Definition sched_start_stop : list label :=
  sched_addrs ++
  [ LMain AUnit; LMain (AErr None); LMain AUnit;
    LStderr (ReadBytes "" (Some ioEOF)); LStdout (ReadBytes "" (Some ioEOF));
    LIpc (NextIPCMessage PipeRX (inr (osError "read |0: file already closed")));
    LMain AUnit; LMain AUnit; LMain (AErr None);
    LMain (AErr None); LMain AUnit ].

(** The child is launched; the first read of the IPC reader fails. *)
Definition sched_ipc_fails : list label :=
  [ LMain (APipe (Some 7) None); LMain AUnit;
    LMain (APipe (Some 8) None); LMain AUnit;
    LMain AUnit;
    LMain (AStart (inl 4242));
    LMain AUnit;
    LStderr SelRunning; LStdout SelRunning; LIpc IpcRun;
    LIpc (NextIPCMessage PipeTX (inr ioEOF)) ].

(** The binary cannot be executed; the stderr reader goes on to read all
    the same. *)
Definition sched_exec_fail_reading : list label :=
  [ LMain (APipe (Some 7) None); LMain AUnit;
    LMain (APipe (Some 8) None); LMain AUnit;
    LMain AUnit;
    LMain (AStart (inr (osError "fork/exec /tmp/dcrd: no such file or directory")));
    LMain AUnit;
    LStderr SelRunning ].

(** A second start of a node whose pipes are closed: the child is
    launched, the IPC reader's first read fails, the deadline passes and
    [start] goes through [stop]. *)
Definition sched_restart : list label :=
  sched_ipc_fails ++ skipn 10 sched_cancel.

(** ** What has been spawned and closed *)

(** A stream reader returns only through [running] or [ctx.Done()]; the
    stdout and IPC readers exist only once spawned; a pipe pair is as
    the call found it until the main goroutine closes it. *)
Definition spawn_inv (tx0 rx0 : bool) (s : shared) (tr : list event) : Prop :=
  running_inv s tr /\
  (tStderr s = Some StDone -> running s = true \/ ctxDone s <> None) /\
  (tStdout s <> None -> In (EvGo TStdout) tr) /\
  (tIpc s <> None -> In (EvGo TIpc) tr) /\
  ((forall e, ~ In (EvPipeClose PipeTX e) tr) -> txOpen s = tx0) /\
  ((forall e, ~ In (EvPipeClose PipeRX e) tr) -> rxOpen s = rx0).

Lemma wp_runs {A : Type} (p : proc A) :
  forall Q, wp p Q ->
  forall ans evs a, runs p ans = Some (evs, Ret a) -> Q evs a.
Proof.
  induction p as [a0|l k IH|k IH|k IH|t k IH|k IH|k IH|k IH|pp k IH|k IH|k IH|v k IH|s pid k IH|k IH];
    intros Q HQ ans evs a Hr;
    (destruct ans as [|x ans]; simpl in Hr;
     [ inversion Hr; subst; try exact HQ
     | destruct x; try discriminate Hr;
       match type of Hr with
       | match runs ?q ans with _ => _ end = _ =>
         destruct (runs q ans) as [[evs' q']|] eqn:E; [|discriminate Hr];
         injection Hr as <- ->;
         simpl in HQ;
         first [ exact (IH _ HQ _ _ _ E)
               | exact (IH _ _ (HQ _ _) _ _ _ E)
               | exact (IH _ _ (HQ _) _ _ _ E) ]
       end ]).
Qed.

Lemma exec_runs {A : Type} (p : proc A) (e : env) :
  exists ans, runs p ans = Some (fst (exec e p), Ret (snd (exec e p))).
Proof.
  induction p as [a0|l k IH|k IH|k IH|t k IH|k IH|k IH|k IH|pp k IH|k IH|k IH|v k IH|s pid k IH|k IH];
    simpl.
  - exists []. reflexivity.
  - destruct IH as [ans H]. exists (AUnit :: ans). simpl. rewrite H.
    destruct (exec e k). reflexivity.
  - destruct (IH (env_stderrPipe e)) as [ans H].
    exists (APipe (fst (env_stderrPipe e)) (snd (env_stderrPipe e)) :: ans).
    simpl. rewrite <- surjective_pairing. rewrite H.
    destruct (exec e (k (env_stderrPipe e))). reflexivity.
  - destruct (IH (env_stdoutPipe e)) as [ans H].
    exists (APipe (fst (env_stdoutPipe e)) (snd (env_stdoutPipe e)) :: ans).
    simpl. rewrite <- surjective_pairing. rewrite H.
    destruct (exec e (k (env_stdoutPipe e))). reflexivity.
  - destruct IH as [ans H]. exists (AUnit :: ans). simpl. rewrite H.
    destruct (exec e k). reflexivity.
  - destruct (IH (env_cmdStart e)) as [ans H].
    exists (AStart (env_cmdStart e) :: ans). simpl. rewrite H.
    destruct (exec e (k (env_cmdStart e))). reflexivity.
  - destruct IH as [ans H]. exists (AUnit :: ans). simpl. rewrite H.
    destruct (exec e k). reflexivity.
  - destruct IH as [ans H]. exists (AUnit :: ans). simpl. rewrite H.
    destruct (exec e k). reflexivity.
  - destruct (IH (env_pipeClose e pp)) as [ans H].
    exists (AErr (env_pipeClose e pp) :: ans). simpl. rewrite H.
    destruct (exec e (k (env_pipeClose e pp))). reflexivity.
  - destruct (IH (env_select e)) as [ans H].
    exists (ASel (env_select e) :: ans). simpl. rewrite H.
    destruct (exec e (k (env_select e))). reflexivity.
  - destruct (IH (env_ctxErr e)) as [ans H].
    exists (AErr (env_ctxErr e) :: ans). simpl. rewrite H.
    destruct (exec e (k (env_ctxErr e))). reflexivity.
  - destruct (IH (env_var e v)) as [ans H].
    exists (AStr (env_var e v) :: ans). simpl. rewrite H.
    destruct (exec e (k (env_var e v))). reflexivity.
  - destruct (IH (env_signal e)) as [ans H].
    exists (AErr (env_signal e) :: ans). simpl. rewrite H.
    destruct (exec e (k (env_signal e))). reflexivity.
  - destruct (IH (env_cmdWait e)) as [ans H].
    exists (AErr (env_cmdWait e) :: ans). simpl. rewrite H.
    destruct (exec e (k (env_cmdWait e))). reflexivity.
Qed.

Lemma wp_exec {A : Type} (p : proc A) (Q : list event -> A -> Prop) (e : env) :
  wp p Q -> Q (fst (exec e p)) (snd (exec e p)).
Proof.
  intros HQ. destruct (exec_runs p e) as [ans H].
  exact (wp_runs p Q HQ _ _ _ H).
Qed.

(** ** Every path of stop *)

Lemma stop_wp (os : platform) (n : node) : wp (stop os n) (stop_post os n).
Proof.
  unfold stop, stop_post, running_pid, hard_signal.
  destruct (cmd n) as [c|]; [destruct (Process c) as [pid|]|];
    simpl; try (split; [reflexivity|split; reflexivity]).
  intros e1. destruct e1 as [x1|]; simpl.
  - destruct (GOOS os =? "windows")%string; simpl;
      intros e4 ; destruct e4 as [x4|]; simpl;
      intros e2; destruct e2 as [x2|]; simpl;
      intros e3; destruct e3 as [x3|]; simpl;
      (split; [reflexivity|split; [reflexivity|]];
       eexists (Some x1), _, _, [_]; split; [reflexivity|];
       split; [split; [simpl; tauto|eexists; split; [reflexivity|]]|split];
       simpl; intros; try congruence; tauto).
  - intros e2; destruct e2 as [x2|]; simpl;
      intros e3; destruct e3 as [x3|]; simpl;
      (split; [reflexivity|split; [reflexivity|]];
       eexists None, _, _, []; split; [reflexivity|];
       split; [reflexivity|split];
       simpl; intros; try congruence; tauto).
Qed.

(** ** The invariants are kept by every step *)

Lemma all_after_ext s s' tr :
  (forall v, In (EvSelect GotSubsysAddrs) tr -> var s' v = var s v) ->
  (In (EvSelect CtxDone) tr -> ctxDone s' = ctxDone s) ->
  all_after s tr -> all_after s' tr.
Proof.
  induction tr as [|ev tr IH]; simpl; [auto|].
  intros Hv Hc [H1 H2]. split.
  - destruct ev; simpl in *; auto.
    + intros Hin. rewrite Hc by auto. auto.
    + intros Hin. rewrite Hv by auto. auto.
  - apply IH; auto.
Qed.


Ltac inv_open I :=
  destruct I as [Iwg Ijoin Ige Igo Igi Ipipe Igot Idrain Isg Isc Ictx Iafter Ireads].

Ltac field_auto :=
  simpl; auto;
  match goal with
  | Ipipe : forall (p : pipeId) (e : option error), In _ _ -> _
    |- forall (p : pipeId) (e : option error), _ =>
    let E := fresh "E" in
    let p := fresh "p" in
    let e := fresh "e" in
    intros p e [E|E];
    [ try discriminate E; try (injection E; intros; subst; simpl; auto)
    | specialize (Ipipe p e E); destruct p; simpl in *; auto ]
  | Iafter : all_after ?s ?tr |- all_after _ ?tr =>
    apply (all_after_ext s); [intros [|]; simpl; auto|simpl; auto|exact Iafter]
  | Iafter : all_after ?s ?tr |- _ /\ all_after _ ?tr =>
    split; [simpl; auto
           | apply (all_after_ext s); [intros [|]; simpl; auto|simpl; auto|exact Iafter]]
  | |- _ \/ _ -> _ =>
    let E := fresh "E" in
    intros [E|E]; [try discriminate E; try (injection E; intros; subst)|];
    simpl; eauto
  | _ => idtac
  end.

Lemma option_error_eqb_eq a b : option_error_eqb a b = true -> a = b.
Proof.
  destruct a as [x|], b as [y|]; simpl; try discriminate; auto.
  destruct (error_eq_dec x y); [congruence|discriminate].
Qed.

Lemma b2n_false b : b2n b = 0 -> b = false.
Proof. destruct b; simpl; [discriminate|reflexivity]. Qed.

Lemma inv_main s tr ev s' :
  inv s tr -> on_event s ev = Some s' -> inv s' (ev :: tr).
Proof.
  intros I H.
  destruct ev; simpl in H.
  all: try (injection H as <-).
  all: try (inv_open I; constructor; field_auto; fail).
  - (* go *)
    destruct t;
      [ destruct (tStderr s) eqn:T | destruct (tStdout s) eqn:T | destruct (tIpc s) eqn:T ];
      simpl in H; try discriminate H; injection H as <-;
      inv_open I; constructor; field_auto; try discriminate; try congruence.
    all: try (rewrite ?T in *; simpl in *; lia).
    all: try (intros G; destruct (Igot G) as (? & ? & [?|?]); congruence).
  - (* close(running) *)
    destruct (running s); [discriminate H|injection H as <-].
    inv_open I; constructor; field_auto.
  - (* wg.Wait *)
    destruct (Nat.eqb_spec (wg s) 0) as [W|W]; [injection H as <-|discriminate H].
    inv_open I; constructor; field_auto.
    intros _. split; apply b2n_false; lia.
  - (* pipe close *)
    inv_open I; constructor; try (destruct p; field_auto; fail).
  - (* select *)
    destruct b.
    + destruct (ctxDone s) eqn:C; [injection H as <-|discriminate H].
      inv_open I; constructor; field_auto; congruence.
    + destruct (gotSubsysAddrs s) eqn:G; [injection H as <-|discriminate H].
      inv_open I; constructor; field_auto.
  - (* ctx.Err() *)
    destruct (option_error_eqb err (ctxDone s)) eqn:C; [injection H as <-|discriminate H].
    apply option_error_eqb_eq in C.
    inv_open I; constructor; field_auto.
  - (* read of p2pAddr, rpcAddr *)
    destruct (String.eqb_spec s0 (var s v)) as [C|C]; [injection H as <-|discriminate H].
    inv_open I; constructor; field_auto.
Qed.

Lemma inv_stderr s tr pc a s' pc' :
  inv s tr -> tStderr s = Some pc ->
  stream_step "stderr" s pc a = Some (s', pc') ->
  inv (set_tStderr s' (Some pc')) tr.
Proof.
  intros I T H. unfold stream_step in H.
  destruct pc, a; try discriminate H.
  - destruct (running s); [|discriminate H]. injection H as <- <-.
    inv_open I; constructor; field_auto; try congruence.
    all: rewrite ?T in *; simpl in *; auto.
    all: try (intros J; destruct (Ijoin J); discriminate).
  - destruct (ctxDone s) eqn:C; simpl in H; [|discriminate H]. injection H as <- <-.
    inv_open I; constructor; field_auto; try congruence.
    all: rewrite ?T in *; simpl in *; try lia; auto.
    all: try (intros J; destruct (Ijoin J); discriminate).
  - destruct (errors_Is err ioEOF); [|destruct (negb (is_nil err))];
      injection H as <- <-;
      inv_open I; constructor; field_auto; try congruence.
    all: rewrite ?T in *; simpl in *; try lia; auto.
    all: try (intros J; destruct (Ijoin J); discriminate).
Qed.

Lemma inv_stdout s tr pc a s' pc' :
  inv s tr -> tStdout s = Some pc ->
  stream_step "stdout" s pc a = Some (s', pc') ->
  inv (set_tStdout s' (Some pc')) tr.
Proof.
  intros I T H. unfold stream_step in H.
  destruct pc, a; try discriminate H.
  - destruct (running s); [|discriminate H]. injection H as <- <-.
    inv_open I; constructor; field_auto; try congruence.
    all: rewrite ?T in *; simpl in *; auto.
    all: try (intros J; destruct (Ijoin J); discriminate).
  - destruct (ctxDone s) eqn:C; simpl in H; [|discriminate H]. injection H as <- <-.
    inv_open I; constructor; field_auto; try congruence.
    all: rewrite ?T in *; simpl in *; try lia; auto.
    all: try (intros J; destruct (Ijoin J); discriminate).
  - destruct (errors_Is err ioEOF); [|destruct (negb (is_nil err))];
      injection H as <- <-;
      inv_open I; constructor; field_auto; try congruence.
    all: rewrite ?T in *; simpl in *; try lia; auto.
    all: try (intros J; destruct (Ijoin J); discriminate).
Qed.

Lemma negb_eqb_empty x : negb (x =? "") = true -> x <> "".
Proof.
  destruct (String.eqb_spec x ""); simpl; [discriminate|auto].
Qed.

Lemma reads_tx s m k :
  ipcReads s = repeat PipeRX m ++ repeat PipeTX k -> m = 0 ->
  PipeTX :: ipcReads s = repeat PipeRX 0 ++ repeat PipeTX (S k).
Proof. intros -> ->. reflexivity. Qed.

Lemma reads_rx s m k :
  ipcReads s = repeat PipeRX m ++ repeat PipeTX k ->
  PipeRX :: ipcReads s = repeat PipeRX (S m) ++ repeat PipeTX k.
Proof. intros ->. reflexivity. Qed.

Ltac reads_goal Ireads Hg :=
  match goal with
  | |- exists m k, PipeTX :: _ = _ /\ _ =>
    let m := fresh "m" in let k := fresh "k" in
    let E := fresh "E" in let Z := fresh "Z" in
    destruct Ireads as (m & k & E & Z);
    exists 0, (S k); split; [apply (reads_tx _ m k E (Z Hg))|auto]
  | |- exists m k, PipeRX :: _ = _ /\ _ =>
    let m := fresh "m" in let k := fresh "k" in
    let E := fresh "E" in let Z := fresh "Z" in
    destruct Ireads as (m & k & E & Z);
    exists (S m), k; split; [apply (reads_rx _ m k E)|simpl; congruence]
  end.

Lemma inv_ipc s tr pc a s' pc' :
  inv s tr -> tIpc s = Some pc ->
  ipc_step s pc a = Some (s', pc') ->
  inv (set_tIpc s' (Some pc')) tr.
Proof.
  intros I T H. unfold ipc_step in H.
  assert (Hg : pc <> IpcDrain -> pc <> IpcDone -> gotSubsysAddrs s = false).
  { intros N1 N2. destruct (gotSubsysAddrs s) eqn:G; [|reflexivity].
    destruct (inv_got _ _ I G) as (_ & _ & [E|E]); congruence. }
  assert (Hs : In (EvSelect GotSubsysAddrs) tr -> gotSubsysAddrs s = true)
    by apply (inv_sel_got _ _ I).
  destruct pc, a as [|p res]; try discriminate H.
  - injection H as <- <-.
    specialize (Hg ltac:(discriminate) ltac:(discriminate)).
    inv_open I; constructor; field_auto; try congruence.
  - destruct p; [|discriminate H].
    destruct (readable s PipeTX res); [|discriminate H].
    specialize (Hg ltac:(discriminate) ltac:(discriminate)).
    destruct res as [msg|e].
    + destruct msg as [a|a|]; simpl in H;
        match type of H with
        | (if negb (?x =? "") && negb (?y =? "") then _ else _) = _ =>
          destruct (negb (x =? "")) eqn:E1; [destruct (negb (y =? "")) eqn:E2|];
            simpl in H; rewrite ?Hg in H; injection H as <- <-
        end;
        try apply negb_eqb_empty in E1; try apply negb_eqb_empty in E2;
        inv_open I; constructor; field_auto; try congruence;
        try reads_goal Ireads Hg.
      all: try (intros Hin; rewrite (Hs Hin) in Hg; discriminate).
    + injection H as <- <-.
      inv_open I; constructor; field_auto; try congruence;
        try reads_goal Ireads Hg.
  - destruct p; [discriminate H|].
    destruct (readable s PipeRX res); [|discriminate H].
    assert (G : gotSubsysAddrs s = true) by (apply (inv_drain _ _ I); exact T).
    destruct res as [msg|e]; injection H as <- <-;
      inv_open I; constructor; field_auto; try congruence;
        try reads_goal Ireads Hg.
    all: try (intros _; destruct (Igot G) as (? & ? & _); auto).
Qed.

Lemma inv_step {A : Type} (st st' : sys A) (l : label) :
  inv (sh st) (mtrace st) -> sys_step st l = Some st' ->
  inv (sh st') (mtrace st').
Proof.
  intros I H. destruct l as [a|a|a|a|d|]; simpl in H.
  - destruct (proc_step (pmain st) a) as [[ev p']|]; [|discriminate H].
    destruct (on_event (sh st) ev) as [s'|] eqn:E; [|discriminate H].
    injection H as <-. simpl. exact (inv_main _ _ _ _ I E).
  - destruct (tStderr (sh st)) as [pc|] eqn:T; [|discriminate H].
    destruct (stream_step "stderr" (sh st) pc a) as [[s' pc']|] eqn:E; [|discriminate H].
    injection H as <-. simpl. exact (inv_stderr _ _ _ _ _ _ I T E).
  - destruct (tStdout (sh st)) as [pc|] eqn:T; [|discriminate H].
    destruct (stream_step "stdout" (sh st) pc a) as [[s' pc']|] eqn:E; [|discriminate H].
    injection H as <-. simpl. exact (inv_stdout _ _ _ _ _ _ I T E).
  - destruct (tIpc (sh st)) as [pc|] eqn:T; [|discriminate H].
    destruct (ipc_step (sh st) pc a) as [[s' pc']|] eqn:E; [|discriminate H].
    injection H as <-. simpl. exact (inv_ipc _ _ _ _ _ _ I T E).
  - destruct (ctxDone (sh st)) eqn:C; simpl in H; [discriminate H|].
    injection H as <-. simpl.
    inv_open I; constructor; field_auto; try congruence; eauto.
    all: try (intros Hin; elim (Isc Hin); exact C).
  - destruct (wgOther (sh st)) as [|k] eqn:W; [discriminate H|].
    injection H as <-. simpl.
    inv_open I; constructor; field_auto; try congruence.
    lia.
Qed.

Lemma inv_run {A : Type} (sched : list label) :
  forall (st st' : sys A),
    inv (sh st) (mtrace st) -> run sched st = Some st' ->
    inv (sh st') (mtrace st').
Proof.
  induction sched as [|l sched IH]; simpl; intros st st' I H.
  - injection H as <-. exact I.
  - destruct (sys_step st l) as [st1|] eqn:E; [|discriminate H].
    exact (IH _ _ (inv_step _ _ _ I E) H).
Qed.

Lemma inv_entry (num : N) (wg0 : nat) (tx rx : bool) (ctx : option bool) :
  inv (entry num wg0 tx rx ctx) [].
Proof.
  constructor; simpl; try tauto; try discriminate; try lia.
  - destruct ctx as [d|]; simpl; eauto.
  - exists 0, 0. auto.
Qed.

(** The calls recorded by a run are a path of the main program. *)
Lemma run_path {A : Type} (sched : list label) :
  forall (st st' : sys A),
    run sched st = Some st' ->
    exists ans evs,
      runs (pmain st) ans = Some (evs, pmain st') /\
      mtrace st' = rev evs ++ mtrace st.
Proof.
  induction sched as [|l sched IH]; simpl; intros st st' H.
  - injection H as <-. exists [], []. split; reflexivity.
  - destruct (sys_step st l) as [st1|] eqn:E; [|discriminate H].
    destruct (IH _ _ H) as (ans & evs & R & M).
    destruct l as [a|a|a|a|d|]; simpl in E.
    + destruct (proc_step (pmain st) a) as [[ev p']|] eqn:P; [|discriminate E].
      destruct (on_event (sh st) ev) as [s'|]; [|discriminate E].
      injection E as <-. simpl in *.
      exists (a :: ans), (ev :: evs). simpl. rewrite P, R. split; [reflexivity|].
      rewrite M, <- app_assoc. reflexivity.
    + destruct (tStderr (sh st)) as [pc|]; [|discriminate E].
      destruct (stream_step "stderr" (sh st) pc a) as [[s' pc']|]; [|discriminate E].
      injection E as <-. simpl in *. eauto.
    + destruct (tStdout (sh st)) as [pc|]; [|discriminate E].
      destruct (stream_step "stdout" (sh st) pc a) as [[s' pc']|]; [|discriminate E].
      injection E as <-. simpl in *. eauto.
    + destruct (tIpc (sh st)) as [pc|]; [|discriminate E].
      destruct (ipc_step (sh st) pc a) as [[s' pc']|]; [|discriminate E].
      injection E as <-. simpl in *. eauto.
    + destruct (is_nil (ctxDone (sh st))); [|discriminate E].
      injection E as <-. simpl in *. eauto.
    + destruct (wgOther (sh st)); [discriminate E|].
      injection E as <-. simpl in *. eauto.
Qed.

(** What holds on every path of the main program holds of the calls of
    every run in which it returns. *)
Lemma run_wp {A : Type} (p : proc A) (Q : list event -> A -> Prop)
      (s : shared) (sched : list label) (st : sys A) (a : A) :
  wp p Q -> run sched (boot s p) = Some st -> pmain st = Ret a ->
  Q (rev (mtrace st)) a.
Proof.
  intros HQ R E. destruct (run_path _ _ _ R) as (ans & evs & P & M).
  simpl in P, M. rewrite app_nil_r in M. rewrite M, rev_involutive.
  rewrite E in P. exact (wp_runs _ _ HQ _ _ _ P).
Qed.

(** ** Every path of start *)

Lemma wp_mono {A : Type} (p : proc A) :
  forall (Q Q' : list event -> A -> Prop),
    (forall evs a, Q evs a -> Q' evs a) -> wp p Q -> wp p Q'.
Proof.
  induction p as [a0|l k IH|k IH|k IH|t k IH|k IH|k IH|k IH|pp k IH|k IH|k IH|v k IH|s pid k IH|k IH];
    simpl; intros Q Q' HQ H; auto;
    try (apply (IH _ (fun evs => Q' (_ :: evs))) in H; [exact H|]; simpl; auto; fail);
    intros; (eapply IH; [|apply H]); simpl; auto.
Qed.

Lemma wp_bind {A B : Type} (p : proc A) (f : A -> proc B) :
  forall (Q : list event -> B -> Prop),
    wp p (fun evs a => wp (f a) (fun evs' => Q (evs ++ evs'))) ->
    wp (bind p f) Q.
Proof.
  induction p as [a0|l k IH|k IH|k IH|t k IH|k IH|k IH|k IH|pp k IH|k IH|k IH|v k IH|s pid k IH|k IH];
    simpl; intros Q H; auto;
    try (apply IH; exact H; fail);
    intros; apply IH; apply H.
Qed.

Opaque stop.

Lemma start_wp (os : platform) (n : node) : wp (start os n) (start_path os n).
Proof.
  unfold start. simpl.
  intros rc [e|]; simpl; [apply sp_stderr|].
  intros rc' [e|]; simpl; [apply sp_stdout|].
  intros [pid|e]; simpl.
  - intros [|]; simpl.
    + apply wp_bind. eapply wp_mono; [|apply stop_wp].
      intros sevs [n2 closeErr] P. assert (closeErr = None) by apply P. subst.
      simpl. intros ce. apply (sp_ctx os n rc rc' pid sevs n2 ce P).
    + intros p q. apply (sp_addrs os n rc rc' pid p q).
  - intros x y. apply (sp_exec os n rc rc' e x y).
Qed.

Transparent stop.

Lemma returns_wp {A : Type} (p : proc A) (Q : list event -> A -> Prop)
      (evs : list event) (r : A) :
  wp p Q -> returns p evs r -> Q evs r.
Proof. intros HQ [ans H]. exact (wp_runs p Q HQ ans evs r H). Qed.

Lemma exec_returns {A : Type} (p : proc A) (e : env) :
  returns p (fst (exec e p)) (snd (exec e p)).
Proof. exact (exec_runs p e). Qed.

Lemma calls_In (ev : event) (evs : list event) :
  In ev evs -> is_log ev = false -> In ev (calls evs).
Proof.
  intros H L. unfold calls. apply filter_In. split; [exact H|].
  rewrite L. reflexivity.
Qed.

Lemma stop_post_idle (os : platform) (n : node) (evs : list event)
      (r : node * option error) :
  running_pid n = None -> stop_post os n evs r ->
  calls evs = [] /\ r = (n, None).
Proof.
  intros E [H1 H2]. rewrite E in H2. destruct H2 as [H2 H3].
  split; [exact H2|]. destruct r as [n' e]. simpl in *. congruence.
Qed.

Lemma running_pid_cleared (n : node) : running_pid (set_cmd n None) = None.
Proof. reflexivity. Qed.

(** ** Runs of start *)

Lemma start_run (os : platform) (n : node) (num : N) (wg0 : nat) (tx rx : bool)
      (ctx : option bool) (sched : list label) (st : sys (node * option error))
      (r : node * option error) :
  run sched (boot (entry num wg0 tx rx ctx) (start os n)) = Some st ->
  pmain st = Ret r ->
  start_path os n (rev (mtrace st)) r /\ inv (sh st) (mtrace st).
Proof.
  intros R E. split.
  - exact (run_wp _ _ _ _ _ _ (start_wp os n) R E).
  - apply (inv_run sched (boot (entry num wg0 tx rx ctx) (start os n)) st); [|exact R].
    simpl. apply inv_entry.
Qed.

Lemma rev_eq_l {A : Type} (l l' : list A) : rev l = l' -> l = rev l'.
Proof. intros <-. symmetry. apply rev_involutive. Qed.

Lemma rev_ctx_path (pre sevs : list event) (b c : event) :
  rev (pre ++ b :: sevs ++ [c]) = c :: rev sevs ++ b :: rev pre.
Proof.
  rewrite rev_app_distr. simpl. rewrite rev_app_distr. simpl.
  rewrite <- app_assoc. reflexivity.
Qed.

Lemma stop_post_calls (os : platform) (n : node) (pid : nat) (sevs : list event)
      (r : node * option error) (ev : event) :
  running_pid n = Some pid -> stop_post os n sevs r ->
  In ev sevs -> is_log ev = false ->
  (exists p e, ev = EvPipeClose p e) \/ (exists s e, ev = EvSignal s pid e) \/
  ev = EvWgWait \/ (exists e, ev = EvCmdWait e).
Proof.
  intros E [_ P] Hin L. rewrite E in P.
  destruct P as (_ & e1 & e2 & e3 & sig & C & S & _).
  pose proof (calls_In _ _ Hin L) as H. rewrite C in H.
  destruct H as [H|H]; [left; eauto|].
  apply in_app_or in H. destruct H as [H|H].
  - destruct e1.
    + destruct S as (_ & e4 & -> & _). destruct H as [H|[]].
      right. left. eauto.
    + subst sig. destruct H.
  - simpl in H. destruct H as [H|[H|[H|[]]]]; eauto 6.
Qed.

(** A call on the path of [start] that runs [stop] is a call of the
    launch, the [select], the final [ctx.Err()], or one of [stop]'s. *)
Lemma ctx_path_In (os : platform) (n1 : node) (pid : nat) (rc rc' : option nat)
      (sevs : list event) (r : node * option error) (ce : option error) (ev : event) :
  running_pid n1 = Some pid -> stop_post os n1 sevs r ->
  In ev (launch rc rc' (inl pid) ++ EvSelect CtxDone :: sevs ++ [EvCtxErr ce]) ->
  is_log ev = false ->
  In ev (launch rc rc' (inl pid) ++ [EvSelect CtxDone; EvCtxErr ce]) \/
  (exists p e, ev = EvPipeClose p e) \/ (exists s e, ev = EvSignal s pid e) \/
  ev = EvWgWait \/ (exists e, ev = EvCmdWait e).
Proof.
  intros E S Hin L.
  apply in_app_or in Hin. destruct Hin as [Hin|[Hin|Hin]].
  - left. apply in_or_app. left. exact Hin.
  - left. apply in_or_app. right. left. exact Hin.
  - apply in_app_or in Hin. destruct Hin as [Hin|Hin].
    + right. exact (stop_post_calls os n1 pid sevs r ev E S Hin L).
    + left. apply in_or_app. right. right. exact Hin.
Qed.

Lemma joined_calls (tr : list event) : joined tr = joined (calls tr).
Proof.
  induction tr as [|ev tr IH]; [reflexivity|].
  destruct ev; simpl; auto.
Qed.

Lemma calls_rev (evs : list event) : calls (rev evs) = rev (calls evs).
Proof.
  unfold calls. induction evs as [|ev evs IH]; [reflexivity|].
  simpl. rewrite filter_app, IH. simpl.
  destruct (negb (is_log ev)); simpl; [reflexivity|apply app_nil_r].
Qed.

Lemma stream_done (t : option streamPc) :
  t <> None -> streamLive t = false -> t = Some StDone.
Proof.
  destruct t as [[| |]|]; simpl; intros N L; try discriminate L;
    [reflexivity|elim N; reflexivity].
Qed.

(** ** The discovered addresses *)

Lemma var_form_step {A : Type} (st st' : sys A) (l : label) :
  (forall a, payload l = Some a -> is_host_port a = true) ->
  sys_step st l = Some st' -> var_form (sh st) -> var_form (sh st').
Proof.
  intros Hp H V. destruct l as [a|a|a|a|d|]; simpl in H.
  - destruct (proc_step (pmain st) a) as [[ev p']|]; [|discriminate H].
    destruct (on_event (sh st) ev) as [s'|] eqn:E; [|discriminate H].
    injection H as <-. simpl.
    destruct ev; simpl in E;
      repeat match type of E with
             | (if ?c then _ else _) = _ => destruct c
             | match ?t with _ => _ end = _ => destruct t
             end;
      try discriminate E; injection E as <-; try exact V;
      try (destruct p; exact V).
  - destruct (tStderr (sh st)) as [pc|]; [|discriminate H].
    destruct (stream_step "stderr" (sh st) pc a) as [[s' pc']|] eqn:E; [|discriminate H].
    injection H as <-. simpl. unfold stream_step in E.
    destruct pc, a; try discriminate E;
      repeat match type of E with
             | (if ?c then _ else _) = _ => destruct c
             end;
      try discriminate E; injection E as <- <-; exact V.
  - destruct (tStdout (sh st)) as [pc|]; [|discriminate H].
    destruct (stream_step "stdout" (sh st) pc a) as [[s' pc']|] eqn:E; [|discriminate H].
    injection H as <-. simpl. unfold stream_step in E.
    destruct pc, a; try discriminate E;
      repeat match type of E with
             | (if ?c then _ else _) = _ => destruct c
             end;
      try discriminate E; injection E as <- <-; exact V.
  - destruct (tIpc (sh st)) as [pc|]; [|discriminate H].
    destruct (ipc_step (sh st) pc a) as [[s' pc']|] eqn:E; [|discriminate H].
    injection H as <-. simpl. unfold ipc_step in E.
    destruct pc, a as [|p [msg|e]]; try discriminate E;
      try (injection E as <- <-; exact V);
      destruct p; try discriminate E;
      match type of E with
      | (if ?c then _ else _) = _ => destruct c; [|discriminate E]
      end;
      try (injection E as <- <-; exact V).
    destruct V as [V1 V2].
    destruct msg as [x|x|]; simpl in E;
      repeat match type of E with
             | (if ?c then _ else _) = _ => destruct c
             end;
      try discriminate E; injection E as <- <-; split; simpl; auto;
      right; apply Hp; reflexivity.
  - destruct (is_nil (ctxDone (sh st))); [|discriminate H].
    injection H as <-. exact V.
  - destruct (wgOther (sh st)); [discriminate H|].
    injection H as <-. exact V.
Qed.

Lemma var_form_run {A : Type} (sched : list label) :
  forall (st st' : sys A),
    reports_host_port sched ->
    run sched st = Some st' -> var_form (sh st) -> var_form (sh st').
Proof.
  induction sched as [|l sched IH]; simpl; intros st st' Hp H V.
  - injection H as <-. exact V.
  - destruct (sys_step st l) as [st1|] eqn:E; [|discriminate H].
    apply (IH st1 st'); [|exact H|].
    + intros l' a Hin. apply Hp. right. exact Hin.
    + apply (var_form_step st st1 l); [|exact E|exact V].
      intros a. apply Hp. left. reflexivity.
Qed.

Lemma shutdown_wp (os : platform) (n : node) :
  wp (shutdown os n) (fun evs r => snd r = None /\ p2pAddr (fst r) = p2pAddr n
                                   /\ rpcAddr (fst r) = rpcAddr n).
Proof.
  unfold shutdown. simpl.
  apply wp_bind. apply wp_bind. eapply wp_mono; [|apply stop_wp].
  intros evs [n' err] [N P]. simpl in N. subst err. simpl.
  split; [reflexivity|].
  destruct (running_pid n); [destruct P as [P _]|destruct P as [_ P]];
    simpl in P; subst n'; split; reflexivity.
Qed.

(** ** start run to its end against an environment *)

Lemma exec_start_no_binary (os : platform) (n : node) (v : env) (e : error) :
  snd (env_stderrPipe v) = None -> snd (env_stdoutPipe v) = None ->
  env_cmdStart v = inr e ->
  exec v (start os n)
  = (launch (fst (env_stderrPipe v)) (fst (env_stdoutPipe v)) (inr e)
       ++ [EvWgWait; EvPipeClose PipeTX (env_pipeClose v PipeTX);
           EvPipeClose PipeRX (env_pipeClose v PipeRX)],
     (attached n (fst (env_stderrPipe v)) (fst (env_stdoutPipe v)),
      Some (Errorf_w_v errDcrdCmdExec e))).
Proof.
  intros H1 H2 H3. unfold start. simpl.
  destruct (env_stderrPipe v) as [rc err]. simpl in H1. subst err. simpl.
  destruct (env_stdoutPipe v) as [rc' err]. simpl in H2. subst err. simpl.
  rewrite H3. simpl. reflexivity.
Qed.

Lemma exec_start_no_pipe (os : platform) (n : node) (v : env) (e : error) :
  (snd (env_stderrPipe v) = Some e ->
   exec v (start os n)
   = ([EvStderrPipe (fst (env_stderrPipe v)) (Some e)],
      (set_stderr n (fst (env_stderrPipe v)), Some e))) /\
  (snd (env_stderrPipe v) = None -> snd (env_stdoutPipe v) = Some e ->
   exec v (start os n)
   = ([EvStderrPipe (fst (env_stderrPipe v)) None; EvGo TStderr;
       EvStdoutPipe (fst (env_stdoutPipe v)) (Some e)],
      (attached n (fst (env_stderrPipe v)) (fst (env_stdoutPipe v)), Some e))).
Proof.
  split.
  - intros H1. unfold start. simpl.
    destruct (env_stderrPipe v) as [rc err]. simpl in H1. subst err. reflexivity.
  - intros H1 H2. unfold start. simpl.
    destruct (env_stderrPipe v) as [rc err]. simpl in H1. subst err. simpl.
    destruct (env_stdoutPipe v) as [rc' err]. simpl in H2. subst err. reflexivity.
Qed.

Lemma exec_bind {A B : Type} (v : env) (p : proc A) (f : A -> proc B) :
  exec v (bind p f)
  = (fst (exec v p) ++ fst (exec v (f (snd (exec v p)))),
     snd (exec v (f (snd (exec v p))))).
Proof.
  induction p as [a0|l k IH|k IH|k IH|t k IH|k IH|k IH|k IH|pp k IH|k IH|k IH|x k IH|s pid k IH|k IH];
    simpl.
  - destruct (exec v (f a0)). reflexivity.
  - rewrite IH. destruct (exec v k). reflexivity.
  - rewrite IH. destruct (exec v (k (env_stderrPipe v))). reflexivity.
  - rewrite IH. destruct (exec v (k (env_stdoutPipe v))). reflexivity.
  - rewrite IH. destruct (exec v k). reflexivity.
  - rewrite IH. destruct (exec v (k (env_cmdStart v))). reflexivity.
  - rewrite IH. destruct (exec v k). reflexivity.
  - rewrite IH. destruct (exec v k). reflexivity.
  - rewrite IH. destruct (exec v (k (env_pipeClose v pp))). reflexivity.
  - rewrite IH. destruct (exec v (k (env_select v))). reflexivity.
  - rewrite IH. destruct (exec v (k (env_ctxErr v))). reflexivity.
  - rewrite IH. destruct (exec v (k (env_var v x))). reflexivity.
  - rewrite IH. destruct (exec v (k (env_signal v))). reflexivity.
  - rewrite IH. destruct (exec v (k (env_cmdWait v))). reflexivity.
Qed.

Opaque stop.

Lemma exec_start_cancel (os : platform) (n : node) (v : env) (pid : nat) :
  snd (env_stderrPipe v) = None -> snd (env_stdoutPipe v) = None ->
  env_cmdStart v = inl pid -> env_select v = CtxDone ->
  let n1 := launched os n (fst (env_stderrPipe v)) (fst (env_stdoutPipe v)) pid in
  exec v (start os n)
  = (launch (fst (env_stderrPipe v)) (fst (env_stdoutPipe v)) (inl pid)
       ++ EvSelect CtxDone :: fst (exec v (stop os n1)) ++ [EvCtxErr (env_ctxErr v)],
     (set_cmd n1 None,
      Some (Errorf_v "context done while waiting for addrs: " (env_ctxErr v)))).
Proof.
  intros H1 H2 H3 H4 n1. unfold start. simpl.
  destruct (env_stderrPipe v) as [rc err]. simpl in H1. subst err. simpl.
  destruct (env_stdoutPipe v) as [rc' err]. simpl in H2. subst err. simpl.
  rewrite H3. simpl. rewrite H4. simpl.
  rewrite exec_bind. simpl.
  pose proof (wp_exec _ _ v (stop_wp os (launched os n rc rc' pid))) as P.
  subst n1. simpl fst. unfold launched, attached in *.
  destruct (exec v (stop os _)) as [sevs [n2 ce]].
  destruct P as [P1 P2].
  change (running_pid _) with (Some pid) in P2.
  destruct P2 as [P2 _]. simpl in P1, P2. subst n2 ce. reflexivity.
Qed.
Transparent stop.

(** ** The argument list *)

Lemma In_appendIfSet (x : string) (args : list string) (flag v : string) :
  In x (appendIfSet args flag v) <-> In x args \/ (v <> "" /\ x = (flag ++ v)%string).
Proof.
  unfold appendIfSet. destruct (String.eqb_spec v "") as [E|E].
  - split; [auto|]. intros [H|[H _]]; [exact H|contradiction].
  - rewrite in_app_iff. simpl. split.
    + intros [H|[H|[]]]; auto.
    + intros [H|[_ H]]; auto.
Qed.

(** C8.  [arguments] returns the generated arguments followed by the
    caller's extra arguments, which are the last elements of the list.  The
    generated part always holds the certificate path, the key path,
    [--txindex], [--allowunsyncedmining] and [--boundaddrevents], and holds
    the credential and listen-address flags whenever the matching field is
    not empty. *)
Theorem arguments_contents (os : platform) (n : nodeConfig) :
  exists gen,
    arguments os n = gen ++ extra n /\
    In ("--rpccert=" ++ certFile n)%string gen /\
    In ("--rpckey=" ++ keyFile n)%string gen /\
    In "--txindex" gen /\
    In "--allowunsyncedmining" gen /\
    In "--boundaddrevents" gen /\
    (rpcUser n <> "" -> In ("--rpcuser=" ++ rpcUser n)%string gen) /\
    (rpcPass n <> "" -> In ("--rpcpass=" ++ rpcPass n)%string gen) /\
    (listen n <> "" -> In ("--listen=" ++ listen n)%string gen) /\
    (rpcListen n <> "" -> In ("--rpclisten=" ++ rpcListen n)%string gen).
Proof.
  unfold arguments, appendOSNodeArgs.
  eexists. split; [reflexivity|].
  repeat (rewrite ?in_app_iff, ?In_appendIfSet; simpl).
  repeat split; intros; tauto.
Qed.

Lemma arguments_contents_witness :
  exists gen,
    arguments linux cfg0 = gen ++ ["--simnet"] /\
    In "--rpcuser=user" gen /\ In "--listen=127.0.0.1:0" gen.
Proof.
  destruct (arguments_contents linux cfg0)
    as (gen & E & _ & _ & _ & _ & _ & U & _ & L & _).
  exists gen. split; [exact E|]. split.
  - apply U. simpl. discriminate.
  - apply L. simpl. discriminate.
Defined.

(** ** stop *)

(** C5.  [stop] returns, and returns nil, whatever the state of the node
    and whatever its calls hand back.  On a node that was never started
    (no command, or a command without a process) it makes no call but the
    two trace lines and leaves the node as it is.  An error of a pipe
    close, of the signal or of [cmd.Wait] is logged, never returned.  After
    a stop that tore a process down the command is nil, and a second
    [stop] right after the first makes no call but its trace lines,
    leaves the node as it is and returns nil. *)
Theorem stop_returns_nil (os : platform) (n : node) :
  (forall e : env,
      returns (stop os n) (fst (exec e (stop os n))) (snd (exec e (stop os n)))) /\
  (forall evs r,
      returns (stop os n) evs r ->
      snd r = None /\
      (running_pid n = None -> calls evs = [] /\ fst r = n) /\
      (running_pid n <> None -> cmd (fst r) = None) /\
      (forall x, In (EvPipeClose PipeRX (Some x)) evs ->
                 In (EvLog (logf_line (nodeNum n) "Unable to close piperx ends: %v"
                                      [ArgErr (Some x)])) evs) /\
      (forall x, In (EvPipeClose PipeTX (Some x)) evs ->
                 In (EvLog (logf_line (nodeNum n) "Unable to close pipe TX: %v"
                                      [ArgErr (Some x)])) evs) /\
      (forall s pid x, In (EvSignal s pid (Some x)) evs ->
                       In (EvLog (debug_line "stop Signal error: %v"
                                             [ArgErr (Some x)])) evs) /\
      (forall x, In (EvCmdWait (Some x)) evs ->
                 In (EvLog (debug_line "stop cmd.Wait error: %v"
                                       [ArgErr (Some x)])) evs) /\
      (forall evs' r',
          returns (stop os (fst r)) evs' r' ->
          calls evs' = [] /\ r' = (fst r, None))).
Proof.
  split; [intros e; apply exec_returns|].
  intros evs r R.
  pose proof (returns_wp _ _ _ _ (stop_wp os n) R) as P.
  assert (Hidle : running_pid (fst r) = None).
  { destruct P as [_ P]. destruct (running_pid n) eqn:E.
    - destruct P as [-> _]. reflexivity.
    - destruct P as [_ ->]. exact E. }
  split; [apply P|].
  split; [intros E; destruct P as [_ P]; rewrite E in P; exact P|].
  split; [intros E; destruct P as [_ P]; destruct (running_pid n);
          [destruct P as [-> _]; reflexivity|congruence]|].
  assert (Hcalls : forall ev, In ev evs -> is_log ev = false ->
            exists pid e1 e2 e3 sig,
              running_pid n = Some pid /\
              In ev (EvPipeClose PipeRX e1 :: sig
                       ++ [EvWgWait; EvCmdWait e2; EvPipeClose PipeTX e3]) /\
              match e1 with
              | None => sig = []
              | Some _ =>
                In (EvLog (logf_line (nodeNum n) "Unable to close piperx ends: %v"
                                     [ArgErr e1])) evs /\
                exists e4, sig = [EvSignal (hard_signal os) pid e4] /\
                  (e4 <> None ->
                   In (EvLog (debug_line "stop Signal error: %v" [ArgErr e4])) evs)
              end /\
              (e2 <> None ->
               In (EvLog (debug_line "stop cmd.Wait error: %v" [ArgErr e2])) evs) /\
              (e3 <> None ->
               In (EvLog (logf_line (nodeNum n) "Unable to close pipe TX: %v"
                                    [ArgErr e3])) evs)).
  { intros ev Hin L. pose proof (calls_In _ _ Hin L) as C.
    destruct P as [_ P]. destruct (running_pid n) as [pid|].
    - destruct P as (_ & e1 & e2 & e3 & sig & E & S & W & T).
      rewrite E in C. exists pid, e1, e2, e3, sig. auto.
    - destruct P as [E _]. rewrite E in C. destruct C. }
  repeat split.
  - intros x Hin.
    destruct (Hcalls _ Hin eq_refl) as (pid & e1 & e2 & e3 & sig & _ & C & S & W & T).
    destruct C as [C|C]; [injection C as ->; apply S|].
    destruct e1; [destruct S as (_ & e4 & -> & _)|subst sig];
      simpl in C; intuition discriminate.
  - intros x Hin.
    destruct (Hcalls _ Hin eq_refl) as (pid & e1 & e2 & e3 & sig & _ & C & S & W & T).
    destruct C as [C|C]; [discriminate C|].
    destruct e1; [destruct S as (_ & e4 & -> & _)|subst sig];
      simpl in C;
      repeat (destruct C as [C|C]; try discriminate C);
      try (injection C as ->; apply T; discriminate); try destruct C.
  - intros s pid' x Hin.
    destruct (Hcalls _ Hin eq_refl) as (pid & e1 & e2 & e3 & sig & _ & C & S & W & T).
    destruct C as [C|C]; [discriminate C|].
    destruct e1; [destruct S as (_ & e4 & -> & S)|subst sig];
      simpl in C;
      repeat (destruct C as [C|C]; try discriminate C);
      try (injection C as _ _ ->; apply S; discriminate); try destruct C.
  - intros x Hin.
    destruct (Hcalls _ Hin eq_refl) as (pid & e1 & e2 & e3 & sig & _ & C & S & W & T).
    destruct C as [C|C]; [discriminate C|].
    destruct e1; [destruct S as (_ & e4 & -> & S)|subst sig];
      simpl in C;
      repeat (destruct C as [C|C]; try discriminate C);
      try (injection C as ->; apply W; discriminate); try destruct C.
  - exact (proj1 (stop_post_idle _ _ _ _ Hidle (returns_wp _ _ _ _ (stop_wp os (fst r)) H))).
  - exact (proj2 (stop_post_idle _ _ _ _ Hidle (returns_wp _ _ _ _ (stop_wp os (fst r)) H))).
Qed.

Lemma stop_returns_nil_witness :
  snd (snd (exec env_failing (stop linux node1))) = None /\
  cmd (fst (snd (exec env_failing (stop linux node1)))) = None /\
  calls (fst (exec env_failing (stop linux node0))) = [].
Proof.
  destruct (stop_returns_nil linux node1) as [T H].
  destruct (H _ _ (T env_failing)) as (A & _ & B & _).
  destruct (stop_returns_nil linux node0) as [T0 H0].
  destruct (H0 _ _ (T0 env_failing)) as (_ & C & _).
  split; [exact A|]. split; [apply B; discriminate|].
  apply C. reflexivity.
Defined.

(** C6.  On a node with a running child, the first thing [stop] does
    (after its trace line) is to close the pipeRX pair, the pair the child
    reads for its termination signal.  It signals the process exactly when
    that close returned an error, once, with [os.Kill] when [runtime.GOOS]
    is "windows" and [os.Interrupt] otherwise; then come [wg.Wait],
    [cmd.Wait] and the close of the pipeTX pair. *)
Theorem stop_closes_then_signals (os : platform) (n : node) (pid : nat)
        (evs : list event) (r : node * option error) :
  running_pid n = Some pid ->
  returns (stop os n) evs r ->
  exists (e1 e2 e3 : option error) (sig : list event),
    calls evs = EvPipeClose PipeRX e1 :: sig
                  ++ [EvWgWait; EvCmdWait e2; EvPipeClose PipeTX e3] /\
    (e1 = None -> sig = []) /\
    (e1 <> None ->
     exists e4,
       sig = [EvSignal (if (GOOS os =? "windows")%string then Kill else Interrupt)
                       pid e4]).
Proof.
  intros E R.
  destruct (returns_wp _ _ _ _ (stop_wp os n) R) as [_ P].
  rewrite E in P. destruct P as (_ & e1 & e2 & e3 & sig & C & S & _).
  exists e1, e2, e3, sig. split; [exact C|].
  destruct e1 as [x|].
  - split; [discriminate|]. intros _.
    destruct S as (_ & e4 & -> & _). exists e4. reflexivity.
  - split; [intros _; exact S|]. intros N. elim N. reflexivity.
Qed.

Lemma stop_closes_then_signals_witness :
  calls (fst (exec env_failing (stop linux node1))) =
    [EvPipeClose PipeRX (Some (osError "close |1: file already closed"));
     EvSignal Interrupt 4242 (Some (osError "os: process already finished"));
     EvWgWait; EvCmdWait (Some (osError "exit status 1"));
     EvPipeClose PipeTX (Some (osError "close |1: file already closed"))] /\
  exists e1 e2 e3 sig,
    calls (fst (exec env_failing (stop windows node1))) =
      EvPipeClose PipeRX e1 :: sig ++ [EvWgWait; EvCmdWait e2; EvPipeClose PipeTX e3] /\
    (e1 <> None -> exists e4, sig = [EvSignal Kill 4242 e4]).
Proof.
  split; [reflexivity|].
  destruct (stop_closes_then_signals windows node1 4242 _ _ eq_refl
              (exec_returns (stop windows node1) env_failing))
    as (e1 & e2 & e3 & sig & C & _ & S).
  exists e1, e2, e3, sig. split; [exact C|exact S].
Defined.

(** ** start *)

Lemma In_rev_iff {A : Type} (x : A) (l : list A) : In x (rev l) <-> In x l.
Proof. symmetry. apply in_rev. Qed.

(** C10.  When [cmd.StderrPipe] or [cmd.StdoutPipe] fails, [start] returns
    that error without having called [cmd.Start], and a command that was
    nil stays nil; a [stop] that follows makes no call but its trace
    lines, leaves the node as it is and returns nil. *)
Theorem start_pipe_error (os : platform) (n : node) :
  cmd n = None ->
  (forall (v : env) (e : error),
      (snd (env_stderrPipe v) = Some e ->
       exec v (start os n)
       = ([EvStderrPipe (fst (env_stderrPipe v)) (Some e)],
          (set_stderr n (fst (env_stderrPipe v)), Some e))) /\
      (snd (env_stderrPipe v) = None -> snd (env_stdoutPipe v) = Some e ->
       exec v (start os n)
       = ([EvStderrPipe (fst (env_stderrPipe v)) None; EvGo TStderr;
           EvStdoutPipe (fst (env_stdoutPipe v)) (Some e)],
          (attached n (fst (env_stderrPipe v)) (fst (env_stdoutPipe v)), Some e)))) /\
  (forall (evs : list event) (r : node * option error) (e : error),
      returns (start os n) evs r ->
      (exists rc, In (EvStderrPipe rc (Some e)) evs) \/
      (exists rc, In (EvStdoutPipe rc (Some e)) evs) ->
      snd r = Some e /\
      (forall res, ~ In (EvCmdStart res) evs) /\
      cmd (fst r) = None /\
      (forall evs' r',
          returns (stop os (fst r)) evs' r' ->
          calls evs' = [] /\ r' = (fst r, None))).
Proof.
  intros N. split; [intros v e; apply exec_start_no_pipe|].
  intros evs r e R H.
  pose proof (returns_wp _ _ _ _ (start_wp os n) R) as P.
  assert (K : forall n', cmd n' = None ->
            forall evs' r', returns (stop os n') evs' r' ->
                            calls evs' = [] /\ r' = (n', None)).
  { intros n' C evs' r' R'.
    apply (stop_post_idle os n' evs' r'); [unfold running_pid; rewrite C; reflexivity|].
    exact (returns_wp _ _ _ _ (stop_wp os n') R'). }
  destruct P as [rc e'|rc rc' e'|rc rc' e' x y|rc rc' pid sevs n2 ce S|rc rc' pid p q].
  - assert (e' = e) as ->.
    { destruct H as [[rc0 [H|[]]]|[rc0 [H|[]]]]; [congruence|discriminate]. }
    simpl. split; [reflexivity|]. split; [|split; [exact N|apply K; exact N]].
    intros res [F|[]]. discriminate.
  - assert (e' = e) as ->.
    { destruct H as [[rc0 H]|[rc0 H]]; simpl in H;
        repeat (destruct H as [H|H]; try discriminate H); try congruence;
        destruct H. }
    simpl. split; [reflexivity|]. split; [|split; [exact N|apply K; exact N]].
    intros res F. simpl in F.
    repeat (destruct F as [F|F]; try discriminate F). destruct F.
  - exfalso. destruct H as [[rc0 H]|[rc0 H]]; simpl in H;
      repeat (destruct H as [H|H]; try discriminate H); destruct H.
  - exfalso.
    destruct H as [[rc0 H]|[rc0 H]];
      apply (ctx_path_In os (launched os n rc rc' pid) pid rc rc' sevs _ ce _ eq_refl S)
        in H; try reflexivity;
      (destruct H as [H|[(p & x & H)|[(s & x & H)|[H|(x & H)]]]];
       try discriminate H);
      simpl in H; repeat (destruct H as [H|H]; try discriminate H); destruct H.
  - exfalso. destruct H as [[rc0 H]|[rc0 H]]; simpl in H;
      repeat (destruct H as [H|H]; try discriminate H); destruct H.
Qed.

Lemma start_pipe_error_witness :
  snd (snd (exec env_no_pipe (start linux node0)))
  = Some (osError "pipe: too many open files") /\
  cmd (fst (snd (exec env_no_pipe (start linux node0)))) = None.
Proof.
  assert (H : (exists rc, In (EvStderrPipe rc (Some (osError "pipe: too many open files")))
                             (fst (exec env_no_pipe (start linux node0)))) \/
              (exists rc, In (EvStdoutPipe rc (Some (osError "pipe: too many open files")))
                             (fst (exec env_no_pipe (start linux node0))))).
  { left. exists None. simpl. left. reflexivity. }
  destruct (proj2 (start_pipe_error linux node0 eq_refl) _ _ _
              (exec_returns (start linux node0) env_no_pipe) H) as (A & _ & B & _).
  split; [exact A|exact B].
Defined.

(** C4.  When [cmd.Start] fails with [e], [start] returns (provided its
    calls do) after [wg.Wait], the close of the pipeTX pair and the close
    of the pipeRX pair, in this order, and its result is
    [fmt.Errorf("%w: %v", errDcrdCmdExec, e)].  In every run of the system
    in which [cmd.Start] fails with [e] and [start] has returned: these
    are the calls made after the launch and nothing else; both stream
    readers have returned and both pipe pairs are closed; [errors.Is]
    matches the result with [errDcrdCmdExec]; the node's command is left
    as it was. *)
Theorem start_exec_failure (os : platform) (n : node) (e : error) :
  (forall v : env,
      snd (env_stderrPipe v) = None -> snd (env_stdoutPipe v) = None ->
      env_cmdStart v = inr e ->
      exec v (start os n)
      = (launch (fst (env_stderrPipe v)) (fst (env_stdoutPipe v)) (inr e)
           ++ [EvWgWait; EvPipeClose PipeTX (env_pipeClose v PipeTX);
               EvPipeClose PipeRX (env_pipeClose v PipeRX)],
         (attached n (fst (env_stderrPipe v)) (fst (env_stdoutPipe v)),
          Some (Errorf_w_v errDcrdCmdExec e)))) /\
  (forall (wg0 : nat) (tx rx : bool) (ctx : option bool) (sched : list label)
          (st : sys (node * option error)) (r : node * option error),
      run sched (boot (entry (nodeNum n) wg0 tx rx ctx) (start os n)) = Some st ->
      pmain st = Ret r ->
      In (EvCmdStart (inr e)) (mtrace st) ->
      (exists rc rc' x y,
          rev (mtrace st) = launch rc rc' (inr e)
                              ++ [EvWgWait; EvPipeClose PipeTX x; EvPipeClose PipeRX y]) /\
      tStderr (sh st) = Some StDone /\
      tStdout (sh st) = Some StDone /\
      txOpen (sh st) = false /\
      rxOpen (sh st) = false /\
      snd r = Some (Errorf_w_v errDcrdCmdExec e) /\
      errors_Is (snd r) errDcrdCmdExec = true /\
      cmd (fst r) = cmd n).
Proof.
  split; [intros v; apply exec_start_no_binary|].
  intros wg0 tx rx ctx sched st r R E H.
  destruct (start_run _ _ _ _ _ _ _ _ _ _ R E) as [P I].
  apply In_rev_iff in H.
  remember (rev (mtrace st)) as evs eqn:T. symmetry in T.
  destruct P as [rc e'|rc rc' e'|rc rc' e' x y|rc rc' pid sevs n2 ce S|rc rc' pid p q].
  - exfalso. simpl in H.
    repeat (destruct H as [H|H]; try discriminate H); destruct H.
  - exfalso. simpl in H.
    repeat (destruct H as [H|H]; try discriminate H); destruct H.
  - assert (e' = e) as ->.
    { simpl in H. repeat (destruct H as [H|H]; try discriminate H);
        [congruence|destruct H]. }
    clear H.
    split; [exists rc, rc', x, y; reflexivity|].
    apply rev_eq_l in T. simpl in T.
    destruct I as [Iwg Ijoin Ige Igo Igi Ipipe _ _ _ _ _ _ _].
    rewrite T in *.
    destruct (Ijoin eq_refl) as [L1 L2].
    split; [apply stream_done; [apply Ige; simpl; tauto|exact L1]|].
    split; [apply stream_done; [apply Igo; simpl; tauto|exact L2]|].
    split; [apply (Ipipe PipeTX x); simpl; tauto|].
    split; [apply (Ipipe PipeRX y); simpl; tauto|].
    simpl. repeat split.
  - exfalso.
    apply (ctx_path_In os (launched os n rc rc' pid) pid rc rc' sevs _ ce _ eq_refl S)
      in H; [|reflexivity].
    destruct H as [H|[(p & x & H)|[(s & x & H)|[H|(x & H)]]]];
      try discriminate H.
    simpl in H. repeat (destruct H as [H|H]; try discriminate H); destruct H.
  - exfalso. simpl in H.
    repeat (destruct H as [H|H]; try discriminate H); destruct H.
Qed.

Lemma start_exec_failure_witness :
  exists st r,
    run sched_exec_fail sys0 = Some st /\ pmain st = Ret r /\
    tStderr (sh st) = Some StDone /\ tStdout (sh st) = Some StDone /\
    txOpen (sh st) = false /\ rxOpen (sh st) = false /\
    errors_Is (snd r) errDcrdCmdExec = true.
Proof.
  assert (R : exists st,
             run sched_exec_fail sys0 = Some st /\
             (exists r, pmain st = Ret r) /\
             In (EvCmdStart
                   (inr (osError "fork/exec /tmp/dcrd: no such file or directory")))
                (mtrace st)).
  { vm_compute. eexists. split; [reflexivity|]. split; [eexists; reflexivity|].
    simpl. tauto. }
  destruct R as (st & R & (r & E) & H).
  destruct (proj2 (start_exec_failure linux node0 _) 0 true true None _ st r R E H)
    as (_ & A & B & C & D & _ & F & _).
  exists st, r. repeat split; assumption.
Defined.

(** What a run of [start] that gives up on the context has done when it
    returns. *)
Lemma start_ctx_run (os : platform) (n : node) :
  (forall (wg0 : nat) (tx rx : bool) (ctx : option bool) (sched : list label)
          (st : sys (node * option error)) (r : node * option error),
      run sched (boot (entry (nodeNum n) wg0 tx rx ctx) (start os n)) = Some st ->
      pmain st = Ret r ->
      In (EvSelect CtxDone) (mtrace st) \/
      ((exists pid, In (EvCmdStart (inl pid)) (mtrace st)) /\
       gotSubsysAddrs (sh st) = false) ->
      exists rc rc' pid sevs d e1 e2 e3 sig,
        rev (mtrace st) = launch rc rc' (inl pid)
                            ++ EvSelect CtxDone :: sevs
                            ++ [EvCtxErr (Some (ctx_error d))] /\
        calls sevs = EvPipeClose PipeRX e1 :: sig
                       ++ [EvWgWait; EvCmdWait e2; EvPipeClose PipeTX e3] /\
        (e1 = None -> sig = []) /\
        (e1 <> None ->
         exists e4,
           sig = [EvSignal (if (GOOS os =? "windows")%string then Kill else Interrupt)
                           pid e4]) /\
        ctxDone (sh st) = Some (ctx_error d) /\
        r = (set_cmd (launched os n rc rc' pid) None,
             Some (fmtError ("context done while waiting for addrs: "
                               ++ error_string (ctx_error d))%string))).
Proof.
  intros wg0 tx rx ctx sched st r R E H.
  destruct (start_run _ _ _ _ _ _ _ _ _ _ R E) as [P I].
  assert (H' : In (EvSelect CtxDone) (rev (mtrace st)) \/
               ((exists pid, In (EvCmdStart (inl pid)) (rev (mtrace st))) /\
                ~ In (EvSelect GotSubsysAddrs) (rev (mtrace st)))).
  { destruct H as [H|[[pid H] G]].
    - left. apply In_rev_iff. exact H.
    - right. split; [exists pid; apply In_rev_iff; exact H|].
      intros F. apply (proj1 (In_rev_iff _ _)) in F.
      rewrite (inv_sel_got _ _ I F) in G. discriminate G. }
  clear H.
  remember (rev (mtrace st)) as evs eqn:T. symmetry in T.
  destruct P as [rc e'|rc rc' e'|rc rc' e' x y|rc rc' pid sevs n2 ce S|rc rc' pid p q].
  - exfalso. destruct H' as [H|[[pid' H] _]]; simpl in H;
      repeat (destruct H as [H|H]; try discriminate H); destruct H.
  - exfalso. destruct H' as [H|[[pid' H] _]]; simpl in H;
      repeat (destruct H as [H|H]; try discriminate H); destruct H.
  - exfalso. destruct H' as [H|[[pid' H] _]]; simpl in H;
      repeat (destruct H as [H|H]; try discriminate H); destruct H.
  - clear H'.
    pose proof S as [_ S'].
    change (running_pid (launched os n rc rc' pid)) with (Some pid) in S'.
    destruct S' as (N2 & e1 & e2 & e3 & sig & C & Sg & _).
    simpl in N2. subst n2.
    assert (M : mtrace st = EvCtxErr ce :: rev sevs
                              ++ EvSelect CtxDone :: rev (launch rc rc' (inl pid))).
    { apply rev_eq_l in T. rewrite T. apply rev_ctx_path. }
    assert (Sel : In (EvSelect CtxDone) (mtrace st)).
    { rewrite M. right. apply in_or_app. right. left. reflexivity. }
    assert (Ce : ce = ctxDone (sh st)).
    { pose proof (inv_after _ _ I) as A. rewrite M in A. destruct A as [A _].
      apply A. apply in_or_app. right. left. reflexivity. }
    destruct (inv_ctx _ _ I) as [Z|[d D]];
      [elim (inv_sel_ctx _ _ I Sel); exact Z|].
    rewrite D in Ce. subst ce.
    exists rc, rc', pid, sevs, d, e1, e2, e3, sig.
    split; [reflexivity|]. split; [exact C|].
    split; [intros ->; exact Sg|].
    split; [|split; [exact D|reflexivity]].
    intros N1. destruct e1 as [x1|]; [|elim N1; reflexivity].
    destruct Sg as (_ & e4 & -> & _). exists e4. reflexivity.
  - exfalso. destruct H' as [H|[_ H]].
    + simpl in H. repeat (destruct H as [H|H]; try discriminate H); destruct H.
    + apply H. simpl. tauto.
Qed.


(** C3.  When the child is launched and the [select] takes the
    [ctx.Done()] case, [start] returns (provided its calls do) after
    running [stop] on the launched node and reading [ctx.Err()].  In every
    run of the system in which the [select] takes that case (in particular
    in every run in which the child was launched and [gotSubsysAddrs] is
    still open when [start] returns) and [start] has returned: [start]
    ran the whole of [stop], that is the close of pipeRX, the signal if
    that close failed, [wg.Wait], [cmd.Wait] and the close of pipeTX,
    after which the command is nil; it then read [ctx.Err()], which is
    [context.Canceled] or [context.DeadlineExceeded], and returned the
    non-nil error whose text is "context done while waiting for addrs: "
    followed by the text of that error. *)
Theorem start_cancelled (os : platform) (n : node) :
  (forall (v : env) (pid : nat),
      snd (env_stderrPipe v) = None -> snd (env_stdoutPipe v) = None ->
      env_cmdStart v = inl pid -> env_select v = CtxDone ->
      let n1 := launched os n (fst (env_stderrPipe v)) (fst (env_stdoutPipe v)) pid in
      exec v (start os n)
      = (launch (fst (env_stderrPipe v)) (fst (env_stdoutPipe v)) (inl pid)
           ++ EvSelect CtxDone :: fst (exec v (stop os n1)) ++ [EvCtxErr (env_ctxErr v)],
         (set_cmd n1 None,
          Some (Errorf_v "context done while waiting for addrs: " (env_ctxErr v))))) /\
  (forall (wg0 : nat) (tx rx : bool) (ctx : option bool) (sched : list label)
          (st : sys (node * option error)) (r : node * option error),
      run sched (boot (entry (nodeNum n) wg0 tx rx ctx) (start os n)) = Some st ->
      pmain st = Ret r ->
      In (EvSelect CtxDone) (mtrace st) \/
      ((exists pid, In (EvCmdStart (inl pid)) (mtrace st)) /\
       gotSubsysAddrs (sh st) = false) ->
      exists rc rc' pid sevs d e1 e2 e3 sig,
        rev (mtrace st) = launch rc rc' (inl pid)
                            ++ EvSelect CtxDone :: sevs
                            ++ [EvCtxErr (Some (ctx_error d))] /\
        calls sevs = EvPipeClose PipeRX e1 :: sig
                       ++ [EvWgWait; EvCmdWait e2; EvPipeClose PipeTX e3] /\
        (e1 = None -> sig = []) /\
        (e1 <> None ->
         exists e4,
           sig = [EvSignal (if (GOOS os =? "windows")%string then Kill else Interrupt)
                           pid e4]) /\
        ctxDone (sh st) = Some (ctx_error d) /\
        r = (set_cmd (launched os n rc rc' pid) None,
             Some (fmtError ("context done while waiting for addrs: "
                               ++ error_string (ctx_error d))%string))).
Proof.
  split; [intros v pid; apply exec_start_cancel|].
  exact (start_ctx_run os n).
Qed.

Lemma start_cancelled_witness :
  exists st n',
    run sched_cancel sys0 = Some st /\
    pmain st = Ret (n', Some (fmtError
      "context done while waiting for addrs: context deadline exceeded")) /\
    cmd n' = None.
Proof.
  assert (R : exists st,
             run sched_cancel sys0 = Some st /\
             (exists r, pmain st = Ret r) /\
             In (EvSelect CtxDone) (mtrace st) /\
             ctxDone (sh st) = Some (ctx_error true)).
  { vm_compute. eexists. split; [reflexivity|]. split; [eexists; reflexivity|].
    split; [simpl; tauto|reflexivity]. }
  destruct R as (st & R & (r & E) & H & D).
  destruct (proj2 (start_cancelled linux node0) 0 true true None _ st r R E (or_introl H))
    as (rc & rc' & pid & sevs & d & e1 & e2 & e3 & sig & _ & _ & _ & _ & D' & ->).
  rewrite D in D'. injection D' as D'.
  exists st, (set_cmd (launched linux node0 rc rc' pid) None).
  split; [exact R|]. split; [|reflexivity].
  rewrite E. destruct d; [reflexivity|discriminate D'].
Defined.

(** ** The discovered addresses *)

Lemma stop_keeps_addrs (os : platform) (n : node) (evs : list event)
      (r : node * option error) :
  returns (stop os n) evs r ->
  p2pAddr (fst r) = p2pAddr n /\ rpcAddr (fst r) = rpcAddr n.
Proof.
  intros R. destruct (returns_wp _ _ _ _ (stop_wp os n) R) as [_ P].
  destruct (running_pid n); [destruct P as [-> _]|destruct P as [_ ->]];
    split; reflexivity.
Qed.

Lemma start_addrs (os : platform) (n : node) (wg0 : nat) (tx rx : bool)
      (ctx : option bool) (sched : list label)
      (st : sys (node * option error)) (n' : node) (err : option error) :
  run sched (boot (entry (nodeNum n) wg0 tx rx ctx) (start os n)) = Some st ->
  pmain st = Ret (n', err) ->
  match err with
  | None =>
    p2pAddr n' = varP2P (sh st) /\ rpcAddr n' = varRPC (sh st) /\
    p2pAddr n' <> "" /\ rpcAddr n' <> ""
  | Some _ => p2pAddr n' = p2pAddr n /\ rpcAddr n' = rpcAddr n
  end.
Proof.
  intros R E.
  destruct (start_run _ _ _ _ _ _ _ _ _ _ R E) as [P I].
  remember (rev (mtrace st)) as evs eqn:T. symmetry in T.
  remember (n', err) as r eqn:Er.
  destruct P as [rc e'|rc rc' e'|rc rc' e' x y|rc rc' pid sevs n2 ce S|rc rc' pid p q];
    injection Er as <- <-; try (split; reflexivity).
  - destruct S as [_ S]. 
    change (running_pid (launched os n rc rc' pid)) with (Some pid) in S.
    destruct S as [S _]. simpl in S. subst n2. split; reflexivity.
  - apply rev_eq_l in T. simpl in T.
    pose proof (inv_after _ _ I) as A. rewrite T in A.
    destruct A as (A1 & A2 & _). simpl in A1, A2.
    assert (G : gotSubsysAddrs (sh st) = true).
    { apply (inv_sel_got _ _ I). rewrite T. simpl. tauto. }
    destruct (inv_got _ _ I G) as (V1 & V2 & _).
    assert (Q1 : q = varRPC (sh st)) by (apply A1; tauto).
    assert (P1 : p = varP2P (sh st)) by (apply A2; tauto).
    subst p q. simpl. auto.
Qed.

(** C7 (amended).  A node made by [newNode] has both addresses empty.
    A [start] that fails leaves both addresses as they were; a [start]
    that succeeds assigns both, from the variables the IPC reader filled,
    and both are then non-empty; they are of the form host:port when every
    address the child reported is, and nothing checks that they are.
    [stop] and [shutdown] leave them as they are.  Hence after every call
    in the life of a node the two addresses are both empty or both
    non-empty. *)
Theorem addrs_both_or_neither (os : platform) :
  (forall config dataDir nodeNum,
      p2pAddr (fst (newNode config dataDir nodeNum)) = "" /\
      rpcAddr (fst (newNode config dataDir nodeNum)) = "") /\
  (forall n wg0 tx rx ctx sched (st : sys (node * option error)) n' err,
      run sched (boot (entry (nodeNum n) wg0 tx rx ctx) (start os n)) = Some st ->
      pmain st = Ret (n', err) ->
      match err with
      | None =>
        p2pAddr n' = varP2P (sh st) /\ rpcAddr n' = varRPC (sh st) /\
        p2pAddr n' <> "" /\ rpcAddr n' <> "" /\
        (reports_host_port sched ->
         is_host_port (p2pAddr n') = true /\ is_host_port (rpcAddr n') = true)
      | Some _ => p2pAddr n' = p2pAddr n /\ rpcAddr n' = rpcAddr n
      end) /\
  (forall n evs r,
      returns (stop os n) evs r \/ returns (shutdown os n) evs r ->
      p2pAddr (fst r) = p2pAddr n /\ rpcAddr (fst r) = rpcAddr n) /\
  (forall n, lifetime os n -> addrs_paired n).
Proof.
  split; [intros; split; reflexivity|].
  split.
  { intros n wg0 tx rx ctx sched st n' err R E.
    pose proof (start_addrs _ _ _ _ _ _ _ _ _ _ R E) as H.
    destruct err as [e|]; [exact H|].
    destruct H as (A & B & C & D). repeat split; auto.
    - assert (V : var_form (sh st)).
      { apply (var_form_run sched _ st H R). simpl. split; left; reflexivity. }
      destruct V as [[V|V] _]; congruence.
    - assert (V : var_form (sh st)).
      { apply (var_form_run sched _ st H R). simpl. split; left; reflexivity. }
      destruct V as [_ [V|V]]; congruence. }
  split.
  { intros n evs r [R|R].
    - exact (stop_keeps_addrs os n evs r R).
    - destruct (returns_wp _ _ _ _ (shutdown_wp os n) R) as (_ & A & B).
      split; assumption. }
  intros n L. induction L as [config dataDir nodeNum
                             |n wg0 tx rx ctx sched st n' err L IH R E
                             |n evs n' err L IH R
                             |n evs n' err L IH R].
  - left. split; reflexivity.
  - pose proof (start_addrs _ _ _ _ _ _ _ _ _ _ R E) as H.
    destruct err as [e|].
    + destruct H as [A B]. unfold addrs_paired. rewrite A, B. exact IH.
    + destruct H as (_ & _ & C & D). right. split; assumption.
  - destruct (stop_keeps_addrs os n evs _ R) as [A B]. simpl in A, B.
    unfold addrs_paired. rewrite A, B. exact IH.
  - destruct (returns_wp _ _ _ _ (shutdown_wp os n) R) as (_ & A & B).
    simpl in A, B. unfold addrs_paired. rewrite A, B. exact IH.
Qed.

Lemma addrs_both_or_neither_witness :
  exists st n',
    run sched_addrs sys0 = Some st /\ pmain st = Ret (n', None) /\
    p2pAddr n' = "127.0.0.1:19108" /\ rpcAddr n' = "127.0.0.1:19109" /\
    is_host_port (p2pAddr n') = true /\ is_host_port (rpcAddr n') = true /\
    addrs_paired n'.
Proof.
  assert (R : exists st n',
             run sched_addrs sys0 = Some st /\ pmain st = Ret (n', None) /\
             varP2P (sh st) = "127.0.0.1:19108" /\
             varRPC (sh st) = "127.0.0.1:19109").
  { vm_compute. eexists. eexists. split; [reflexivity|].
    split; [reflexivity|]. split; reflexivity. }
  destruct R as (st & n' & R & E & V1 & V2).
  destruct (addrs_both_or_neither linux) as (_ & S & _ & L).
  destruct (S node0 0 true true None sched_addrs st n' None R E)
    as (A & B & _ & _ & F).
  assert (H : reports_host_port sched_addrs).
  { intros l a Hin Hp. unfold sched_addrs in Hin. simpl in Hin.
    repeat (destruct Hin as [<-|Hin]; try discriminate Hp);
      try (injection Hp as <-; reflexivity).
    destruct Hin. }
  destruct (F H) as [F1 F2].
  exists st, n'. split; [exact R|]. split; [exact E|].
  split; [rewrite A; exact V1|]. split; [rewrite B; exact V2|].
  split; [exact F1|]. split; [exact F2|].
  apply L. apply (life_start linux node0 0 true true None sched_addrs st n' None).
  - apply life_new.
  - exact R.
  - exact E.
Defined.

(** C7, counterexample.  The addresses need not be of the form
    host:port, and they are not paired at every point.  They are copied
    from the events unchecked: a child that reports "x" and ":" makes
    [start] return nil with these, neither of the form host:port.  And
    inside a [start] that succeeds there is a point, after [n.p2pAddr] is
    assigned and before [n.rpcAddr] is, where one address is set and the
    other is empty. *)
Lemma addrs_not_always_host_port :
  (exists st n',
      run sched_bad_addrs sys0 = Some st /\ pmain st = Ret (n', None) /\
      p2pAddr n' = "x" /\ rpcAddr n' = ":" /\
      is_host_port (p2pAddr n') = false /\ is_host_port (rpcAddr n') = false) /\
  (exists st,
      run sched_first_assignment sys0 = Some st /\
      pmain st
      = ReadVar VarRPC
          (fun r => Ret (set_rpcAddr (set_p2pAddr node1 "127.0.0.1:19108") r, None)) /\
      p2pAddr (set_p2pAddr node1 "127.0.0.1:19108") = "127.0.0.1:19108" /\
      rpcAddr (set_p2pAddr node1 "127.0.0.1:19108") = "" /\
      ~ addrs_paired (set_p2pAddr node1 "127.0.0.1:19108")).
Proof.
  split.
  - vm_compute. eexists. eexists.
    split; [reflexivity|]. split; [reflexivity|].
    split; [reflexivity|]. split; [reflexivity|]. split; reflexivity.
  - eexists. split; [vm_compute; reflexivity|].
    split; [vm_compute; reflexivity|].
    split; [reflexivity|]. split; [reflexivity|].
    intros [[A _]|[_ B]]; [discriminate A|apply B; reflexivity].
Qed.

(** ** The goroutines of a start that fails *)

Lemma calls_sub (ev : event) (evs : list event) : In ev (calls evs) -> In ev evs.
Proof. unfold calls. intros H. apply filter_In in H. apply H. Qed.

(** A [start] that gives up on the context has, when it returns, joined
    both stream readers and closed both pipe pairs. *)
Lemma start_cancel_joins (os : platform) (n : node) (wg0 : nat) (tx rx : bool)
      (ctx : option bool) (sched : list label)
      (st : sys (node * option error)) (r : node * option error) :
  run sched (boot (entry (nodeNum n) wg0 tx rx ctx) (start os n)) = Some st ->
  pmain st = Ret r ->
  In (EvSelect CtxDone) (mtrace st) ->
  tStderr (sh st) = Some StDone /\ tStdout (sh st) = Some StDone /\
  txOpen (sh st) = false /\ rxOpen (sh st) = false.
Proof.
  intros R E H.
  destruct (start_ctx_run os n wg0 tx rx ctx sched st r R E (or_introl H))
    as (rc & rc' & pid & sevs & d & e1 & e2 & e3 & sig & T & C & _).
  assert (I : inv (sh st) (mtrace st)).
  { apply (inv_run sched (boot (entry (nodeNum n) wg0 tx rx ctx) (start os n)) st);
      [|exact R]. simpl. apply inv_entry. }
  apply rev_eq_l in T. rewrite rev_ctx_path in T.
  assert (J : joined (mtrace st) = true).
  { rewrite joined_calls, T. unfold calls. simpl.
    rewrite filter_app. fold (calls (rev sevs)). rewrite calls_rev, C.
    simpl. rewrite rev_app_distr. reflexivity. }
  assert (P : forall p e, In (EvPipeClose p e) (calls sevs) ->
                          In (EvPipeClose p e) (mtrace st)).
  { intros p e Hin. rewrite T. right. apply in_or_app. left.
    apply In_rev_iff. apply calls_sub. exact Hin. }
  destruct (inv_join _ _ I J) as [L1 L2].
  split; [apply stream_done; [apply (inv_go_stderr _ _ I)|exact L1]|].
  { rewrite T. right. apply in_or_app. right. simpl. tauto. }
  split; [apply stream_done; [apply (inv_go_stdout _ _ I)|exact L2]|].
  { rewrite T. right. apply in_or_app. right. simpl. tauto. }
  split.
  - apply (inv_pipe _ _ I PipeTX e3). apply P. rewrite C.
    right. apply in_or_app. right. simpl. tauto.
  - apply (inv_pipe _ _ I PipeRX e1). apply P. rewrite C. left. reflexivity.
Qed.

(** After both pipe pairs are closed the IPC reader returns at its next
    read. *)
Lemma ipc_after_close (s s' : shared) (pc pc' : ipcPc) (a : ipcAnswer) :
  txOpen s = false -> rxOpen s = false ->
  ipc_step s pc a = Some (s', pc') ->
  pc' = IpcDone \/ (pc = IpcBegin /\ pc' = IpcReadAddrs).
Proof.
  intros T X H. unfold ipc_step in H.
  destruct pc, a as [|p [msg|e]]; try discriminate H;
    try (injection H as <- <-; auto; fail);
    destruct p; try discriminate H; unfold readable, pipeOpen in H;
    rewrite ?T, ?X in H; try discriminate H;
    injection H as <- <-; auto.
Qed.

(** The IPC reader calls [nextIPCMessage] on pipeTX until both addresses
    are known, and on pipeRX from then on. *)
Lemma ipc_reads_order {A : Type} (p : proc A) (num : N) (wg0 : nat) (tx rx : bool)
      (ctx : option bool) (sched : list label) (st : sys A) :
  run sched (boot (entry num wg0 tx rx ctx) p) = Some st ->
  exists m k,
    rev (ipcReads (sh st)) = repeat PipeTX k ++ repeat PipeRX m /\
    (gotSubsysAddrs (sh st) = false -> m = 0).
Proof.
  intros R.
  assert (I : inv (sh st) (mtrace st)).
  { apply (inv_run sched (boot (entry num wg0 tx rx ctx) p) st); [|exact R].
    simpl. apply inv_entry. }
  destruct (inv_reads _ _ I) as (m & k & E & Z).
  exists m, k. split; [|exact Z].
  rewrite E, rev_app_distr, !rev_repeat. reflexivity.
Qed.

(** C1 (fails on the code).  Runs of [start] that end in an error: the
    binary cannot be executed; the context's deadline passes before any
    address arrives.  In both, when [start] has returned the stream
    readers have returned and both pipe pairs are closed, but the IPC
    reader, which is not in the wait group, is still alive.  In a third
    run the stdout pipe cannot be made: [start] returns at once, the
    stderr reader is parked at its [select] and both pipe pairs are
    open. *)
Theorem start_failure_leaves_ipc_reader :
  (exists st r,
      run sched_exec_fail sys0 = Some st /\ pmain st = Ret r /\
      errors_Is (snd r) errDcrdCmdExec = true /\
      tStderr (sh st) = Some StDone /\ tStdout (sh st) = Some StDone /\
      txOpen (sh st) = false /\ rxOpen (sh st) = false /\
      tIpc (sh st) = Some IpcBegin /\ ipcLive (tIpc (sh st)) = true) /\
  (exists st r,
      run sched_cancel sys0 = Some st /\ pmain st = Ret r /\
      snd r = Some (fmtError
        "context done while waiting for addrs: context deadline exceeded") /\
      tStderr (sh st) = Some StDone /\ tStdout (sh st) = Some StDone /\
      txOpen (sh st) = false /\ rxOpen (sh st) = false /\
      tIpc (sh st) = Some IpcReadAddrs /\ ipcLive (tIpc (sh st)) = true) /\
  (exists st r,
      run sched_no_stdout sys0 = Some st /\ pmain st = Ret r /\
      snd r = Some (osError "pipe: too many open files") /\
      tStderr (sh st) = Some StSelect /\ streamLive (tStderr (sh st)) = true /\
      txOpen (sh st) = true /\ rxOpen (sh st) = true).
Proof.
  split; [|split]; vm_compute; eexists; eexists; repeat split.
Qed.

(** C2 (fails on the code).  Once the IPC reader has seen both bound
    addresses on pipeTX it is in its drain loop, and the drain loop calls
    [nextIPCMessage] on the read end of pipeRX: no further message is ever
    read from pipeTX, the pipe that carried the events. *)
Theorem ipc_drain_reads_pipeRX :
  exists st,
    run sched_discover sys0 = Some st /\
    gotSubsysAddrs (sh st) = true /\
    tIpc (sh st) = Some IpcDrain /\
    ipcReads (sh st) = [PipeTX; PipeTX] /\
    (forall res, sys_step st (LIpc (NextIPCMessage PipeTX res)) = None) /\
    (exists st',
        sys_step st (LIpc (NextIPCMessage PipeRX (inl otherIPCMessage))) = Some st' /\
        tIpc (sh st') = Some IpcDrain /\
        ipcReads (sh st') = [PipeRX; PipeTX; PipeTX]).
Proof.
  eexists. split; [vm_compute; reflexivity|].
  split; [reflexivity|]. split; [reflexivity|]. split; [reflexivity|].
  split; [intros res; reflexivity|].
  eexists. split; [vm_compute; reflexivity|]. split; reflexivity.
Qed.

(** ** genCertPair *)

Lemma owner_only_0600 (u : N) : owner_only (N.ldiff perm_0600 u) = true.
Proof.
  unfold owner_only. apply N.eqb_eq. apply N.bits_inj. intros k.
  rewrite N.land_spec, N.ldiff_spec, N.bits_0.
  change perm_0600 with (N.shiftl 6 6).
  change (7 * 8 + 7)%N with (N.ones 6).
  destruct (N.ltb_spec k 6) as [L|L].
  - rewrite N.shiftl_spec_low by exact L. reflexivity.
  - rewrite N.ones_spec_high by exact L. apply andb_false_r.
Qed.

Lemma fs_del_same (f : fs) (name : string) : fs_del f name name = None.
Proof. unfold fs_del. rewrite String.eqb_refl. reflexivity. Qed.

(** C9 (amended).  Whatever the outside answers, [genCertPair] writes
    the certificate with mode 0644 (readable by everyone) and the key with
    mode 0600 (nothing for group and others), in this order.  When both
    writes succeed it returns nil, and files it had to create hold the
    certificate and the key with these modes less the umask.  When the key
    write fails it calls [os.Remove] on the certificate file and returns
    the error of the write.  The result of the removal is dropped: when it
    succeeds no file is left at the certificate path, and when it fails
    the whole certificate stays there. *)
Theorem genCertPair_modes_and_cleanup (e : certEnv) (f : fs) (certFile keyFile : string)
        (f' : fs) (cs : list fsCall) (err : option error) :
  genCertPair e f certFile keyFile = (f', cs, err) ->
  world_readable perm_0644 = true /\ owner_only perm_0600 = true /\
  (forall name data perm,
      In (CallWriteFile name data perm) cs ->
      (name = certFile /\ perm = perm_0644) \/ (name = keyFile /\ perm = perm_0600)) /\
  (forall cert key,
      NewTLSCertPair e P521 "dcrdtest autogenerated cert"
                     (time_Now e + 10 * 365 * 24 * time_Hour)%Z [] = inl (cert, key) ->
      writeCert e = WriteOk ->
      (writeKey e = WriteOk ->
       err = None /\
       cs = [CallWriteFile certFile cert perm_0644;
             CallWriteFile keyFile key perm_0600] /\
       (f certFile = None -> f keyFile = None -> certFile <> keyFile ->
        f' certFile = Some {| contents := cert; mode := N.ldiff perm_0644 (umask e) |} /\
        f' keyFile = Some {| contents := key; mode := N.ldiff perm_0600 (umask e) |} /\
        owner_only (N.ldiff perm_0600 (umask e)) = true)) /\
      (forall x,
          write_error (writeKey e) = Some x ->
          err = Some x /\
          cs = [CallWriteFile certFile cert perm_0644;
                CallWriteFile keyFile key perm_0600;
                CallRemove certFile] /\
          (removeCert e = None -> f' certFile = None) /\
          (forall re,
              removeCert e = Some re -> certFile <> keyFile ->
              exists m, f' certFile = Some {| contents := cert; mode := m |}))).
Proof.
  unfold genCertPair. intros H.
  split; [reflexivity|]. split; [reflexivity|].
  destruct (NewTLSCertPair e P521 "dcrdtest autogenerated cert"
              (time_Now e + 10 * 365 * 24 * time_Hour)%Z []) as [[cert key]|ge] eqn:G.
  2: { injection H as <- <- <-. split; [intros ? ? ? []|]. intros ? ? F. discriminate F. }
  split.
  - unfold os_WriteFile, os_Remove in H.
    destruct (writeCert e), (writeKey e), (removeCert e); simpl in H;
      injection H as <- <- <-; intros name data perm Hin; simpl in Hin;
      repeat (destruct Hin as [Hin|Hin];
              [try discriminate Hin; injection Hin as <- <- <-; auto|]);
      destruct Hin.
  - intros cert' key' G' WC. injection G' as <- <-.
    unfold os_WriteFile in H. rewrite WC in H. simpl in H.
    split.
    + intros WK. rewrite WK in H. simpl in H. injection H as <- <- <-.
      split; [reflexivity|]. split; [reflexivity|].
      intros Fc Fk Ne. unfold fs_put. rewrite Fc.
      destruct (String.eqb_spec certFile keyFile) as [Q|Q]; [contradiction|].
      rewrite !String.eqb_refl.
      destruct (String.eqb_spec keyFile certFile) as [Q'|Q']; [congruence|].
      rewrite Fk.
      split; [reflexivity|]. split; [reflexivity|apply owner_only_0600].
    + intros x WK. unfold os_Remove in H.
      destruct (writeKey e) as [|x'|k x']; simpl in WK; try discriminate WK;
        injection WK as ->; simpl in H;
        destruct (removeCert e) as [re|]; injection H as <- <- <-;
        (split; [reflexivity|]); (split; [reflexivity|]);
        (split;
         [intros F; try discriminate F; apply fs_del_same
         |intros re' F Ne;
          first [discriminate F
                |unfold fs_put; rewrite ?String.eqb_refl;
                 destruct (String.eqb_spec certFile keyFile) as [Q|Q];
                 [contradiction|eexists; reflexivity]]]).
Qed.

Lemma genCertPair_modes_and_cleanup_witness :
  snd (genCertPair certEnv_disk_full fs_empty "rpc.cert" "rpc.key")
  = Some (osError "write rpc.key: no space left on device") /\
  fst (fst (genCertPair certEnv_disk_full fs_empty "rpc.cert" "rpc.key")) "rpc.cert"
  = None.
Proof.
  destruct (genCertPair certEnv_disk_full fs_empty "rpc.cert" "rpc.key")
    as [[f' cs] err] eqn:G.
  destruct (genCertPair_modes_and_cleanup _ _ _ _ _ _ _ G) as (_ & _ & _ & H).
  destruct (H _ _ eq_refl eq_refl) as [_ K].
  destruct (K _ eq_refl) as (A & _ & B & _).
  split; [exact A|exact (B eq_refl)].
Defined.

(** C9, counterexample.  A failed call can leave a certificate file.
    When the key write and the removal both fail, the call returns the
    error of the write, has called [os.Remove], and the whole certificate
    is still there.  When the certificate write itself fails half way,
    the call returns its error at once and the part written stays. *)
Lemma genCertPair_leaves_certificate :
  (snd (genCertPair certEnv_remove_fails fs_empty "rpc.cert" "rpc.key")
   = Some (osError "write rpc.key: no space left on device") /\
   snd (fst (genCertPair certEnv_remove_fails fs_empty "rpc.cert" "rpc.key"))
   = [CallWriteFile "rpc.cert" [x2d; x2d; x43]%byte perm_0644;
      CallWriteFile "rpc.key" [x2d; x2d; x4b]%byte perm_0600;
      CallRemove "rpc.cert"] /\
   fst (fst (genCertPair certEnv_remove_fails fs_empty "rpc.cert" "rpc.key")) "rpc.cert"
   = Some {| contents := [x2d; x2d; x43]%byte; mode := N.ldiff perm_0644 18 |}) /\
  (snd (genCertPair certEnv_cert_partial fs_empty "rpc.cert" "rpc.key")
   = Some (osError "write rpc.cert: no space left on device") /\
   snd (fst (genCertPair certEnv_cert_partial fs_empty "rpc.cert" "rpc.key"))
   = [CallWriteFile "rpc.cert" [x2d; x2d; x43]%byte perm_0644] /\
   fst (fst (genCertPair certEnv_cert_partial fs_empty "rpc.cert" "rpc.key")) "rpc.cert"
   = Some {| contents := [x2d; x2d]%byte; mode := N.ldiff perm_0644 18 |}).
Proof.
  split; (split; [reflexivity|]); split; reflexivity.
Qed.

(** * Further properties of the code *)

(** ** The argument list, continued *)

Lemma filter_appendIfSet (P : string -> bool) (args : list string) (flag v : string) :
  filter P (appendIfSet args flag v)
  = filter P args ++ (if (v =? "")%string then []
                      else if P (flag ++ v)%string then [(flag ++ v)%string] else []).
Proof.
  unfold appendIfSet. destruct (v =? "")%string.
  - symmetry. apply app_nil_r.
  - rewrite filter_app. simpl. destruct (P (flag ++ v)%string); reflexivity.
Qed.

Lemma prefix_empty (s : string) : String.prefix "" s = true.
Proof. destruct s; reflexivity. Qed.

Lemma if_same_nil (b : bool) : (if b then @nil string else []) = [].
Proof. destruct b; reflexivity. Qed.

(** X1.  The part of the argument list that [arguments] builds before the
    OS-specific arguments holds, for each optional field, no argument
    starting with its flag when the field is empty and exactly one, the
    flag followed by the field, when it is not. *)
Theorem arguments_optional_flags (os : platform) (n : nodeConfig) :
  exists base,
    arguments os n = base ++ osNodeArgs os n ++ "--boundaddrevents" :: extra n /\
    forall flag v,
      In (flag, v) (optional_flags n) ->
      filter (String.prefix flag) base
      = if (v =? "")%string then [] else [(flag ++ v)%string].
Proof.
  unfold arguments. cbv zeta.
  match goal with
  | |- exists _, (appendOSNodeArgs _ _ ?b ++ _) ++ _ = _ /\ _ => exists b
  end.
  split.
  - unfold appendOSNodeArgs. rewrite <- !app_assoc. reflexivity.
  - intros flag v H. unfold optional_flags in H. simpl in H.
    repeat (destruct H as [H|H]; [injection H as <- <-|]); try destruct H;
      repeat (rewrite ?filter_app, ?filter_appendIfSet; simpl);
      rewrite ?prefix_empty, ?if_same_nil, ?app_nil_r; simpl; try reflexivity;
      destruct (_ =? "")%string; reflexivity.
Qed.

Lemma arguments_optional_flags_witness :
  exists base,
    arguments linux cfg0 = base ++ ["--pipetx=4"; "--piperx=5"; "--boundaddrevents"; "--simnet"] /\
    filter (String.prefix "--rpcconnect=") base = [] /\
    filter (String.prefix "--listen=") base = ["--listen=127.0.0.1:0"].
Proof.
  destruct (arguments_optional_flags linux cfg0) as (base & E & H).
  exists base. split; [exact E|]. split.
  - apply (H "--rpcconnect=" ""). simpl. tauto.
  - apply (H "--listen=" "127.0.0.1:0"). simpl. tauto.
Defined.

(** ** newConfig *)

(** X2.  [newConfig] returns a configuration exactly when both pipe pairs
    can be made and the certificate file can be read: when they can it
    returns one, with no error, holding the two pairs and the bytes read;
    and a configuration is returned in no other case.  A failure to make a
    pipe pair is reported as a new error that keeps only the text of the
    cause, whatever the second pair would have been when the first
    fails; a failure to read the certificate is returned as it is. *)
Theorem newConfig_outcomes (e : configEnv) (f : fs) (prefix certFile keyFile : string)
        (extra : list string) :
  (forall x, newIPCPipePair e true false = inr x ->
             newConfig e f prefix certFile keyFile extra
             = (None, Some (fmtError ("unable to create pipe for dcrd IPC: "
                                        ++ error_string x)%string))) /\
  (forall tx x, newIPCPipePair e true false = inl tx ->
                newIPCPipePair e false true = inr x ->
                newConfig e f prefix certFile keyFile extra
                = (None, Some (fmtError ("unable to create pipe for dcrd IPC: "
                                           ++ error_string x)%string))) /\
  (forall tx rx x, newIPCPipePair e true false = inl tx ->
                   newIPCPipePair e false true = inl rx ->
                   os_ReadFile (readFails e) f certFile = inr x ->
                   newConfig e f prefix certFile keyFile extra = (None, Some x)) /\
  (forall a, fst (newConfig e f prefix certFile keyFile extra) = Some a ->
             snd (newConfig e f prefix certFile keyFile extra) = None /\
             newIPCPipePair e true false = inl (pipeTX a) /\
             newIPCPipePair e false true = inl (pipeRX a) /\
             exists cert, os_ReadFile (readFails e) f certFile = inl cert /\
                          certificates a = string_of_list_byte cert) /\
  (forall tx rx cert,
      newIPCPipePair e true false = inl tx ->
      newIPCPipePair e false true = inl rx ->
      os_ReadFile (readFails e) f certFile = inl cert ->
      exists a, newConfig e f prefix certFile keyFile extra = (Some a, None) /\
                pipeTX a = tx /\ pipeRX a = rx /\
                certificates a = string_of_list_byte cert).
Proof.
  unfold newConfig, setDefaults.
  split; [intros x ->; reflexivity|].
  split; [intros tx x -> ->; reflexivity|].
  split; [intros tx rx x -> ->; simpl; intros ->; reflexivity|].
  split;
    [|intros tx rx cert -> ->; simpl; intros ->; eexists;
      split; [reflexivity|]; split; [reflexivity|]; split; reflexivity].
  intros a H. repeat split.
  - revert H.
    destruct (newIPCPipePair e true false); [|discriminate].
    destruct (newIPCPipePair e false true); [|discriminate].
    simpl. destruct (os_ReadFile (readFails e) f certFile); [|discriminate].
    reflexivity.
  - revert H.
    destruct (newIPCPipePair e true false); [|discriminate].
    destruct (newIPCPipePair e false true); [|discriminate].
    simpl. destruct (os_ReadFile (readFails e) f certFile); [|discriminate].
    simpl. intros H. injection H as <-. reflexivity.
  - revert H.
    destruct (newIPCPipePair e true false); [|discriminate].
    destruct (newIPCPipePair e false true); [|discriminate].
    simpl. destruct (os_ReadFile (readFails e) f certFile); [|discriminate].
    simpl. intros H. injection H as <-. reflexivity.
  - revert H.
    destruct (newIPCPipePair e true false); [|discriminate].
    destruct (newIPCPipePair e false true); [|discriminate].
    simpl. destruct (os_ReadFile (readFails e) f certFile) as [cert|]; [|discriminate].
    simpl. intros H. injection H as <-. exists cert. split; reflexivity.
Qed.

Lemma newConfig_outcomes_witness :
  newConfig configEnv0 fs_empty "/tmp/n" "rpc.cert" "rpc.key" []
  = (None, Some (osError "open rpc.cert: no such file or directory")) /\
  exists a,
    newConfig configEnv0 fs_old_key "/tmp/n" "rpc.key" "rpc.key" [] = (Some a, None) /\
    pipeTX a = {| r := 3; w := 4 |} /\ pipeRX a = {| r := 5; w := 6 |}.
Proof.
  split.
  - destruct (newConfig_outcomes configEnv0 fs_empty "/tmp/n" "rpc.cert" "rpc.key" [])
      as (_ & _ & H & _).
    apply (H {| r := 3; w := 4 |} {| r := 5; w := 6 |}); reflexivity.
  - destruct (newConfig_outcomes configEnv0 fs_old_key "/tmp/n" "rpc.key" "rpc.key" [])
      as (_ & _ & _ & _ & H).
    destruct (H {| r := 3; w := 4 |} {| r := 5; w := 6 |} [] eq_refl eq_refl eq_refl)
      as (a & A & B & C & _).
    exists a. split; [exact A|]. split; assumption.
Defined.

(** X3.  The command line of a configuration made by [newConfig], when
    [filepath.Join] gives non-empty directories: the default credentials
    and listen addresses, the certificate and key paths, [--txindex], the
    data and log directories under the prefix, [--allowunsyncedmining],
    the OS-specific arguments, [--boundaddrevents] and then the caller's
    extra arguments; no [--rpcconnect], [--profile] or [--debuglevel]. *)
Theorem newConfig_arguments (os : platform) (e : configEnv) (f : fs)
        (prefix certFile keyFile : string) (extra : list string) (a : nodeConfig) :
  newConfig e f prefix certFile keyFile extra = (Some a, None) ->
  filepath_Join e prefix "data" <> "" ->
  filepath_Join e prefix "logs" <> "" ->
  arguments os a
  = [ "--rpcuser=user"; "--rpcpass=pass"; "--listen=127.0.0.1:0";
      "--rpclisten=127.0.0.1:0";
      ("--rpccert=" ++ certFile)%string; ("--rpckey=" ++ keyFile)%string;
      "--txindex";
      ("--datadir=" ++ filepath_Join e prefix "data")%string;
      ("--logdir=" ++ filepath_Join e prefix "logs")%string;
      "--allowunsyncedmining" ]
    ++ osNodeArgs os a ++ "--boundaddrevents" :: extra.
Proof.
  unfold newConfig, setDefaults. intros H D L.
  destruct (newIPCPipePair e true false); [|discriminate H].
  destruct (newIPCPipePair e false true); [|discriminate H].
  simpl in H. destruct (os_ReadFile (readFails e) f certFile); [|discriminate H].
  injection H as <-.
  unfold arguments, appendOSNodeArgs, appendIfSet. simpl.
  apply String.eqb_neq in D. apply String.eqb_neq in L. rewrite D, L.
  simpl. rewrite <- !app_assoc. reflexivity.
Qed.

Lemma newConfig_arguments_witness :
  exists a,
    newConfig configEnv0 (fs_put fs_empty "rpc.cert" {| contents := []; mode := perm_0644 |})
              "/tmp/n" "rpc.cert" "rpc.key" ["--simnet"] = (Some a, None) /\
    arguments linux a
    = [ "--rpcuser=user"; "--rpcpass=pass"; "--listen=127.0.0.1:0";
        "--rpclisten=127.0.0.1:0"; "--rpccert=rpc.cert"; "--rpckey=rpc.key";
        "--txindex"; "--datadir=/tmp/n/data"; "--logdir=/tmp/n/logs";
        "--allowunsyncedmining"; "--pipetx=4"; "--piperx=5";
        "--boundaddrevents"; "--simnet" ].
Proof.
  eexists. split; [reflexivity|].
  apply (newConfig_arguments linux configEnv0
           (fs_put fs_empty "rpc.cert" {| contents := []; mode := perm_0644 |})
           "/tmp/n" "rpc.cert" "rpc.key" ["--simnet"] _ eq_refl); discriminate.
Defined.

(** ** genCertPair, continued *)

Lemma fs_put_other (f : fs) (name q : string) (x : file) :
  q <> name -> fs_put f name x q = f q.
Proof.
  intros N. unfold fs_put. apply String.eqb_neq in N. rewrite N. reflexivity.
Qed.

Lemma fs_put_same (f : fs) (name : string) (x : file) : fs_put f name x name = Some x.
Proof. unfold fs_put. rewrite String.eqb_refl. reflexivity. Qed.

Lemma fs_del_other (f : fs) (name q : string) : q <> name -> fs_del f name q = f q.
Proof.
  intros N. unfold fs_del. apply String.eqb_neq in N. rewrite N. reflexivity.
Qed.

(** X4.  [genCertPair] touches no file other than the two it is given;
    it leaves the file system as it was when the certificate cannot be
    generated or the certificate file cannot be opened; and it makes no
    call on the file system after a failed certificate write: the key is
    not written and a partly written certificate is left in place. *)
Theorem genCertPair_frame (e : certEnv) (f : fs) (certFile keyFile : string)
        (f' : fs) (cs : list fsCall) (err : option error) :
  genCertPair e f certFile keyFile = (f', cs, err) ->
  (forall q, q <> certFile -> q <> keyFile -> f' q = f q) /\
  (forall x, NewTLSCertPair e P521 "dcrdtest autogenerated cert"
                            (time_Now e + 10 * 365 * 24 * time_Hour)%Z [] = inr x ->
             f' = f /\ cs = [] /\ err = Some x) /\
  (forall cert key,
      NewTLSCertPair e P521 "dcrdtest autogenerated cert"
                     (time_Now e + 10 * 365 * 24 * time_Hour)%Z [] = inl (cert, key) ->
      (forall x, writeCert e = WriteFailsOpen x ->
                 f' = f /\ cs = [CallWriteFile certFile cert perm_0644] /\ err = Some x) /\
      (forall k x, writeCert e = WriteFailsPartial k x ->
                   cs = [CallWriteFile certFile cert perm_0644] /\ err = Some x /\
                   exists m, f' certFile = Some {| contents := firstn k cert; mode := m |})).
Proof.
  unfold genCertPair. intros H.
  destruct (NewTLSCertPair e P521 "dcrdtest autogenerated cert"
              (time_Now e + 10 * 365 * 24 * time_Hour)%Z []) as [[cert key]|ge] eqn:G.
  2: { injection H as <- <- <-. split; [reflexivity|]. split.
       - intros x E. injection E as <-. repeat split.
       - intros ? ? E. discriminate E. }
  split; [|split].
  - intros q Nc Nk. unfold os_WriteFile, os_Remove in H.
    destruct (writeCert e), (writeKey e), (removeCert e); simpl in H;
      injection H as <- _ _;
      rewrite ?fs_del_other, ?fs_put_other by assumption; reflexivity.
  - intros x E. discriminate E.
  - intros cert' key' E. injection E as <- <-. split.
    + intros x W. unfold os_WriteFile in H. rewrite W in H. simpl in H.
      injection H as <- <- <-. repeat split.
    + intros k x W. unfold os_WriteFile in H. rewrite W in H. simpl in H.
      injection H as <- <- <-. split; [reflexivity|]. split; [reflexivity|].
      eexists. apply fs_put_same.
Qed.

Lemma genCertPair_frame_witness :
  fst (fst (genCertPair certEnv_disk_full fs_old_key "rpc.cert" "rpc.key")) "dcrd.conf"
  = None.
Proof.
  destruct (genCertPair certEnv_disk_full fs_old_key "rpc.cert" "rpc.key")
    as [[f' cs] err] eqn:G.
  destruct (genCertPair_frame _ _ _ _ _ _ _ G) as (H & _).
  simpl. rewrite H; [reflexivity|discriminate|discriminate].
Defined.

(** X5.  [genCertPair] does not change the mode of a file that is already
    there: after a call that succeeds, a key file that existed keeps the
    permissions it had, whatever they were, and holds the key that
    [certgen.NewTLSCertPair] generated in this call. *)
Theorem genCertPair_keeps_old_mode (e : certEnv) (f : fs) (certFile keyFile : string)
        (f' : fs) (cs : list fsCall) (old : file) :
  genCertPair e f certFile keyFile = (f', cs, None) ->
  certFile <> keyFile ->
  f keyFile = Some old ->
  exists cert key,
    NewTLSCertPair e P521 "dcrdtest autogenerated cert"
                   (time_Now e + 10 * 365 * 24 * time_Hour)%Z [] = inl (cert, key) /\
    In (CallWriteFile keyFile key perm_0600) cs /\
    f' keyFile = Some {| contents := key; mode := mode old |}.
Proof.
  unfold genCertPair. intros H N K.
  destruct (NewTLSCertPair e P521 "dcrdtest autogenerated cert"
              (time_Now e + 10 * 365 * 24 * time_Hour)%Z []) as [[cert key]|ge];
    [|discriminate H].
  unfold os_WriteFile, os_Remove in H.
  assert (K' : forall x, fs_put f certFile x keyFile = Some old).
  { intros x. rewrite fs_put_other; [exact K|congruence]. }
  destruct (writeCert e); simpl in H; try discriminate H;
    destruct (writeKey e); simpl in H; try discriminate H;
    try (destruct (removeCert e); discriminate H).
  injection H as <- <-. rewrite K'. exists cert, key.
  split; [reflexivity|]. split; [simpl; tauto|apply fs_put_same].
Qed.

Lemma genCertPair_keeps_old_mode_witness :
  exists key,
    fst (fst (genCertPair certEnv_ok fs_old_key "rpc.cert" "rpc.key")) "rpc.key"
    = Some {| contents := key; mode := perm_0644 |} /\
    owner_only perm_0644 = false.
Proof.
  destruct (genCertPair certEnv_ok fs_old_key "rpc.cert" "rpc.key")
    as [[f' cs] err] eqn:G.
  assert (E : err = None) by (vm_compute in G; congruence). subst err.
  destruct (genCertPair_keeps_old_mode _ _ _ _ _ _
              {| contents := []; mode := perm_0644 |} G) as (cert & key & _ & _ & H).
  - discriminate.
  - reflexivity.
  - exists key. split; [exact H|reflexivity].
Defined.

(** X6.  The certificate [genCertPair] wrote is the one [newConfig] loads:
    after a successful [genCertPair] on two different paths, a [newConfig]
    on the same paths whose pipes can be made and whose read does not fail
    returns a configuration holding the generated certificate.  When the
    two paths are the same the file holds the key, and that is what is
    loaded. *)
Theorem genCertPair_then_newConfig (ce : certEnv) (e : configEnv) (f f' : fs)
        (certFile keyFile prefix : string) (extra : list string) (cs : list fsCall)
        (tx rx : ipcPipePair) :
  genCertPair ce f certFile keyFile = (f', cs, None) ->
  newIPCPipePair e true false = inl tx ->
  newIPCPipePair e false true = inl rx ->
  readFails e = None ->
  exists cert key a,
    NewTLSCertPair ce P521 "dcrdtest autogenerated cert"
                   (time_Now ce + 10 * 365 * 24 * time_Hour)%Z [] = inl (cert, key) /\
    newConfig e f' prefix certFile keyFile extra = (Some a, None) /\
    certificates a = string_of_list_byte (if (certFile =? keyFile)%string then key else cert).
Proof.
  unfold genCertPair. intros H T R F.
  destruct (NewTLSCertPair ce P521 "dcrdtest autogenerated cert"
              (time_Now ce + 10 * 365 * 24 * time_Hour)%Z []) as [[cert key]|ge];
    [|discriminate H].
  assert (C : exists m, f' certFile
                        = Some {| contents := if (certFile =? keyFile)%string
                                              then key else cert;
                                  mode := m |}).
  { unfold os_WriteFile, os_Remove in H.
    destruct (writeCert ce); simpl in H; try discriminate H;
      destruct (writeKey ce); simpl in H; try discriminate H;
      try (destruct (removeCert ce); discriminate H).
    injection H as <- _. unfold fs_put at 1.
    destruct (certFile =? keyFile)%string; [eexists; reflexivity|].
    rewrite fs_put_same. eexists. reflexivity. }
  destruct C as [m C].
  exists cert, key. unfold newConfig, setDefaults, os_ReadFile.
  rewrite T, R, F. simpl. rewrite C. simpl.
  eexists. split; [reflexivity|]. split; reflexivity.
Qed.

Lemma genCertPair_then_newConfig_witness :
  exists a,
    newConfig configEnv0
              (fst (fst (genCertPair certEnv_ok fs_empty "rpc.cert" "rpc.key")))
              "/tmp/n" "rpc.cert" "rpc.key" [] = (Some a, None) /\
    certificates a = "--C".
Proof.
  destruct (genCertPair certEnv_ok fs_empty "rpc.cert" "rpc.key")
    as [[f' cs] err] eqn:G.
  assert (E : err = None) by (vm_compute in G; congruence). subst err.
  destruct (genCertPair_then_newConfig certEnv_ok configEnv0 fs_empty f'
              "rpc.cert" "rpc.key" "/tmp/n" [] cs _ _ G eq_refl eq_refl eq_refl)
    as (cert & key & a & N & C & D).
  exists a. split; [exact C|]. rewrite D. simpl in N. injection N as <- <-.
  reflexivity.
Defined.

(** ** start and stop, continued *)

Lemma length_append (s t : string) :
  String.length (s ++ t)%string = String.length s + String.length t.
Proof. induction s as [|c s IH]; simpl; [reflexivity|]. rewrite IH. reflexivity. Qed.

Lemma wrap_not_cause (e : error) :
  wrapError (error_string errDcrdCmdExec ++ ": " ++ error_string e)%string errDcrdCmdExec
  <> e.
Proof.
  intros E.
  apply (f_equal (fun x => String.length (error_string x))) in E.
  cbn [error_string] in E. rewrite !length_append in E. simpl in E. lia.
Qed.

(** X7.  What [errors.Is] can tell about the error of a failed [start].
    When [cmd.Start] failed with [e], the error matches [errDcrdCmdExec]
    and does not match [e]: the cause survives only as text.  When the
    [select] took the [ctx.Done()] case, the error matches neither
    [context.Canceled] nor [context.DeadlineExceeded]. *)
Theorem start_error_matching (os : platform) (n : node) (evs : list event)
        (r : node * option error) :
  returns (start os n) evs r ->
  (forall e, In (EvCmdStart (inr e)) evs ->
             errors_Is (snd r) errDcrdCmdExec = true /\
             (e <> errDcrdCmdExec -> errors_Is (snd r) e = false)) /\
  (In (EvSelect CtxDone) evs ->
   errors_Is (snd r) contextCanceled = false /\
   errors_Is (snd r) contextDeadlineExceeded = false).
Proof.
  intros R.
  pose proof (returns_wp _ _ _ _ (start_wp os n) R) as P.
  destruct P as [rc e'|rc rc' e'|rc rc' e' x y|rc rc' pid sevs n2 ce S|rc rc' pid p q].
  - split; [intros e H|intros H]; exfalso; simpl in H;
      repeat (destruct H as [H|H]; try discriminate H); destruct H.
  - split; [intros e H|intros H]; exfalso; simpl in H;
      repeat (destruct H as [H|H]; try discriminate H); destruct H.
  - split.
    + intros e H. assert (e' = e) as ->.
      { simpl in H. repeat (destruct H as [H|H]; try discriminate H);
          [congruence|destruct H]. }
      split; [reflexivity|]. intros N.
      unfold snd, errors_Is, Errorf_w_v. cbn [errors_Is_nn].
      destruct (error_eq_dec (wrapError _ errDcrdCmdExec) e) as [E|_];
        [elim (wrap_not_cause e E)|].
      destruct (error_eq_dec errDcrdCmdExec e) as [E|_]; [congruence|reflexivity].
    + intros H. exfalso. simpl in H.
      repeat (destruct H as [H|H]; try discriminate H); destruct H.
  - split; [|intros _; split; reflexivity].
    intros e H. exfalso.
    apply (ctx_path_In os (launched os n rc rc' pid) pid rc rc' sevs _ ce _ eq_refl S)
      in H; [|reflexivity].
    destruct H as [H|[(p & x & H)|[(s & x & H)|[H|(x & H)]]]];
      try discriminate H.
    simpl in H. repeat (destruct H as [H|H]; try discriminate H); destruct H.
  - split; [intros e H|intros H]; exfalso; simpl in H;
      repeat (destruct H as [H|H]; try discriminate H); destruct H.
Qed.

Lemma start_error_matching_witness :
  errors_Is (snd (snd (exec env_failing (start linux node0)))) contextDeadlineExceeded
  = false.
Proof.
  destruct (start_error_matching linux node0 _ _
              (exec_returns (start linux node0) env_failing)) as [_ H].
  apply H. vm_compute. tauto.
Defined.



(** X9.  After any [start] that fails on a node whose command was nil,
    the command is still nil, whatever made it fail (a stream pipe, the
    exec, the context), so the [stop] that follows makes no call but its
    trace lines and returns nil: a failed [start] has already done all the
    tearing down there will be. *)
Theorem failed_start_then_stop (os : platform) (n : node) (evs evs' : list event)
        (n' : node) (e : error) (r' : node * option error) :
  cmd n = None ->
  returns (start os n) evs (n', Some e) ->
  returns (stop os n') evs' r' ->
  cmd n' = None /\ calls evs' = [] /\ r' = (n', None).
Proof.
  intros N R R'.
  pose proof (returns_wp _ _ _ _ (start_wp os n) R) as P.
  assert (C : cmd n' = None).
  { remember (n', Some e) as r eqn:Er.
    destruct P as [rc e'|rc rc' e'|rc rc' e' x y|rc rc' pid sevs n2 ce S|rc rc' pid p q];
      injection Er as <- ?; try exact N; try discriminate.
    destruct S as [_ S].
    change (running_pid (launched os n rc rc' pid)) with (Some pid) in S.
    destruct S as [S _]. simpl in S. subst n2. reflexivity. }
  split; [exact C|].
  apply (stop_post_idle os n' evs' r').
  - unfold running_pid. rewrite C. reflexivity.
  - exact (returns_wp _ _ _ _ (stop_wp os n') R').
Qed.

Lemma failed_start_then_stop_witness :
  calls (fst (exec env_failing
                   (stop linux (fst (snd (exec env_failing (start linux node0))))))) = [].
Proof.
  destruct (exec env_failing (start linux node0)) as [evs [n' err]] eqn:E.
  assert (R : returns (start linux node0) evs (n', err)).
  { pose proof (exec_returns (start linux node0) env_failing) as R.
    rewrite E in R. exact R. }
  assert (Er : exists e, err = Some e).
  { vm_compute in E. injection E as _ _ <-. eexists. reflexivity. }
  destruct Er as [e ->].
  destruct (failed_start_then_stop linux node0 evs _ n' e _ eq_refl R
              (exec_returns (stop linux n') env_failing)) as (_ & C & _).
  exact C.
Defined.

Opaque stop.

(** X10.  [shutdown] is [stop] between two trace lines: against any
    environment it makes the calls of [stop], framed by "shutdown" and
    "shutdown done", and returns what [stop] returns, which is nil; the
    branch that would log and return an error of [stop] is never
    taken. *)
Theorem shutdown_is_stop (os : platform) (n : node) (v : env) :
  exec v (shutdown os n)
  = (EvLog (trace_line "shutdown" [])
       :: fst (exec v (stop os n)) ++ [EvLog (trace_line "shutdown done" [])],
     snd (exec v (stop os n))) /\
  snd (snd (exec v (shutdown os n))) = None /\
  calls (fst (exec v (shutdown os n))) = calls (fst (exec v (stop os n))).
Proof.
  assert (E : exec v (shutdown os n)
              = (EvLog (trace_line "shutdown" [])
                   :: fst (exec v (stop os n)) ++ [EvLog (trace_line "shutdown done" [])],
                 snd (exec v (stop os n)))).
  { unfold shutdown. simpl. rewrite !exec_bind.
    pose proof (wp_exec _ _ v (stop_wp os n)) as [P _].
    destruct (exec v (stop os n)) as [sevs [n2 ce]]. simpl in P. subst ce.
    simpl. rewrite <- app_assoc. reflexivity. }
  split; [exact E|]. rewrite E. simpl.
  pose proof (wp_exec _ _ v (stop_wp os n)) as [P _].
  split; [exact P|].
  unfold calls. rewrite filter_app. simpl. apply app_nil_r.
Qed.

Transparent stop.

(** ** The addresses start records *)

Lemma addr_step {A : Type} (st st' : sys A) (l : label) :
  sys_step st l = Some st' ->
  (varP2P (sh st'), varRPC (sh st'))
  = addr_update (varP2P (sh st), varRPC (sh st)) l.
Proof.
  intros H. destruct l as [a|a|a|a|d|]; simpl in H.
  - destruct (proc_step (pmain st) a) as [[ev p']|]; [|discriminate H].
    destruct (on_event (sh st) ev) as [s'|] eqn:E; [|discriminate H].
    injection H as <-. simpl.
    destruct ev; simpl in E;
      repeat match type of E with
             | (if ?c then _ else _) = _ => destruct c
             | match ?t with _ => _ end = _ => destruct t
             end;
      try discriminate E; injection E as <-; try reflexivity;
      destruct p; reflexivity.
  - destruct (tStderr (sh st)) as [pc|]; [|discriminate H].
    destruct (stream_step "stderr" (sh st) pc a) as [[s' pc']|] eqn:E; [|discriminate H].
    injection H as <-. simpl. unfold stream_step in E.
    destruct pc, a; try discriminate E;
      repeat match type of E with
             | (if ?c then _ else _) = _ => destruct c
             end;
      try discriminate E; injection E as <- <-; reflexivity.
  - destruct (tStdout (sh st)) as [pc|]; [|discriminate H].
    destruct (stream_step "stdout" (sh st) pc a) as [[s' pc']|] eqn:E; [|discriminate H].
    injection H as <-. simpl. unfold stream_step in E.
    destruct pc, a; try discriminate E;
      repeat match type of E with
             | (if ?c then _ else _) = _ => destruct c
             end;
      try discriminate E; injection E as <- <-; reflexivity.
  - destruct (tIpc (sh st)) as [pc|]; [|discriminate H].
    destruct (ipc_step (sh st) pc a) as [[s' pc']|] eqn:E; [|discriminate H].
    injection H as <-. simpl. unfold ipc_step in E.
    destruct pc, a as [|p [msg|e]]; try discriminate E;
      try (injection E as <- <-; reflexivity);
      destruct p; try discriminate E;
      match type of E with
      | (if ?c then _ else _) = _ => destruct c; [|discriminate E]
      end;
      try (injection E as <- <-; reflexivity).
    destruct msg as [x|x|]; simpl in E;
      repeat match type of E with
             | (if ?c then _ else _) = _ => destruct c
             end;
      try discriminate E; injection E as <- <-; reflexivity.
  - destruct (is_nil (ctxDone (sh st))); [|discriminate H].
    injection H as <-. reflexivity.
  - destruct (wgOther (sh st)); [discriminate H|].
    injection H as <-. reflexivity.
Qed.

Lemma addr_run {A : Type} (sched : list label) :
  forall (st st' : sys A),
    run sched st = Some st' ->
    (varP2P (sh st'), varRPC (sh st'))
    = fold_left addr_update sched (varP2P (sh st), varRPC (sh st)).
Proof.
  induction sched as [|l sched IH]; simpl; intros st st' H.
  - injection H as <-. reflexivity.
  - destruct (sys_step st l) as [st1|] eqn:E; [|discriminate H].
    rewrite (IH _ _ H), (addr_step _ _ _ E). reflexivity.
Qed.

Lemma start_addrs_vars (os : platform) (n : node) (wg0 : nat) (tx rx : bool)
      (ctx : option bool) (sched : list label)
      (st : sys (node * option error)) (n' : node) :
  run sched (boot (entry (nodeNum n) wg0 tx rx ctx) (start os n)) = Some st ->
  pmain st = Ret (n', None) ->
  (p2pAddr n', rpcAddr n') = reported sched /\ p2pAddr n' <> "" /\ rpcAddr n' <> "".
Proof.
  intros R E.
  destruct (start_addrs _ _ _ _ _ _ _ _ _ _ R E) as (A & B & C & D).
  split; [|split; assumption].
  rewrite A, B. exact (addr_run sched _ st R).
Qed.

(** X11.  The addresses a successful [start] records are the ones the
    child reported last: the P2P address of the last
    [boundP2PListenAddrEvent] and the RPC address of the last
    [boundRPCListenAddrEvent] read from pipeTX, in whatever order and
    however often they came, other messages being skipped; both are
    non-empty (an event with an empty address does not end the wait). *)
Theorem start_records_reported (os : platform) (n : node) (wg0 : nat) (tx rx : bool)
        (ctx : option bool) (sched : list label)
        (st : sys (node * option error)) (n' : node) :
  run sched (boot (entry (nodeNum n) wg0 tx rx ctx) (start os n)) = Some st ->
  pmain st = Ret (n', None) ->
  p2pAddr n' = fst (reported sched) /\
  rpcAddr n' = snd (reported sched) /\
  p2pAddr n' <> "" /\ rpcAddr n' <> "".
Proof.
  intros R E.
  destruct (start_addrs_vars _ _ _ _ _ _ _ _ _ R E) as (A & C & D).
  rewrite <- A. simpl. auto.
Qed.

Lemma start_records_reported_witness :
  exists st n',
    run sched_relisten sys0 = Some st /\ pmain st = Ret (n', None) /\
    p2pAddr n' = "127.0.0.1:19555" /\ rpcAddr n' = "127.0.0.1:19109".
Proof.
  assert (R : exists st n',
             run sched_relisten sys0 = Some st /\ pmain st = Ret (n', None)).
  { vm_compute. eexists. eexists. split; reflexivity. }
  destruct R as (st & n' & R & E).
  destruct (start_records_reported linux node0 0 true true None _ st n' R E)
    as (A & B & _).
  exists st, n'. split; [exact R|]. split; [exact E|].
  split; [rewrite A|rewrite B]; reflexivity.
Defined.

(** X12.  The connection descriptor of a node: after a successful [start]
    its host is the RPC address the child reported last, and its endpoint,
    user, password and certificates are those of the configuration the
    node was made with; [stop] and [shutdown] change none of its fields,
    so a stopped node still gives the address of the process that is
    gone. *)
Theorem rpcConnConfig_of_node (os : platform) (n : node) :
  (forall wg0 tx rx ctx sched (st : sys (node * option error)) n',
      run sched (boot (entry (nodeNum n) wg0 tx rx ctx) (start os n)) = Some st ->
      pmain st = Ret (n', None) ->
      rpcConnConfig n'
      = {| Host := snd (reported sched);
           Endpoint := endpoint (config n);
           User := rpcUser (config n);
           Pass := rpcPass (config n);
           Certificates := certificates (config n) |} /\
      Host (rpcConnConfig n') <> "") /\
  (forall evs r,
      returns (stop os n) evs r \/ returns (shutdown os n) evs r ->
      rpcConnConfig (fst r) = rpcConnConfig n).
Proof.
  split.
  - intros wg0 tx rx ctx sched st n' R E.
    destruct (start_addrs_vars _ _ _ _ _ _ _ _ _ R E) as (A & _ & D).
    assert (C : config n' = config n).
    { destruct (run_path _ _ _ R) as (ans & evs & P & _). simpl in P.
      rewrite E in P.
      pose proof (wp_runs _ _ (start_wp os n) _ _ _ P) as S.
      remember (n', @None error) as r eqn:Er.
      destruct S as [rc e'|rc rc' e'|rc rc' e' x y|rc rc' pid sevs n2 ce S|rc rc' pid p q];
        try discriminate Er.
      injection Er as <-. reflexivity. }
    unfold rpcConnConfig. rewrite C. split; [|exact D].
    f_equal. rewrite <- A. reflexivity.
  - intros evs r [R|R].
    + destruct (returns_wp _ _ _ _ (stop_wp os n) R) as [_ P].
      destruct (running_pid n); [destruct P as [-> _]|destruct P as [_ ->]];
        reflexivity.
    + assert (W : wp (shutdown os n) (fun _ r => rpcConnConfig (fst r) = rpcConnConfig n)).
      { unfold shutdown. simpl. apply wp_bind. apply wp_bind.
        eapply wp_mono; [|apply stop_wp].
        intros sevs [n2 err] [N P]. simpl in N. subst err. simpl.
        destruct (running_pid n); [destruct P as [P _]|destruct P as [_ P]];
          simpl in P; subst n2; reflexivity. }
      exact (returns_wp _ _ _ _ W R).
Qed.

Lemma rpcConnConfig_of_node_witness :
  exists st n',
    run sched_addrs sys0 = Some st /\ pmain st = Ret (n', None) /\
    rpcConnConfig n'
    = {| Host := "127.0.0.1:19109"; Endpoint := "ws"; User := "user";
         Pass := "pass"; Certificates := "" |}.
Proof.
  assert (R : exists st n',
             run sched_addrs sys0 = Some st /\ pmain st = Ret (n', None)).
  { vm_compute. eexists. eexists. split; reflexivity. }
  destruct R as (st & n' & R & E).
  destruct (proj1 (rpcConnConfig_of_node linux node0) 0 true true None _ st n' R E)
    as [A _].
  exists st, n'. split; [exact R|]. split; [exact E|]. rewrite A. reflexivity.
Defined.

(** ** start followed by stop *)

Lemma all_after_app_r (s : shared) (a b : list event) :
  all_after s (a ++ b) -> all_after s b.
Proof.
  induction a as [|ev a IH]; simpl; [auto|]. intros [_ H]. auto.
Qed.

Lemma start_then_stop_wp (os : platform) (n : node) :
  wp (start_then_stop os n)
     (fun evs r =>
        exists evs1 sevs r1 r2,
          evs = evs1 ++ sevs /\ start_path os n evs1 r1 /\
          stop_post os (fst r1) sevs r2 /\
          r = (fst r2, snd r1, snd r2)).
Proof.
  unfold start_then_stop. apply wp_bind.
  eapply wp_mono; [|apply start_wp].
  intros evs1 r1 P1. apply wp_bind.
  eapply wp_mono; [|apply stop_wp].
  intros sevs r2 P2. simpl.
  exists evs1, sevs, r1, r2. rewrite app_nil_r. auto.
Qed.

(** X13.  A node that is started with success and then stopped: in every
    run, when [stop] has returned it returned nil, the command is nil,
    both stream readers have returned, both pipe pairs are closed, and the
    node still carries the two addresses the child reported, both
    non-empty.  The IPC reader has either returned or is in its drain
    loop. *)
Theorem start_then_stop_run (os : platform) (n : node) (wg0 : nat) (tx rx : bool)
        (ctx : option bool) (sched : list label)
        (st : sys (node * option error * option error))
        (n2 : node) (e2 : option error) :
  run sched (boot (entry (nodeNum n) wg0 tx rx ctx) (start_then_stop os n)) = Some st ->
  pmain st = Ret (n2, None, e2) ->
  e2 = None /\ cmd n2 = None /\
  tStderr (sh st) = Some StDone /\ tStdout (sh st) = Some StDone /\
  txOpen (sh st) = false /\ rxOpen (sh st) = false /\
  (p2pAddr n2, rpcAddr n2) = reported sched /\
  p2pAddr n2 <> "" /\ rpcAddr n2 <> "" /\
  (tIpc (sh st) = Some IpcDrain \/ tIpc (sh st) = Some IpcDone).
Proof.
  intros R E.
  destruct (run_wp _ _ _ _ _ _ (start_then_stop_wp os n) R E)
    as (evs1 & sevs & r1 & r2 & T & P1 & P2 & Er).
  assert (I : inv (sh st) (mtrace st)).
  { apply (inv_run sched (boot (entry (nodeNum n) wg0 tx rx ctx)
                               (start_then_stop os n)) st); [|exact R].
    simpl. apply inv_entry. }
  injection Er as -> S1 ->.
  destruct P1 as [rc e'|rc rc' e'|rc rc' e' x y|rc rc' pid sevs' n3 ce S|rc rc' pid p q];
    try discriminate S1. clear S1.
  destruct P2 as [N2 P2]. simpl fst in P2.
  change (running_pid _) with (Some pid) in P2.
  destruct P2 as (F & e1 & e3 & e4 & sig & C & _).
  apply rev_eq_l in T. rewrite rev_app_distr in T.
  assert (J : joined (mtrace st) = true).
  { rewrite joined_calls, T. unfold calls. rewrite filter_app.
    fold (calls (rev sevs)). rewrite calls_rev, C.
    simpl. rewrite rev_app_distr. reflexivity. }
  assert (P : forall pp e, In (EvPipeClose pp e) (calls sevs) ->
                           In (EvPipeClose pp e) (mtrace st)).
  { intros pp e Hin. rewrite T. apply in_or_app. left.
    apply In_rev_iff. apply calls_sub. exact Hin. }
  assert (L : forall ev, In ev (rev (launch rc rc' (inl pid)
                                       ++ [EvSelect GotSubsysAddrs; EvReadVar VarP2P p;
                                           EvReadVar VarRPC q])) ->
                         In ev (mtrace st)).
  { intros ev Hin. rewrite T. apply in_or_app. right. exact Hin. }
  assert (G : gotSubsysAddrs (sh st) = true).
  { apply (inv_sel_got _ _ I). apply L. simpl. tauto. }
  destruct (inv_got _ _ I G) as (V1 & V2 & V3).
  pose proof (inv_after _ _ I) as A. rewrite T in A.
  apply all_after_app_r in A. simpl in A. destruct A as (A1 & A2 & _).
  assert (Q1 : q = varRPC (sh st)) by (apply A1; tauto).
  assert (Q2 : p = varP2P (sh st)) by (apply A2; tauto).
  destruct (inv_join _ _ I J) as [L1 L2].
  split; [exact N2|]. rewrite F. simpl.
  split; [reflexivity|].
  split; [apply stream_done; [apply (inv_go_stderr _ _ I); apply L; simpl; tauto|exact L1]|].
  split; [apply stream_done; [apply (inv_go_stdout _ _ I); apply L; simpl; tauto|exact L2]|].
  split.
  { apply (inv_pipe _ _ I PipeTX e4). apply P. rewrite C.
    right. apply in_or_app. right. simpl. tauto. }
  split.
  { apply (inv_pipe _ _ I PipeRX e1). apply P. rewrite C. left. reflexivity. }
  subst p q.
  split; [exact (addr_run sched _ st R)|].
  split; [exact V1|]. split; [exact V2|exact V3].
Qed.

Lemma start_then_stop_run_witness :
  exists st n2,
    run sched_start_stop
        (boot (entry (nodeNum node0) 0 true true None) (start_then_stop linux node0))
    = Some st /\
    pmain st = Ret (n2, None, None) /\
    cmd n2 = None /\ rpcAddr n2 = "127.0.0.1:19109" /\
    tStderr (sh st) = Some StDone /\ rxOpen (sh st) = false.
Proof.
  assert (R : exists st n2,
             run sched_start_stop
                 (boot (entry (nodeNum node0) 0 true true None)
                       (start_then_stop linux node0)) = Some st /\
             pmain st = Ret (n2, None, None) /\ rpcAddr n2 = "127.0.0.1:19109").
  { vm_compute. eexists. eexists. split; [reflexivity|]. split; reflexivity. }
  destruct R as (st & n2 & R & E & A).
  destruct (start_then_stop_run linux node0 0 true true None _ st n2 None R E)
    as (_ & C & S & _ & _ & X & _).
  exists st, n2. repeat split; assumption.
Defined.

(** ** A start that cannot succeed *)

Lemma run_app {A : Type} (s1 s2 : list label) :
  forall (st : sys A),
    run (s1 ++ s2) st
    = match run s1 st with
      | None => None
      | Some st1 => run s2 st1
      end.
Proof.
  induction s1 as [|l s1 IH]; simpl; intros st; [reflexivity|].
  destruct (sys_step st l); [apply IH|reflexivity].
Qed.

Lemma ipc_gone_step {A : Type} (st st' : sys A) (l : label) :
  sys_step st l = Some st' ->
  tIpc (sh st) = Some IpcDone -> gotSubsysAddrs (sh st) = false ->
  tIpc (sh st') = Some IpcDone /\ gotSubsysAddrs (sh st') = false.
Proof.
  intros H T G. destruct l as [a|a|a|a|d|]; simpl in H.
  - destruct (proc_step (pmain st) a) as [[ev p']|]; [|discriminate H].
    destruct (on_event (sh st) ev) as [s'|] eqn:E; [|discriminate H].
    injection H as <-. simpl.
    destruct ev; simpl in E; try rewrite T in E; try rewrite G in E; simpl in E;
      repeat match type of E with
             | (if ?c then _ else _) = _ => destruct c
             | match ?t with _ => _ end = _ => destruct t
             end;
      try discriminate E; injection E as <-; simpl; auto.
    destruct p; simpl; auto.
  - destruct (tStderr (sh st)) as [pc|]; [|discriminate H].
    destruct (stream_step "stderr" (sh st) pc a) as [[s' pc']|] eqn:E; [|discriminate H].
    injection H as <-. simpl. unfold stream_step in E.
    destruct pc, a; try discriminate E;
      repeat match type of E with
             | (if ?c then _ else _) = _ => destruct c
             end;
      try discriminate E; injection E as <- <-; simpl; auto.
  - destruct (tStdout (sh st)) as [pc|]; [|discriminate H].
    destruct (stream_step "stdout" (sh st) pc a) as [[s' pc']|] eqn:E; [|discriminate H].
    injection H as <-. simpl. unfold stream_step in E.
    destruct pc, a; try discriminate E;
      repeat match type of E with
             | (if ?c then _ else _) = _ => destruct c
             end;
      try discriminate E; injection E as <- <-; simpl; auto.
  - rewrite T in H. simpl in H. destruct a; discriminate H.
  - destruct (is_nil (ctxDone (sh st))); [|discriminate H].
    injection H as <-. simpl. auto.
  - destruct (wgOther (sh st)); [discriminate H|].
    injection H as <-. simpl. auto.
Qed.

Lemma ipc_gone_run {A : Type} (sched : list label) :
  forall (st st' : sys A),
    run sched st = Some st' ->
    tIpc (sh st) = Some IpcDone -> gotSubsysAddrs (sh st) = false ->
    tIpc (sh st') = Some IpcDone /\ gotSubsysAddrs (sh st') = false.
Proof.
  induction sched as [|l sched IH]; simpl; intros st st' H T G.
  - injection H as <-. auto.
  - destruct (sys_step st l) as [st1|] eqn:E; [|discriminate H].
    destruct (ipc_gone_step _ _ _ E T G) as [T1 G1].
    exact (IH _ _ H T1 G1).
Qed.

(** X14.  Once the IPC reader has returned without having seen both
    addresses (a read on pipeTX failed first), [gotSubsysAddrs] is never
    closed: whatever happens next, [start] cannot succeed, and if it
    returns it returns an error. *)
Theorem start_after_ipc_failure (os : platform) (n : node) (wg0 : nat) (tx rx : bool)
        (ctx : option bool) (sched1 sched2 : list label)
        (st1 st2 : sys (node * option error)) (r : node * option error) :
  run sched1 (boot (entry (nodeNum n) wg0 tx rx ctx) (start os n)) = Some st1 ->
  tIpc (sh st1) = Some IpcDone ->
  gotSubsysAddrs (sh st1) = false ->
  run sched2 st1 = Some st2 ->
  gotSubsysAddrs (sh st2) = false /\
  (pmain st2 = Ret r -> snd r <> None /\ p2pAddr (fst r) = p2pAddr n
                        /\ rpcAddr (fst r) = rpcAddr n).
Proof.
  intros R1 T G R2.
  destruct (ipc_gone_run _ _ _ R2 T G) as [_ G2].
  split; [exact G2|]. intros E.
  assert (R : run (sched1 ++ sched2)
                  (boot (entry (nodeNum n) wg0 tx rx ctx) (start os n)) = Some st2).
  { rewrite run_app, R1. exact R2. }
  destruct r as [n' err].
  pose proof (start_addrs _ _ _ _ _ _ _ _ _ _ R E) as H.
  destruct err as [e|].
  - split; [discriminate|exact H].
  - exfalso.
    destruct (start_run _ _ _ _ _ _ _ _ _ _ R E) as [P I].
    remember (rev (mtrace st2)) as evs eqn:Tr. symmetry in Tr.
    remember (n', @None error) as r eqn:Er.
    destruct P as [rc e'|rc rc' e'|rc rc' e' x y|rc rc' pid sevs n3 ce S|rc rc' pid p q];
      try discriminate Er.
    assert (Hin : In (EvSelect GotSubsysAddrs) (mtrace st2)).
    { apply In_rev_iff. rewrite Tr. apply in_or_app. right. left. reflexivity. }
    rewrite (inv_sel_got _ _ I Hin) in G2. discriminate G2.
Qed.

Lemma start_after_ipc_failure_witness :
  exists st1 st2 r,
    run sched_ipc_fails sys0 = Some st1 /\
    run (skipn 10 sched_cancel) st1 = Some st2 /\
    pmain st2 = Ret r /\ snd r <> None.
Proof.
  assert (R : exists st1 st2 r,
             run sched_ipc_fails sys0 = Some st1 /\
             tIpc (sh st1) = Some IpcDone /\
             gotSubsysAddrs (sh st1) = false /\
             run (skipn 10 sched_cancel) st1 = Some st2 /\
             pmain st2 = Ret r).
  { vm_compute. eexists. eexists. eexists.
    split; [reflexivity|]. split; [reflexivity|]. split; [reflexivity|].
    split; reflexivity. }
  destruct R as (st1 & st2 & r & R1 & T & G & R2 & E).
  destruct (start_after_ipc_failure linux node0 0 true true None _ _ st1 st2 r R1 T G R2)
    as [_ H].
  exists st1, st2, r. split; [exact R1|]. split; [exact R2|]. split; [exact E|].
  apply H. exact E.
Defined.

(** ** The readers and the launch *)

Lemma runs_app {A : Type} (ans ans' : list answer) :
  forall (p q q' : proc A) (evs evs' : list event),
    runs p ans = Some (evs, q) -> runs q ans' = Some (evs', q') ->
    runs p (ans ++ ans') = Some (evs ++ evs', q').
Proof.
  induction ans as [|a ans IH]; simpl; intros p q q' evs evs' H H'.
  - injection H as <- <-. exact H'.
  - destruct (proc_step p a) as [[ev p1]|]; [|discriminate H].
    destruct (runs p1 ans) as [[evs1 q1]|] eqn:E; [|discriminate H].
    injection H as <- <-.
    rewrite (IH _ _ _ _ _ E H'). reflexivity.
Qed.

(** The calls made so far, at any point of any run, are the beginning of
    a path on which the program returns. *)
Lemma run_prefix {A : Type} (p : proc A) (s : shared) (sched : list label)
      (st : sys A) (v : env) :
  run sched (boot s p) = Some st ->
  exists evs' r, returns p (rev (mtrace st) ++ evs') r.
Proof.
  intros R.
  destruct (run_path _ _ _ R) as (ans & evs & P & T). simpl in P, T.
  rewrite app_nil_r in T.
  destruct (exec_runs (pmain st) v) as [ans' P'].
  exists (fst (exec v (pmain st))), (snd (exec v (pmain st))), (ans ++ ans').
  rewrite T, rev_involutive. exact (runs_app _ _ _ _ _ _ _ P P').
Qed.

Lemma running_step {A : Type} (st st' : sys A) (l : label) :
  sys_step st l = Some st' ->
  running_inv (sh st) (mtrace st) -> running_inv (sh st') (mtrace st').
Proof.
  intros H (I1 & I2 & I3). destruct l as [a|a|a|a|d|]; simpl in H.
  - destruct (proc_step (pmain st) a) as [[ev p']|]; [|discriminate H].
    destruct (on_event (sh st) ev) as [s'|] eqn:E; [|discriminate H].
    injection H as <-. unfold running_inv. simpl.
    destruct ev as [l|rc e|rc e|t| | | |pp e|b|e|x y|sg pid e|e]; simpl in E.
    + injection E as <-. simpl. auto.
    + injection E as <-. auto.
    + injection E as <-. auto.
    + destruct t;
        match type of E with
        | (if ?c then _ else _) = _ => destruct c; [|discriminate E]
        end;
        injection E as <-; simpl;
        (split; [auto|split; [first [discriminate|assumption]
                             |first [discriminate|assumption]]]).
    + injection E as <-. auto.
    + destruct (running (sh st)) eqn:Rn; [discriminate E|].
      injection E as <-. simpl. auto.
    + destruct (Nat.eqb (wg (sh st)) 0); [|discriminate E].
      injection E as <-. auto.
    + injection E as <-. destruct pp; simpl; auto.
    + destruct b;
        match type of E with
        | (if ?c then _ else _) = _ => destruct c; try discriminate E
        end;
        injection E as <-; auto.
    + destruct (option_error_eqb e (ctxDone (sh st))); [|discriminate E].
      injection E as <-. auto.
    + destruct (y =? var (sh st) x)%string; [|discriminate E].
      injection E as <-. auto.
    + injection E as <-. auto.
    + injection E as <-. auto.
  - destruct (tStderr (sh st)) as [pc|] eqn:T; [|discriminate H].
    destruct (stream_step "stderr" (sh st) pc a) as [[s' pc']|] eqn:E; [|discriminate H].
    injection H as <-. unfold running_inv. simpl. unfold stream_step in E.
    destruct pc, a; try discriminate E.
    + destruct (running (sh st)) eqn:Rn; [|discriminate E].
      injection E as <- <-. simpl. rewrite Rn. auto.
    + destruct (is_nil (ctxDone (sh st))); [discriminate E|].
      injection E as <- <-. simpl.
      split; [auto|]. split; [discriminate|auto].
    + destruct (errors_Is err ioEOF); [|destruct (negb (is_nil err))];
        injection E as <- <-; simpl;
        (split; [auto|]; split; [first [discriminate|intros _; auto]|auto]).
  - destruct (tStdout (sh st)) as [pc|] eqn:T; [|discriminate H].
    destruct (stream_step "stdout" (sh st) pc a) as [[s' pc']|] eqn:E; [|discriminate H].
    injection H as <-. unfold running_inv. simpl. unfold stream_step in E.
    destruct pc, a; try discriminate E.
    + destruct (running (sh st)) eqn:Rn; [|discriminate E].
      injection E as <- <-. simpl. rewrite Rn. auto.
    + destruct (is_nil (ctxDone (sh st))); [discriminate E|].
      injection E as <- <-. simpl.
      split; [auto|]. split; [auto|discriminate].
    + destruct (errors_Is err ioEOF); [|destruct (negb (is_nil err))];
        injection E as <- <-; simpl;
        (split; [auto|]; split; [auto|first [discriminate|intros _; auto]]).
  - destruct (tIpc (sh st)) as [pc|]; [|discriminate H].
    destruct (ipc_step (sh st) pc a) as [[s' pc']|] eqn:E; [|discriminate H].
    injection H as <-. unfold running_inv. simpl. unfold ipc_step in E.
    destruct pc, a as [|p [msg|e]]; try discriminate E;
      try (injection E as <- <-; simpl; auto);
      destruct p; try discriminate E;
      match type of E with
      | (if ?c then _ else _) = _ => destruct c; [|discriminate E]
      end;
      try (injection E as <- <-; simpl; auto).
    destruct msg as [x|x|]; simpl in E;
      repeat match type of E with
             | (if ?c then _ else _) = _ => destruct c
             end;
      try discriminate E; injection E as <- <-; simpl; auto.
  - destruct (is_nil (ctxDone (sh st))); [|discriminate H].
    injection H as <-. unfold running_inv. simpl. auto.
  - destruct (wgOther (sh st)); [discriminate H|].
    injection H as <-. unfold running_inv. simpl. auto.
Qed.

Lemma running_run {A : Type} (sched : list label) :
  forall (st st' : sys A),
    run sched st = Some st' ->
    running_inv (sh st) (mtrace st) -> running_inv (sh st') (mtrace st').
Proof.
  induction sched as [|l sched IH]; simpl; intros st st' H I.
  - injection H as <-. exact I.
  - destruct (sys_step st l) as [st1|] eqn:E; [|discriminate H].
    exact (IH _ _ H (running_step _ _ _ E I)).
Qed.

Lemma stop_no_close (os : platform) (n : node) (sevs : list event)
      (r : node * option error) :
  stop_post os n sevs r -> ~ In EvCloseRunning sevs.
Proof.
  intros [_ P] H. apply calls_In in H; [|reflexivity].
  destruct (running_pid n).
  - destruct P as (_ & e1 & e2 & e3 & sig & C & G & _). rewrite C in H.
    destruct H as [H|H]; [discriminate H|].
    apply in_app_or in H. destruct H as [H|H].
    + destruct e1; [destruct G as (_ & e4 & -> & _)|subst sig]; simpl in H;
        [destruct H as [H|[]]; discriminate H|destruct H].
    + simpl in H. repeat (destruct H as [H|H]; try discriminate H). destruct H.
  - destruct P as [C _]. rewrite C in H. destruct H.
Qed.

Lemma launch_whole (rc rc' : option nat) (res : nat + error) (evs k : list event) :
  launch rc rc' res = evs ++ k -> In EvCloseRunning evs -> k = [].
Proof.
  unfold launch. intros E H.
  do 7 (destruct evs as [|ev evs]; [destruct H|];
        simpl in E; injection E as <- E;
        destruct H as [H|H]; [try discriminate H|]);
    try (destruct evs; [exact (eq_sym E)|discriminate E]).
Qed.

Lemma launch_first (os : platform) (n : node) (evs evs' : list event)
      (r : node * option error) :
  start_path os n (evs ++ evs') r -> In EvCloseRunning evs ->
  exists rc rc' res rest, evs = launch rc rc' res ++ rest.
Proof.
  intros P H.
  remember (evs ++ evs') as full eqn:F.
  assert (G : forall rc rc' res tail,
             full = launch rc rc' res ++ tail -> ~ In EvCloseRunning tail ->
             exists rest, evs = launch rc rc' res ++ rest).
  { intros rc rc' res tail E N. rewrite F in E.
    apply app_eq_app in E. destruct E as [k [[E1 E2]|[E1 E2]]].
    - exists k. exact E1.
    - exists []. rewrite app_nil_r.
      rewrite E1, (launch_whole _ _ _ _ _ E1 H), app_nil_r. reflexivity. }
  destruct P as [rc e'|rc rc' e'|rc rc' e' x y|rc rc' pid sevs n2 ce S|rc rc' pid p q].
  - exfalso.
    assert (In EvCloseRunning (evs ++ evs')) as X by (apply in_or_app; auto).
    rewrite <- F in X. simpl in X.
    repeat (destruct X as [X|X]; try discriminate X). destruct X.
  - exfalso.
    assert (In EvCloseRunning (evs ++ evs')) as X by (apply in_or_app; auto).
    rewrite <- F in X. simpl in X.
    repeat (destruct X as [X|X]; try discriminate X). destruct X.
  - destruct (G rc rc' (inr e') _ eq_refl) as [rest E].
    + simpl. intros X. repeat (destruct X as [X|X]; try discriminate X). destruct X.
    + exists rc, rc', (inr e'), rest. exact E.
  - destruct (G rc rc' (inl pid) _ eq_refl) as [rest E].
    + intros X. destruct X as [X|X]; [discriminate X|].
      apply in_app_or in X. destruct X as [X|X].
      * exact (stop_no_close _ _ _ _ S X).
      * destruct X as [X|[]]; discriminate X.
    + exists rc, rc', (inl pid), rest. exact E.
  - destruct (G rc rc' (inl pid) _ eq_refl) as [rest E].
    + simpl. intros X. repeat (destruct X as [X|X]; try discriminate X). destruct X.
    + exists rc, rc', (inl pid), rest. exact E.
Qed.

(** X15.  Nothing is read from the child's streams before [cmd.Start]
    has returned: in every run of [start], when the channel [running] is
    closed, or a stream reader is past its [select] and in its read loop,
    the main goroutine has made the call of [cmd.Start], after both pipes
    were attached and the three goroutines spawned, and has closed
    [running] right after it, whatever [cmd.Start] returned. *)
Theorem readers_wait_for_start (os : platform) (n : node) (wg0 : nat) (tx rx : bool)
        (ctx : option bool) (sched : list label) (st : sys (node * option error)) :
  run sched (boot (entry (nodeNum n) wg0 tx rx ctx) (start os n)) = Some st ->
  running (sh st) = true \/ tStderr (sh st) = Some StReading
  \/ tStdout (sh st) = Some StReading ->
  exists rc rc' res rest, rev (mtrace st) = launch rc rc' res ++ rest.
Proof.
  intros R H.
  assert (I : running_inv (sh st) (mtrace st)).
  { apply (running_run sched _ st R). unfold running_inv. simpl.
    split; [discriminate|]. split; discriminate. }
  destruct I as (I1 & I2 & I3).
  assert (C : In EvCloseRunning (rev (mtrace st))).
  { apply In_rev_iff. destruct H as [H|[H|H]]; auto. }
  destruct (run_prefix _ _ _ _ env_failing R) as (evs' & r & P).
  apply (returns_wp _ _ _ _ (start_wp os n)) in P.
  exact (launch_first os n _ _ _ P C).
Qed.

Lemma readers_wait_for_start_witness :
  exists st rc rc' res rest,
    run sched_exec_fail_reading sys0 = Some st /\
    tStderr (sh st) = Some StReading /\
    rev (mtrace st) = launch rc rc' res ++ rest.
Proof.
  assert (R : exists st, run sched_exec_fail_reading sys0 = Some st /\
                         tStderr (sh st) = Some StReading).
  { vm_compute. eexists. split; reflexivity. }
  destruct R as (st & R & T).
  destruct (readers_wait_for_start linux node0 0 true true None _ st R
              (or_intror (or_introl T))) as (rc & rc' & res & rest & E).
  exists st, rc, rc', res, rest. auto.
Defined.

(** ** The wait group *)

Lemma live_S (x : nat) (t : option streamPc) (y : nat) :
  streamLive t = true -> x + b2n (streamLive t) + y = S (pred (x + b2n (streamLive t) + y)).
Proof. intros ->. simpl. lia. Qed.

Lemma live_S' (x y : nat) (t : option streamPc) :
  streamLive t = true -> x + y + b2n (streamLive t) = S (pred (x + y + b2n (streamLive t))).
Proof. intros ->. simpl. lia. Qed.

(** X16.  The wait group of a node counts its live stream readers, and
    those left by earlier calls, at every point of every run of any
    program of the main goroutine.  A reader's deferred [wg.Done()]
    always finds the counter positive and takes one off it, so the
    counter never goes negative; a step of the IPC reader leaves the
    counter as it is, that goroutine being outside the group. *)
Theorem wg_counts_readers {A : Type} (p : proc A) (num : N) (wg0 : nat) (tx rx : bool)
        (ctx : option bool) (sched : list label) (st : sys A) :
  run sched (boot (entry num wg0 tx rx ctx) p) = Some st ->
  wg (sh st) = wgOther (sh st) + b2n (streamLive (tStderr (sh st)))
               + b2n (streamLive (tStdout (sh st))) /\
  forall l st',
    sys_step st l = Some st' ->
    (forall a, l = LIpc a -> wg (sh st') = wg (sh st)) /\
    ((streamLive (tStderr (sh st)) = true /\ streamLive (tStderr (sh st')) = false) \/
     (streamLive (tStdout (sh st)) = true /\ streamLive (tStdout (sh st')) = false) \/
     l = LOtherDone ->
     wg (sh st) = S (wg (sh st'))).
Proof.
  intros R.
  assert (I : inv (sh st) (mtrace st)).
  { apply (inv_run sched (boot (entry num wg0 tx rx ctx) p) st); [|exact R].
    simpl. apply inv_entry. }
  pose proof (inv_wg _ _ I) as W.
  split; [exact W|]. intros l st' H.
  destruct l as [a|a|a|a|d|]; simpl in H.
  - split; [intros a' X; discriminate X|].
    destruct (proc_step (pmain st) a) as [[ev p']|]; [|discriminate H].
    destruct (on_event (sh st) ev) as [s'|] eqn:E; [|discriminate H].
    injection H as <-. simpl. intros X. exfalso.
    assert (L : (streamLive (tStderr (sh st)) = true -> streamLive (tStderr s') = true) /\
                (streamLive (tStdout (sh st)) = true -> streamLive (tStdout s') = true)).
    { destruct ev as [l|rc e|rc e|t| | | |pp e|b|e|x y|sg pid e|e]; simpl in E;
        try (injection E as <-; simpl; auto; fail).
      - destruct t;
          match type of E with
          | (if ?c then _ else _) = _ => destruct c; [|discriminate E]
          end;
          injection E as <-; simpl; auto.
      - destruct (running (sh st)); [discriminate E|]. injection E as <-. simpl. auto.
      - destruct (Nat.eqb (wg (sh st)) 0); [|discriminate E]. injection E as <-. auto.
      - injection E as <-. destruct pp; simpl; auto.
      - destruct b;
          match type of E with
          | (if ?c then _ else _) = _ => destruct c; try discriminate E
          end;
          injection E as <-; auto.
      - destruct (option_error_eqb e (ctxDone (sh st))); [|discriminate E].
        injection E as <-. auto.
      - destruct (y =? var (sh st) x)%string; [|discriminate E].
        injection E as <-. auto. }
    destruct L as [L1 L2].
    destruct X as [[X Y]|[[X Y]|X]]; [| |discriminate X].
    + rewrite (L1 X) in Y. discriminate Y.
    + rewrite (L2 X) in Y. discriminate Y.
  - split; [intros a' X; discriminate X|].
    destruct (tStderr (sh st)) as [pc|] eqn:T; [|discriminate H].
    destruct (stream_step "stderr" (sh st) pc a) as [[s' pc']|] eqn:E; [|discriminate H].
    injection H as <-. simpl. unfold stream_step in E.
    intros [[X Y]|[[X Y]|X]]; [| |discriminate X].
    + destruct pc, a; try discriminate E; try discriminate X;
        repeat match type of E with
               | (if ?c then _ else _) = _ => destruct c
               end;
        try discriminate E; injection E as <- <-; try discriminate Y;
        simpl; rewrite W; apply live_S; reflexivity.
    + exfalso.
      destruct pc, a; try discriminate E;
        repeat match type of E with
               | (if ?c then _ else _) = _ => destruct c
               end;
        try discriminate E; injection E as <- <-; simpl in Y;
        rewrite X in Y; discriminate Y.
  - split; [intros a' X; discriminate X|].
    destruct (tStdout (sh st)) as [pc|] eqn:T; [|discriminate H].
    destruct (stream_step "stdout" (sh st) pc a) as [[s' pc']|] eqn:E; [|discriminate H].
    injection H as <-. simpl. unfold stream_step in E.
    intros [[X Y]|[[X Y]|X]]; [| |discriminate X].
    + exfalso.
      destruct pc, a; try discriminate E;
        repeat match type of E with
               | (if ?c then _ else _) = _ => destruct c
               end;
        try discriminate E; injection E as <- <-; simpl in Y;
        rewrite X in Y; discriminate Y.
    + destruct pc, a; try discriminate E; try discriminate X;
        repeat match type of E with
               | (if ?c then _ else _) = _ => destruct c
               end;
        try discriminate E; injection E as <- <-; try discriminate Y;
        simpl; rewrite W; apply live_S'; reflexivity.
  - destruct (tIpc (sh st)) as [pc|]; [|discriminate H].
    destruct (ipc_step (sh st) pc a) as [[s' pc']|] eqn:E; [|discriminate H].
    injection H as <-. simpl.
    assert (K : wg s' = wg (sh st) /\ tStderr s' = tStderr (sh st)
                /\ tStdout s' = tStdout (sh st)).
    { unfold ipc_step in E.
      destruct pc, a as [|p0 [msg|e]]; try discriminate E;
        try (injection E as <- <-; simpl; auto; fail);
        destruct p0; try discriminate E;
        match type of E with
        | (if ?c then _ else _) = _ => destruct c; [|discriminate E]
        end;
        try (injection E as <- <-; simpl; auto; fail).
      destruct msg as [x|x|]; simpl in E;
        repeat match type of E with
               | (if ?c then _ else _) = _ => destruct c
               end;
        try discriminate E; injection E as <- <-; simpl; auto. }
    destruct K as (K1 & K2 & K3).
    split; [intros _ _; exact K1|].
    rewrite K2, K3.
    intros [[X Y]|[[X Y]|X]]; [| |discriminate X]; rewrite X in Y; discriminate Y.
  - split; [intros a' X; discriminate X|].
    destruct (is_nil (ctxDone (sh st))); [|discriminate H].
    injection H as <-. simpl.
    intros [[X Y]|[[X Y]|X]]; [| |discriminate X]; rewrite X in Y; discriminate Y.
  - split; [intros a' X; discriminate X|].
    destruct (wgOther (sh st)) as [|k] eqn:O; [discriminate H|].
    injection H as <-. simpl. intros _. rewrite W. simpl. reflexivity.
Qed.

Lemma wg_counts_readers_witness :
  exists st st',
    run (firstn 15 sched_cancel) sys0 = Some st /\
    sys_step st (LStderr (ReadBytes "" (Some ioEOF))) = Some st' /\
    wg (sh st) = 2 /\ wg (sh st') = 1.
Proof.
  assert (R : exists st st',
             run (firstn 15 sched_cancel) sys0 = Some st /\
             sys_step st (LStderr (ReadBytes "" (Some ioEOF))) = Some st' /\
             streamLive (tStderr (sh st)) = true /\
             streamLive (tStderr (sh st')) = false /\
             wg (sh st') = 1).
  { vm_compute. eexists. eexists. split; [reflexivity|]. split; [reflexivity|].
    split; [reflexivity|]. split; reflexivity. }
  destruct R as (st & st' & R & H & X & Y & W).
  destruct (wg_counts_readers (start linux node0) (nodeNum node0) 0 true true None _ st R)
    as [_ K].
  destruct (K _ _ H) as [_ K2].
  exists st, st'. split; [exact R|]. split; [exact H|].
  split; [|exact W]. rewrite <- W. apply K2. left. split; assumption.
Defined.

(** ** A stream reader from start to end *)

Lemma stream_lines (name : string) (lines : list string) :
  forall (s : shared) (rest : list streamAnswer),
    stream_run name s StReading (map (fun l => ReadBytes l None) lines ++ rest)
    = stream_run name
        (set_logged s (rev (map (fun l => logf_line (nodeNo s) (name ++ ": %s") [ArgStr l])
                                lines) ++ logged s))
        StReading rest.
Proof.
  induction lines as [|l lines IH]; intros s rest.
  - simpl. destruct s; reflexivity.
  - simpl. rewrite IH. simpl. rewrite <- app_assoc. reflexivity.
Qed.

(** X17.  A stream reader that is let through by [running], is handed
    the lines [lines] and then a read that fails with [e]: it logs
    "Reading <name>", each line in the order read, and one closing line
    ("EOF" when [e] is or wraps [io.EOF], the error otherwise), takes one
    off the wait group and returns.  The bytes that came with the failed
    read are not logged: a last line without its newline is lost.  A
    reader that has returned takes no further step. *)
Theorem stream_reader_log (name : string) (s : shared) (lines : list string)
        (x : string) (e : error) :
  running s = true ->
  exists s',
    stream_run name s StSelect
               (SelRunning :: map (fun l => ReadBytes l None) lines
                  ++ [ReadBytes x (Some e)])
    = Some (s', StDone) /\
    logged s'
    = (if errors_Is (Some e) ioEOF
       then logf_line (nodeNo s) (name ++ ": EOF") []
       else logf_line (nodeNo s) (name ++ ": Unable to read " ++ name ++ ": %v")
                      [ArgErr (Some e)])
        :: rev (map (fun l => logf_line (nodeNo s) (name ++ ": %s") [ArgStr l]) lines)
        ++ logf_line (nodeNo s) ("Reading " ++ name) [] :: logged s /\
    wg s' = pred (wg s) /\
    (forall a, stream_step name s' StDone a = None).
Proof.
  intros Rn. cbn [stream_run]. unfold stream_step at 1. rewrite Rn.
  rewrite stream_lines. cbn [stream_run]. unfold stream_step.
  destruct (errors_Is (Some e) ioEOF); cbn [negb is_nil];
    eexists; (split; [reflexivity|]); simpl;
    (split; [reflexivity|]); (split; [reflexivity|]); intros a; reflexivity.
Qed.

Lemma stream_reader_log_witness :
  exists s',
    stream_run "stdout" (set_running (entry 7 1 true true None) true) StSelect
               [SelRunning; ReadBytes "listening" None; ReadBytes "partial" (Some ioEOF)]
    = Some (s', StDone) /\
    map format (logged s')
    = ["007 stdout: EOF"; "007 stdout: %s"; "007 Reading stdout"] /\
    wg s' = 0.
Proof.
  destruct (stream_reader_log "stdout" (set_running (entry 7 1 true true None) true)
              ["listening"] "partial" ioEOF eq_refl) as (s' & R & L & W & _).
  exists s'. split; [exact R|]. rewrite L, W. split; reflexivity.
Defined.

(** ** The prefix of logf *)

Lemma zeros_parse (m : nat) (s : string) :
  NilEmpty.uint_of_string (string_of_list_ascii (repeat "0"%char m) ++ s)%string
  = option_map (Nat.iter m Decimal.D0) (NilEmpty.uint_of_string s).
Proof.
  induction m as [|m IH]; simpl.
  - destruct (NilEmpty.uint_of_string s); reflexivity.
  - rewrite IH. destruct (NilEmpty.uint_of_string s); reflexivity.
Qed.

Lemma zeros_value (m : nat) (d : Decimal.uint) :
  N.of_uint (Nat.iter m Decimal.D0 d) = N.of_uint d.
Proof. induction m as [|m IH]; simpl; [reflexivity|exact IH]. Qed.

Lemma to_uint_nonnil (k : N) : N.to_uint k <> Decimal.Nil.
Proof.
  destruct k as [|p]; simpl; [discriminate|apply Unsigned.to_uint_nonnil].
Qed.

Lemma string_of_uint_nonnil (d : Decimal.uint) :
  d <> Decimal.Nil -> NilZero.string_of_uint d = NilEmpty.string_of_uint d.
Proof. destruct d; intros H; [elim H|..]; reflexivity. Qed.

(** The node number read back from its prefix. *)
Lemma fmt_03d_value (k : N) :
  option_map N.of_uint (NilEmpty.uint_of_string (fmt_03d k)) = Some k.
Proof.
  unfold fmt_03d. cbv zeta. rewrite zeros_parse.
  rewrite (string_of_uint_nonnil _ (to_uint_nonnil k)), NilEmpty.usu. simpl.
  rewrite zeros_value, DecimalN.Unsigned.of_to. reflexivity.
Qed.

Lemma digits_of_uint (d : Decimal.uint) : all_digits (NilEmpty.string_of_uint d) = true.
Proof. induction d; simpl; auto. Qed.

Lemma all_digits_app (s t : string) :
  all_digits (s ++ t)%string = all_digits s && all_digits t.
Proof.
  induction s as [|c s IH]; simpl; [reflexivity|].
  rewrite IH. apply andb_assoc.
Qed.

Lemma all_digits_zeros (m : nat) :
  all_digits (string_of_list_ascii (repeat "0"%char m)) = true.
Proof. induction m as [|m IH]; simpl; auto. Qed.

Lemma fmt_03d_digits (k : N) : all_digits (fmt_03d k) = true.
Proof.
  unfold fmt_03d. cbv zeta. rewrite all_digits_app, all_digits_zeros.
  rewrite (string_of_uint_nonnil _ (to_uint_nonnil k)). apply digits_of_uint.
Qed.

Lemma zeros_length (m : nat) :
  String.length (string_of_list_ascii (repeat "0"%char m)) = m.
Proof. induction m as [|m IH]; simpl; auto. Qed.

Lemma digits_then_space (a b f g : string) :
  all_digits a = true -> all_digits b = true ->
  (a ++ " " ++ f)%string = (b ++ " " ++ g)%string -> a = b /\ f = g.
Proof.
  revert b. induction a as [|c a IH]; intros [|c' b] Da Db E; simpl in *.
  - injection E as ->. auto.
  - injection E as <- _. discriminate Db.
  - injection E as -> _. discriminate Da.
  - injection E as <- E.
    apply andb_prop in Da. apply andb_prop in Db.
    destruct (IH b (proj2 Da) (proj2 Db) E) as [-> ->]. auto.
Qed.

(** X18.  The line [logf] hands to the logger starts with the node
    number in decimal, padded with zeros to three digits at least, and
    one space.  The prefix is made of digits only, so a line tells the
    node it comes from and the format it was made with: two lines that are
    equal come from the same node number, format and operands. *)
Theorem logf_line_identifies_node (a b : N) (f g : string) (args args' : list logArg) :
  logf_line a f args = logf_line b g args' ->
  a = b /\ f = g /\ args = args' /\
  3 <= String.length (fmt_03d a) /\
  all_digits (fmt_03d a) = true /\
  String.prefix (fmt_03d a ++ " ") (format (logf_line a f args)) = true.
Proof.
  intros E. unfold logf_line in E. injection E as E1 E2.
  destruct (digits_then_space _ _ _ _ (fmt_03d_digits a) (fmt_03d_digits b) E1)
    as [Ea Ef].
  split.
  { pose proof (fmt_03d_value a) as Va. rewrite Ea, fmt_03d_value in Va.
    injection Va as ->. reflexivity. }
  split; [exact Ef|]. split; [exact E2|].
  split.
  { unfold fmt_03d. cbv zeta. rewrite length_append, zeros_length. lia. }
  split; [apply fmt_03d_digits|].
  simpl. generalize (fmt_03d a). intros s.
  induction s as [|c s IH]; simpl.
  - apply prefix_empty.
  - rewrite IH. destruct (ascii_dec c c) as [_|N]; [reflexivity|elim N; reflexivity].
Qed.

Lemma logf_line_identifies_node_witness :
  format (logf_line 7 "Reading stderr" []) = "007 Reading stderr" /\
  format (logf_line 1234 "Reading stderr" []) = "1234 Reading stderr" /\
  3 <= String.length (fmt_03d 7).
Proof.
  destruct (logf_line_identifies_node 7 7 "Reading stderr" "Reading stderr" [] [] eq_refl)
    as (_ & _ & _ & L & _).
  split; [reflexivity|]. split; [reflexivity|exact L].
Defined.

(** ** The package logger *)

(** X19.  The package logger (log.go).  Calls of [log()] and [UseLogger]
    made one after the other from a free mutex all return and leave the
    mutex free: each locks it once and unlocks it once.  Every [log()]
    returns the logger of the last [UseLogger] before it, and
    [slog.Disabled], the initial value, when there is none: the package
    logs nothing until the caller asks for it.  While the mutex is held
    neither call returns. *)
Theorem log_calls_result (cur l : Logger) (cs : list logCall) :
  log_calls cs {| innerLog := cur; mtx_locked := false |}
  = Some ({| innerLog := installed cur cs; mtx_locked := false |}, expected_logs cur cs) /\
  log_calls (cs ++ [CallLog]) logState0
  = Some ({| innerLog := installed slog_Disabled cs; mtx_locked := false |},
          expected_logs slog_Disabled cs ++ [installed slog_Disabled cs]) /\
  log_ {| innerLog := cur; mtx_locked := true |} = None /\
  UseLogger l {| innerLog := cur; mtx_locked := true |} = None.
Proof.
  assert (G : forall cs cur,
             log_calls cs {| innerLog := cur; mtx_locked := false |}
             = Some ({| innerLog := installed cur cs; mtx_locked := false |},
                     expected_logs cur cs)).
  { clear. induction cs as [|c cs IH]; intros cur; [reflexivity|].
    destruct c as [|l]; simpl.
    - unfold log_, mtx_Lock, mtx_Unlock. simpl. rewrite IH. reflexivity.
    - unfold UseLogger, mtx_Lock, mtx_Unlock. simpl. apply IH. }
  split; [apply G|]. split; [|split; reflexivity].
  unfold logState0. rewrite G. f_equal. f_equal.
  - clear. generalize slog_Disabled.
    induction cs as [|c cs IH]; intros x; [reflexivity|].
    destruct c; simpl; apply IH.
  - clear. generalize slog_Disabled.
    induction cs as [|c cs IH]; intros x; [reflexivity|].
    destruct c; simpl; [f_equal|]; apply IH.
Qed.

(** ** Starting a node again *)

Lemma closed_tx_step {A : Type} (st st' : sys A) (l : label) :
  sys_step st l = Some st' ->
  txOpen (sh st) = false -> gotSubsysAddrs (sh st) = false ->
  txOpen (sh st') = false /\ gotSubsysAddrs (sh st') = false.
Proof.
  intros H T G. destruct l as [a|a|a|a|d|]; simpl in H.
  - destruct (proc_step (pmain st) a) as [[ev p']|]; [|discriminate H].
    destruct (on_event (sh st) ev) as [s'|] eqn:E; [|discriminate H].
    injection H as <-. simpl.
    destruct ev; simpl in E; try rewrite G in E;
      repeat match type of E with
             | (if ?c then _ else _) = _ => destruct c
             | match ?t with _ => _ end = _ => destruct t
             end;
      try discriminate E; injection E as <-; simpl; auto.
    destruct p; simpl; auto.
  - destruct (tStderr (sh st)) as [pc|]; [|discriminate H].
    destruct (stream_step "stderr" (sh st) pc a) as [[s' pc']|] eqn:E; [|discriminate H].
    injection H as <-. simpl. unfold stream_step in E.
    destruct pc, a; try discriminate E;
      repeat match type of E with
             | (if ?c then _ else _) = _ => destruct c
             end;
      try discriminate E; injection E as <- <-; simpl; auto.
  - destruct (tStdout (sh st)) as [pc|]; [|discriminate H].
    destruct (stream_step "stdout" (sh st) pc a) as [[s' pc']|] eqn:E; [|discriminate H].
    injection H as <-. simpl. unfold stream_step in E.
    destruct pc, a; try discriminate E;
      repeat match type of E with
             | (if ?c then _ else _) = _ => destruct c
             end;
      try discriminate E; injection E as <- <-; simpl; auto.
  - destruct (tIpc (sh st)) as [pc|]; [|discriminate H].
    destruct (ipc_step (sh st) pc a) as [[s' pc']|] eqn:E; [|discriminate H].
    injection H as <-. simpl. unfold ipc_step, readable in E. simpl in E.
    destruct pc, a as [|p0 [msg|e]]; try discriminate E;
      try (injection E as <- <-; simpl; auto; fail);
      destruct p0; try discriminate E; try rewrite T in E; try discriminate E;
      try (injection E as <- <-; simpl; auto; fail).
    destruct (rxOpen (sh st)); [|discriminate E].
    injection E as <- <-. simpl. auto.
  - destruct (is_nil (ctxDone (sh st))); [|discriminate H].
    injection H as <-. simpl. auto.
  - destruct (wgOther (sh st)); [discriminate H|].
    injection H as <-. simpl. auto.
Qed.

Lemma closed_tx_run {A : Type} (sched : list label) :
  forall (st st' : sys A),
    run sched st = Some st' ->
    txOpen (sh st) = false -> gotSubsysAddrs (sh st) = false ->
    txOpen (sh st') = false /\ gotSubsysAddrs (sh st') = false.
Proof.
  induction sched as [|l sched IH]; simpl; intros st st' H T G.
  - injection H as <-. auto.
  - destruct (sys_step st l) as [st1|] eqn:E; [|discriminate H].
    destruct (closed_tx_step _ _ _ E T G) as [T1 G1].
    exact (IH _ _ H T1 G1).
Qed.

(** X20.  A node cannot be started twice.  [start] does not make the
    pipe pairs, [newConfig] does, and [stop] and the failure path of
    [start] close them.  When [start] is entered with pipeTX closed, no
    message can be read from it, so [gotSubsysAddrs] is never closed and
    [start] never returns nil: if it returns, it returns an error and
    records no address. *)
Theorem start_on_closed_pipeTX (os : platform) (n : node) (wg0 : nat) (rx : bool)
        (ctx : option bool) (sched : list label)
        (st : sys (node * option error)) :
  run sched (boot (entry (nodeNum n) wg0 false rx ctx) (start os n)) = Some st ->
  gotSubsysAddrs (sh st) = false /\
  varP2P (sh st) = "" /\ varRPC (sh st) = "" /\
  forall r, pmain st = Ret r ->
            snd r <> None /\ p2pAddr (fst r) = p2pAddr n /\ rpcAddr (fst r) = rpcAddr n.
Proof.
  intros R.
  destruct (closed_tx_run _ _ _ R eq_refl eq_refl) as [T G].
  split; [exact G|].
  assert (V : (varP2P (sh st), varRPC (sh st)) = ("", "")).
  { rewrite (addr_run sched _ st R). simpl.
    assert (K : forall sched' (st0 st1 : sys (node * option error)) v,
               run sched' st0 = Some st1 -> txOpen (sh st0) = false ->
               gotSubsysAddrs (sh st0) = false ->
               fold_left addr_update sched' v = v).
    { clear. induction sched' as [|l sched' IH]; simpl; intros st0 st1 v H T G;
        [reflexivity|].
      destruct (sys_step st0 l) as [st2|] eqn:E; [|discriminate H].
      destruct (closed_tx_step _ _ _ E T G) as [T2 G2].
      assert (U : addr_update v l = v).
      { destruct l as [a|a|a|a|d|]; try reflexivity.
        destruct a as [|p0 [msg|e]]; try reflexivity;
          destruct p0; try reflexivity; try (destruct msg; reflexivity).
        exfalso. simpl in E.
        destruct (tIpc (sh st0)) as [pc|]; [|discriminate E].
        unfold ipc_step, readable in E. simpl in E.
        destruct pc; try discriminate E. rewrite T in E. discriminate E. }
      rewrite U. exact (IH _ _ v H T2 G2). }
    exact (K sched _ st _ R eq_refl eq_refl). }
  injection V as V1 V2.
  split; [exact V1|]. split; [exact V2|].
  intros [n' err] E.
  pose proof (start_addrs _ _ _ _ _ _ _ _ _ _ R E) as H.
  destruct err as [e|]; [split; [discriminate|exact H]|].
  exfalso.
  destruct (start_run _ _ _ _ _ _ _ _ _ _ R E) as [P I].
  remember (rev (mtrace st)) as evs eqn:Tr. symmetry in Tr.
  remember (n', @None error) as r eqn:Er.
  destruct P as [rc e'|rc rc' e'|rc rc' e' x y|rc rc' pid sevs n3 ce S|rc rc' pid p q];
    try discriminate Er.
  assert (Hin : In (EvSelect GotSubsysAddrs) (mtrace st)).
  { apply In_rev_iff. rewrite Tr. apply in_or_app. right. left. reflexivity. }
  rewrite (inv_sel_got _ _ I Hin) in G. discriminate G.
Qed.

Lemma start_on_closed_pipeTX_witness :
  exists st r,
    run sched_restart (boot (entry (nodeNum node0) 0 false false None) (start linux node0))
    = Some st /\
    pmain st = Ret r /\ snd r <> None /\ rpcAddr (fst r) = "".
Proof.
  assert (R : exists st r,
             run sched_restart
                 (boot (entry (nodeNum node0) 0 false false None) (start linux node0))
             = Some st /\ pmain st = Ret r).
  { vm_compute. eexists. eexists. split; reflexivity. }
  destruct R as (st & r & R & E).
  destruct (start_on_closed_pipeTX linux node0 0 false None _ st R) as (_ & _ & _ & H).
  destruct (H r E) as (A & _ & B).
  exists st, r. split; [exact R|]. split; [exact E|]. split; [exact A|exact B].
Defined.

(** ** A start that returns before the launch *)

Lemma no_close_tail (p : pipeId) (ev : event) (tr : list event) :
  (forall e, ~ In (EvPipeClose p e) (ev :: tr)) -> forall e, ~ In (EvPipeClose p e) tr.
Proof. intros H e Hin. apply (H e). right. exact Hin. Qed.

Lemma spawn_step {A : Type} (tx0 rx0 : bool) (st st' : sys A) (l : label) :
  sys_step st l = Some st' ->
  spawn_inv tx0 rx0 (sh st) (mtrace st) -> spawn_inv tx0 rx0 (sh st') (mtrace st').
Proof.
  intros H (I0 & I1 & I2 & I3 & I4 & I5).
  split; [exact (running_step _ _ _ H I0)|].
  destruct I0 as (R1 & R2 & R3).
  destruct l as [a|a|a|a|d|]; simpl in H.
  - destruct (proc_step (pmain st) a) as [[ev p']|]; [|discriminate H].
    destruct (on_event (sh st) ev) as [s'|] eqn:E; [|discriminate H].
    injection H as <-. simpl.
    pose proof (no_close_tail PipeTX ev (mtrace st)) as NT.
    pose proof (no_close_tail PipeRX ev (mtrace st)) as NR.
    destruct ev as [l|rc e|rc e|t| | | |pp e|b|e|x y|sg pid e|e]; simpl in E.
    + injection E as <-. simpl. repeat split; auto.
    + injection E as <-. repeat split; auto.
    + injection E as <-. repeat split; auto.
    + destruct t;
        match type of E with
        | (if ?c then _ else _) = _ => destruct c; [|discriminate E]
        end;
        injection E as <-; simpl; repeat split; auto; discriminate.
    + injection E as <-. repeat split; auto.
    + destruct (running (sh st)) eqn:Rn; [discriminate E|].
      injection E as <-. simpl. repeat split; auto.
    + destruct (Nat.eqb (wg (sh st)) 0); [|discriminate E].
      injection E as <-. repeat split; auto.
    + injection E as <-.
      destruct pp; simpl; repeat split; auto;
        intros Hn; exfalso; apply (Hn e); left; reflexivity.
    + destruct b;
        match type of E with
        | (if ?c then _ else _) = _ => destruct c; try discriminate E
        end;
        injection E as <-; repeat split; auto.
    + destruct (option_error_eqb e (ctxDone (sh st))); [|discriminate E].
      injection E as <-. repeat split; auto.
    + destruct (y =? var (sh st) x)%string; [|discriminate E].
      injection E as <-. repeat split; auto.
    + injection E as <-. repeat split; auto.
    + injection E as <-. repeat split; auto.
  - destruct (tStderr (sh st)) as [pc|] eqn:T; [|discriminate H].
    destruct (stream_step "stderr" (sh st) pc a) as [[s' pc']|] eqn:E; [|discriminate H].
    injection H as <-. simpl. unfold stream_step in E.
    destruct pc, a; try discriminate E.
    + destruct (running (sh st)) eqn:Rn; [|discriminate E].
      injection E as <- <-. simpl. repeat split; auto.
    + destruct (ctxDone (sh st)) as [ce|] eqn:Cx; [|discriminate E].
      injection E as <- <-. simpl. rewrite Cx.
      repeat split; auto. intros _. right. discriminate.
    + destruct (errors_Is err ioEOF); [|destruct (negb (is_nil err))];
        injection E as <- <-; simpl; repeat split; auto; discriminate.
  - destruct (tStdout (sh st)) as [pc|] eqn:T; [|discriminate H].
    destruct (stream_step "stdout" (sh st) pc a) as [[s' pc']|] eqn:E; [|discriminate H].
    assert (G : In (EvGo TStdout) (mtrace st)) by (apply I2; discriminate).
    injection H as <-. simpl. unfold stream_step in E.
    destruct pc, a; try discriminate E;
      repeat match type of E with
             | (if ?c then _ else _) = _ => destruct c eqn:?
             end;
      try discriminate E; injection E as <- <-; simpl; repeat split; auto.
  - destruct (tIpc (sh st)) as [pc|] eqn:T; [|discriminate H].
    destruct (ipc_step (sh st) pc a) as [[s' pc']|] eqn:E; [|discriminate H].
    assert (G : In (EvGo TIpc) (mtrace st)) by (apply I3; discriminate).
    injection H as <-. simpl. unfold ipc_step in E.
    destruct pc, a as [|p0 [msg|e]]; try discriminate E;
      try (injection E as <- <-; simpl; repeat split; auto; fail);
      destruct p0; try discriminate E;
      match type of E with
      | (if ?c then _ else _) = _ => destruct c; [|discriminate E]
      end;
      try (injection E as <- <-; simpl; repeat split; auto; fail).
    destruct msg as [x|x|]; simpl in E;
      repeat match type of E with
             | (if ?c then _ else _) = _ => destruct c
             end;
      try discriminate E; injection E as <- <-; simpl; repeat split; auto.
  - destruct (is_nil (ctxDone (sh st))) eqn:Cx; [|discriminate H].
    injection H as <-. simpl. repeat split; auto.
    intros X. destruct (I1 X) as [Y|Y]; [left; exact Y|].
    right. destruct d; discriminate.
  - destruct (wgOther (sh st)); [discriminate H|].
    injection H as <-. simpl. repeat split; auto.
Qed.

Lemma spawn_run {A : Type} (tx0 rx0 : bool) (sched : list label) :
  forall (st st' : sys A),
    run sched st = Some st' ->
    spawn_inv tx0 rx0 (sh st) (mtrace st) -> spawn_inv tx0 rx0 (sh st') (mtrace st').
Proof.
  induction sched as [|l sched IH]; simpl; intros st st' H I.
  - injection H as <-. exact I.
  - destruct (sys_step st l) as [st1|] eqn:E; [|discriminate H].
    exact (IH _ _ H (spawn_step _ _ _ _ _ E I)).
Qed.

Lemma spawn_entry (num : N) (wg0 : nat) (tx rx : bool) (ctx : option bool) :
  spawn_inv tx rx (entry num wg0 tx rx ctx) [].
Proof.
  unfold spawn_inv, running_inv. simpl.
  repeat split; try discriminate; try (intros X; elim X; reflexivity); auto.
Qed.

(** Once the main goroutine has returned only the other goroutines
    move. *)
Lemma returned_run {A : Type} (sched : list label) :
  forall (st st' : sys A) (r : A),
    run sched st = Some st' -> pmain st = Ret r ->
    pmain st' = Ret r /\ mtrace st' = mtrace st.
Proof.
  induction sched as [|l sched IH]; simpl; intros st st' r H E.
  - injection H as <-. auto.
  - destruct (sys_step st l) as [st1|] eqn:S; [|discriminate H].
    assert (K : pmain st1 = Ret r /\ mtrace st1 = mtrace st).
    { destruct l as [a|a|a|a|d|]; simpl in S.
      - rewrite E in S. destruct a; discriminate S.
      - destruct (tStderr (sh st)) as [pc|]; [|discriminate S].
        destruct (stream_step "stderr" (sh st) pc a) as [[s' pc']|]; [|discriminate S].
        injection S as <-. auto.
      - destruct (tStdout (sh st)) as [pc|]; [|discriminate S].
        destruct (stream_step "stdout" (sh st) pc a) as [[s' pc']|]; [|discriminate S].
        injection S as <-. auto.
      - destruct (tIpc (sh st)) as [pc|]; [|discriminate S].
        destruct (ipc_step (sh st) pc a) as [[s' pc']|]; [|discriminate S].
        injection S as <-. auto.
      - destruct (is_nil (ctxDone (sh st))); [|discriminate S].
        injection S as <-. auto.
      - destruct (wgOther (sh st)); [discriminate S|].
        injection S as <-. auto. }
    destruct K as [K1 K2].
    destruct (IH _ _ r H K1) as [J1 J2]. split; [exact J1|congruence].
Qed.

(** X21.  A [start] that fails on [cmd.StdoutPipe] leaves the stderr
    reader behind.  When [start] has returned that error, and from then
    on whatever the goroutines do: [running] is never closed, so the
    stderr reader never reads; it is parked at its [select] and still
    counted by the wait group, and it can have returned only if the
    context is done.  The stdout and IPC readers were never spawned, both
    pipe pairs are as [start] found them, and the command of the node is
    untouched. *)
Theorem stdout_pipe_failure_parks_reader (os : platform) (n : node) (wg0 : nat)
        (tx rx : bool) (ctx : option bool) (sched sched' : list label)
        (st st' : sys (node * option error)) (r : node * option error)
        (rc' : option nat) (e : error) :
  run sched (boot (entry (nodeNum n) wg0 tx rx ctx) (start os n)) = Some st ->
  pmain st = Ret r ->
  In (EvStdoutPipe rc' (Some e)) (mtrace st) ->
  run sched' st = Some st' ->
  snd r = Some e /\ cmd (fst r) = cmd n /\
  running (sh st') = false /\
  (tStderr (sh st') = Some StSelect \/
   tStderr (sh st') = Some StDone /\ ctxDone (sh st') <> None) /\
  tStdout (sh st') = None /\ tIpc (sh st') = None /\
  txOpen (sh st') = tx /\ rxOpen (sh st') = rx /\
  wg (sh st') = wgOther (sh st') + b2n (streamLive (tStderr (sh st'))).
Proof.
  intros R E Hin R'.
  destruct (returned_run _ _ _ _ R' E) as [E' T'].
  assert (R2 : run (sched ++ sched')
                   (boot (entry (nodeNum n) wg0 tx rx ctx) (start os n)) = Some st').
  { rewrite run_app, R. exact R'. }
  destruct (start_run _ _ _ _ _ _ _ _ _ _ R2 E') as [P I].
  assert (Sp : spawn_inv tx rx (sh st') (mtrace st')).
  { apply (spawn_run tx rx _ _ st' R2). apply spawn_entry. }
  rewrite <- T' in Hin. apply (proj2 (In_rev_iff _ _)) in Hin.
  remember (rev (mtrace st')) as evs eqn:Tr.
  symmetry in Tr. apply rev_eq_l in Tr.
  assert (F : evs = [EvStderrPipe (stderr (fst r)) None; EvGo TStderr;
                     EvStdoutPipe rc' (Some e)] /\
              snd r = Some e /\ cmd (fst r) = cmd n).
  { destruct P as [rc e'|rc rc0 e'|rc rc0 e' x y|rc rc0 pid sevs n3 ce S|rc rc0 pid p q].
    - exfalso. destruct Hin as [X|[]]. discriminate X.
    - simpl in Hin. destruct Hin as [X|[X|[X|[]]]]; try discriminate X.
      injection X as -> ->. simpl. auto.
    - exfalso. simpl in Hin.
      repeat (destruct Hin as [Hin|Hin]; try discriminate Hin). destruct Hin.
    - exfalso.
      apply (ctx_path_In os (launched os n rc rc0 pid) pid rc rc0 sevs _ ce _ eq_refl S)
        in Hin; [|reflexivity].
      destruct Hin as [X|[(p & x & X)|[(s & x & X)|[X|(x & X)]]]];
        try discriminate X.
      simpl in X. repeat (destruct X as [X|X]; try discriminate X). destruct X.
    - exfalso. simpl in Hin.
      repeat (destruct Hin as [Hin|Hin]; try discriminate Hin). destruct Hin. }
  destruct F as (F & Fe & Fc). rewrite F in Tr. simpl in Tr.
  destruct Sp as ((R1 & R2' & R3) & S1 & S2 & S3 & S4 & S5).
  rewrite Tr in R1, S2, S3, S4, S5.
  assert (Rn : running (sh st') = false).
  { destruct (running (sh st')); [|reflexivity].
    exfalso. destruct (R1 eq_refl) as [X|[X|[X|[]]]]; discriminate X. }
  assert (So : tStdout (sh st') = None).
  { destruct (tStdout (sh st')) as [pc|]; [|reflexivity].
    exfalso. destruct S2 as [X|[X|[X|[]]]]; discriminate. }
  assert (Si : tIpc (sh st') = None).
  { destruct (tIpc (sh st')) as [pc|]; [|reflexivity].
    exfalso. destruct S3 as [X|[X|[X|[]]]]; discriminate. }
  split; [exact Fe|]. split; [exact Fc|]. split; [exact Rn|].
  split.
  { assert (G : tStderr (sh st') <> None).
    { apply (inv_go_stderr _ _ I). rewrite Tr. simpl. tauto. }
    destruct (tStderr (sh st')) as [[| |]|] eqn:Te.
    - left. reflexivity.
    - exfalso. rewrite (R2' eq_refl) in Rn. discriminate Rn.
    - right. split; [reflexivity|].
      destruct (S1 eq_refl) as [X|X]; [rewrite X in Rn; discriminate Rn|exact X].
    - elim G. reflexivity. }
  split; [exact So|]. split; [exact Si|].
  split.
  { apply S4. intros x [X|[X|[X|[]]]]; discriminate X. }
  split.
  { apply S5. intros x [X|[X|[X|[]]]]; discriminate X. }
  rewrite (inv_wg _ _ I), So. simpl. lia.
Qed.

Lemma stdout_pipe_failure_parks_reader_witness :
  exists st st',
    run sched_no_stdout sys0 = Some st /\
    run [LCtxDone false; LStderr SelCtxDone] st = Some st' /\
    running (sh st') = false /\ tStdout (sh st') = None /\ txOpen (sh st') = true.
Proof.
  assert (R : exists st st' rc' e,
             run sched_no_stdout sys0 = Some st /\
             run [LCtxDone false; LStderr SelCtxDone] st = Some st' /\
             pmain st = Ret (attached node0 (Some 7) rc', Some e) /\
             In (EvStdoutPipe rc' (Some e)) (mtrace st)).
  { vm_compute. eexists. eexists. eexists. eexists.
    split; [reflexivity|]. split; [reflexivity|]. split; [reflexivity|].
    left. reflexivity. }
  destruct R as (st & st' & rc' & e & R & R' & E & Hin).
  destruct (stdout_pipe_failure_parks_reader linux node0 0 true true None _ _ st st' _
              rc' e R E Hin R') as (_ & _ & A & _ & B & _ & C & _).
  exists st, st'. repeat split; assumption.
Defined.
